(** * Descriptors with Miniscript: a shallow embedding of [src/index.ts]

    The development follows the source file top to bottom: the JavaScript
    values the code manipulates (strings, buffers, insertion-ordered
    objects), the collaborators it imports (regular expressions of [./re],
    [./checksum], [./keyExpressions], the miniscript engine, bitcoinjs-lib),
    then [isolate], [expandMiniscript], [substituteAsm], [miniscript2Script],
    [satisfyMiniscript] and the [Descriptor] class. *)

From Stdlib Require Import String Ascii List NArith ZArith Bool Arith Lia.
From Stdlib Require Import DecimalString DecimalN.
Import ListNotations.
Local Open Scope string_scope.

(** ** Outcomes

    Every [throw new Error(...)] of the source is one constructor; the
    comment quotes the message. What an imported function throws is
    [External], with the name of the function. *)

Inductive Error : Type :=
| MissingChecksum            (* descriptor ... has not checksum *)
| BadChecksum                (* invalid descriptor checksum for ... *)
| InvalidIndex               (* invalid index ... *)
| CouldNotDecompile          (* cound not decompile ... *)
| DuplicatePubkey            (* miniscript ... is not sane: contains duplicate public keys. *)
| InvalidExpansionMap        (* invalid expansionMap for ... *)
| InsaneMiniscript           (* Miniscript ... is not sane *)
| Unresolvable               (* unresolvable miniscript ... *)
| ConstraintsUnmet           (* unresolvable miniscript .... Could not find solutions for nSequence=..., nLockTime=... *)
| InvalidKnownsMap           (* invalid expandedKnownsMap *)
| InvalidAddress             (* invalid address ... *)
| InvalidExpression          (* invalid expression ... *)
| KeyExpressionNotExtracted  (* keyExpression could not me extracted *)
| MiniscriptNotExtracted     (* could not get miniscript in ... *)
| ScriptTooLarge             (* script is too large ... / P2SH script is too large ... *)
| TooManyOps                 (* too many non-push ops ... *)
| MiniscriptInP2SHDisallowed (* Miniscript expressions can only be used in wsh *)
| CouldNotParse              (* Could not parse descriptor ... *)
| SegwitUndetermined         (* could not determine whether miniscript ... is segwit *)
| NoAddress                  (* could extract an address from the payment *)
| NoOutputScript             (* could extract output.script from the payment *)
| NoMiniscript               (* this descriptor does not have a miniscript expression *)
| NoSatisfaction             (* could not produce a valid satisfaction *)
| NoSuchOutput               (* tx ... does not have vout ... *)
| LocktimeConflict           (* transaction locktime has already been set: ... *)
| NoSignatures               (* cannot finalize without signatures *)
| External (who : string).   (* thrown inside an imported function *)

Inductive result (A : Type) : Type :=
| Ok (a : A)
| Err (e : Error).
Arguments Ok {A} a.
Arguments Err {A} e.

Definition bind {A B : Type} (r : result A) (k : A -> result B) : result B :=
  match r with
  | Ok a => k a
  | Err e => Err e
  end.

Declare Scope js_scope.
Delimit Scope js_scope with js.
Notation "x <- r ;; k" := (bind r (fun x => k))
  (at level 61, r at next level, right associativity) : js_scope.
Notation "' p <- r ;; k" := (bind r (fun x => let p := x in k))
  (at level 61, p pattern, r at next level, right associativity) : js_scope.
Notation "'throw_if' c 'then' e ;; k" := (if c then Err e else k)
  (at level 61, c at next level, e at next level, right associativity) : js_scope.
Local Open Scope js_scope.

Definition succeeded {A : Type} (r : result A) : bool :=
  match r with Ok _ => true | Err _ => false end.

(** What a call of an imported function comes to: it returns, or it throws. *)
Inductive outcome (A : Type) : Type :=
| Returned (a : A)
| Thrown (who : string).
Arguments Returned {A} a.
Arguments Thrown {A} who.

(** A call outside a [try]: what it throws goes up to the caller. *)
Definition call {A : Type} (o : outcome A) : result A :=
  match o with
  | Returned a => Ok a
  | Thrown who => Err (External who)
  end.

(** ** JavaScript strings *)

Module Js.

(** [String(undefined)], as template literals and [+] coerce it. *)
Definition str_of_opt (o : option string) : string :=
  match o with
  | Some s => s
  | None => "undefined"
  end.

(** Truthiness of a [string | undefined]: a non-empty string. *)
Definition truthy (o : option string) : bool :=
  match o with
  | Some s => negb (s =? "")
  | None => false
  end.

(** [s.substring(from)] and [s.substring(0, to)]. *)
Definition substring_from (from : nat) (s : string) : string :=
  String.substring from (String.length s - from) s.

Definition substring_to (to : nat) (s : string) : string :=
  String.substring 0 to s.

(** [n.toString()] for a natural number: its decimal digits. *)
Definition decimal (n : N) : string :=
  NilEmpty.string_of_uint (N.to_uint n).

(** [s.replaceAll(pat, rep)] for a string pattern: the occurrences are found
    left to right and do not overlap. [skip] counts the characters of the
    occurrence being replaced that are still to be dropped. The replacement
    is taken as it is. JavaScript expands [$$], [$&] and the like in it:
    the index printed and the hex between [<] and [>] hold no [$], and a
    preimage of the caller that holds one is not followed here. *)
Fixpoint replaceAll_from (pat rep : string) (skip : nat) (s : string) : string :=
  match s with
  | EmptyString => EmptyString
  | String c s' =>
      match skip with
      | S k => replaceAll_from pat rep k s'
      | O =>
          if String.prefix pat s
          then rep ++ replaceAll_from pat rep (String.length pat - 1) s'
          else String c (replaceAll_from pat rep 0 s')
      end
  end.

(** With the empty pattern JavaScript puts [rep] between all characters and
    at both ends. *)
Fixpoint intersperse_all (rep : string) (s : string) : string :=
  match s with
  | EmptyString => rep
  | String c s' => rep ++ String c (intersperse_all rep s')
  end.

Definition replaceAll (pat rep : string) (s : string) : string :=
  match pat with
  | EmptyString => intersperse_all rep s
  | _ => replaceAll_from pat rep 0 s
  end.

(** [s.replace(pat, rep)] for a string pattern: the first occurrence only. *)
Fixpoint replace (pat rep : string) (s : string) : string :=
  if String.prefix pat s
  then rep ++ substring_from (String.length pat) s
  else match s with
       | EmptyString => EmptyString
       | String c s' => String c (replace pat rep s')
       end.

Definition ends_with (post s : string) : bool :=
  (String.length post <=? String.length s)%nat
  && (substring_from (String.length s - String.length post) s =? post).

(** [s] is [pre ++ inner ++ post]: the inner part. *)
Definition unwrap (pre post s : string) : option string :=
  if String.prefix pre s && ends_with post s
     && (String.length pre + String.length post <=? String.length s)%nat
  then Some (String.substring (String.length pre)
               (String.length s - String.length pre - String.length post) s)
  else None.

(** [s.match(/\*/g)]: [null], or the array of the matches. *)
Definition is_star (c : ascii) : bool := Ascii.eqb c "*"%char.

Definition match_stars (s : string) : option (list string) :=
  match filter is_star (list_ascii_of_string s) with
  | [] => None
  | l => Some (map (fun c => String c EmptyString) l)
  end.

End Js.

(** ** JavaScript numbers as [isolate] looks at them

    [index] is a [number]. The code asks [Number.isInteger(index)] and
    [index < 0], and prints it with [toString()]. An integral value is
    [JsInteger z]; NaN, the infinities and fractions are [JsNonInteger].
    Every integer of absolute value below 2^53 is a number; beyond, only
    the integers a double holds are, and nothing is stated of the others. *)

Inductive JsNumber : Type :=
| JsInteger (z : Z)
| JsNonInteger.

Definition Number_isInteger (x : JsNumber) : bool :=
  match x with
  | JsInteger _ => true
  | JsNonInteger => false
  end.

(** [x < 0]; on a non-integer the code never gets to ask (the [||] before
    it has decided). *)
Definition Number_ltb0 (x : JsNumber) : bool :=
  match x with
  | JsInteger z => (z <? 0)%Z
  | JsNonInteger => false
  end.

(** [index.toString()]. A safe integer, of absolute value below 2^53, is a
    number as it stands and is printed by its decimal digits. From 2^53 on
    only some integers are numbers, and [Number::toString] prints the
    shortest digits that read back as the number (2^64 is printed
    "18446744073709552000"), in exponent form from 10^21 on ("1e+21"): that
    part is the runtime's business, and [beyond_safe] stands for it. *)
Definition Number_toString (beyond_safe : Z -> string) (z : Z) : string :=
  if (Z.abs z <? 2 ^ 53)%Z
  then if (z <? 0)%Z then "-" ++ Js.decimal (Z.to_N (- z)) else Js.decimal (Z.to_N z)
  else beyond_safe z.

(** ** Buffers *)

Definition Buffer : Type := list Byte.byte.

Definition hex_digit (n : N) : ascii :=
  match n with
  | 0%N => "0" | 1%N => "1" | 2%N => "2" | 3%N => "3"
  | 4%N => "4" | 5%N => "5" | 6%N => "6" | 7%N => "7"
  | 8%N => "8" | 9%N => "9" | 10%N => "a" | 11%N => "b"
  | 12%N => "c" | 13%N => "d" | 14%N => "e" | _ => "f"
  end%char.

(** [buf.toString('hex')] *)
Fixpoint toHex (b : Buffer) : string :=
  match b with
  | [] => EmptyString
  | x :: b' =>
      let n := Byte.to_N x in
      String (hex_digit (n / 16)) (String (hex_digit (n mod 16)) (toHex b'))
  end.

Definition hex_value (c : ascii) : option N :=
  let n := N.of_nat (nat_of_ascii c) in
  if ((48 <=? n) && (n <=? 57))%N then Some (n - 48)%N
  else if ((97 <=? n) && (n <=? 102))%N then Some (n - 87)%N
  else if ((65 <=? n) && (n <=? 70))%N then Some (n - 55)%N
  else None.

Definition is_hex (c : ascii) : bool :=
  match hex_value c with Some _ => true | None => false end.

(** The bytes a string of hex pairs stands for, when it is one. *)
Fixpoint fromHex (s : string) : option Buffer :=
  match s with
  | EmptyString => Some []
  | String a (String b s') =>
      match hex_value a, hex_value b, fromHex s' with
      | Some x, Some y, Some rest =>
          match Byte.of_N (16 * x + y) with
          | Some byte => Some (byte :: rest)
          | None => None
          end
      | _, _, _ => None
      end
  | String _ EmptyString => None
  end.

(** [Buffer.alloc(size, 0)] *)
Definition Buffer_alloc0 (size : nat) : Buffer := repeat Byte.x00 size.

(** ** Objects used as maps

    [ExpansionMap], [preimageMap] and [expandedSignatureMap] are plain
    objects with string keys, none of which is an array index, so
    [Object.keys] lists them in insertion order and an assignment to a key
    already there keeps its place. *)

Definition JsObject (V : Type) : Type := list (string * V).

Fixpoint obj_set {V : Type} (o : JsObject V) (k : string) (v : V) : JsObject V :=
  match o with
  | [] => [(k, v)]
  | (k', v') :: o' =>
      if k' =? k then (k', v) :: o' else (k', v') :: obj_set o' k v
  end.

Definition Object_keys {V : Type} (o : JsObject V) : list string := map fst o.
Definition Object_values {V : Type} (o : JsObject V) : list V := map snd o.

Fixpoint obj_get {V : Type} (o : JsObject V) (k : string) : option V :=
  match o with
  | [] => None
  | (k', v) :: o' => if k' =? k then Some v else obj_get o' k
  end.

(** [{ ...a, ...b }] *)
Definition obj_spread {V : Type} (a b : JsObject V) : JsObject V :=
  fold_left (fun acc kv => obj_set acc (fst kv) (snd kv)) b a.

(** ** Data of the program *)

Inductive Network : Type := bitcoin | testnet | regtest.

(** The fields of [KeyExpression] ([./keyExpressions]) that [index.ts] reads. *)
Record KeyExpression : Type := {
  pubkey : Buffer;
  masterFingerprint : option Buffer;
  path : option string
}.

Definition ExpansionMap : Type := JsObject KeyExpression.

Record Preimage : Type := {
  digest : string;
  preimage : string
}.

(** bip174's [PartialSig]. *)
Record PartialSig : Type := {
  sig_pubkey : Buffer;
  sig_signature : Buffer
}.

(** One entry of the engine's [nonMalleableSats]. *)
Record Sat : Type := {
  asm : string;
  sat_nLockTime : option Z;
  sat_nSequence : option Z
}.

Record Constraints : Type := {
  c_nLockTime : option Z;
  c_nSequence : option Z
}.

(** bitcoinjs-lib's [Payment], with the fields the program reads or sets. *)
Record Payment : Type := {
  output : option Buffer;
  address : option string;
  redeem_output : option Buffer
}.

Inductive PaymentKind : Type := P2PK | P2PKH | P2WPKH | P2SH | P2WSH | P2TR.

(** What a [payments.*] function is called with: [{ pubkey, network }],
    [{ output, network }] or [{ redeem, network }]. *)
Inductive PaymentArg : Type :=
| FromPubkey (pk : Buffer)
| FromOutput (out : Buffer)
| FromRedeem (redeem : Payment).

(** The object literal [{ output: script, network }]. *)
Definition bare_output (script : Buffer) : Payment :=
  {| output := Some script; address := None; redeem_output := None |}.

(** An element of [bscript.decompile]'s array: an opcode number or the
    buffer of a push. *)
Inductive Chunk : Type :=
| OpCode (n : Z)
| Data (b : Buffer).

Record TxOutput : Type := {
  out_script : Buffer;
  out_value : Z
}.

Record Transaction : Type := {
  outs : list TxOutput;
  getHash : Buffer;
  toBuffer : Buffer
}.

(** A piece of a string cut by a global regular expression: text between
    matches, or a match. *)
Inductive Segment : Type :=
| Text (s : string)
| Match (s : string).

(** The anchored patterns of [./re] that the constructor matches against. *)
Inductive Pattern : Type :=
| reAddrAnchored
| reKeyExp
| rePkAnchored
| rePkhAnchored
| reShWpkhAnchored
| reWpkhAnchored
| reShWshMiniscriptAnchored
| reShMiniscriptAnchored
| reWshMiniscriptAnchored.

(** ** The Psbt the class writes to

    bitcoinjs-lib's [Psbt], reduced to what [updatePsbt] and
    [finalizePsbtInput] read and write: the transaction's locktime, the
    inputs, and for each input with which finalizer [finalizeInput] was
    called. *)

Record Bip32Derivation : Type := {
  bip_masterFingerprint : Buffer;
  bip_pubkey : Buffer;
  bip_path : string
}.

Inductive Finalizer : Type :=
| DefaultFinalizer                                  (* psbt.finalizeInput(index) *)
| SatisfactionFinalizer (s : Buffer) (n : Network). (* finalScriptsFuncFactory(s, n) *)

Record PsbtInputExtended : Type := {
  in_hash : Buffer;
  in_index : Z;
  nonWitnessUtxo : Buffer;
  witnessUtxo : option (Buffer * Z);
  in_witnessScript : option Buffer;
  bip32Derivation : option (list Bip32Derivation);
  sequence : option Z;
  partialSig : option (list PartialSig);
  finalizedWith : option Finalizer
}.

Record Psbt : Type := {
  locktime : option Z;
  inputs : list PsbtInputExtended
}.

(** ** Collaborators

    What [index.ts] imports and this repository's [src/] does not hold: the
    regular expressions of [./re], [./checksum], [./keyExpressions],
    [./numberEncodeAsm], the miniscript engine and bitcoinjs-lib. The code is
    verified for every behaviour of these. *)

Record Capabilities : Type := {
  (* ./checksum *)
  DescriptorChecksum : string -> string;
  (* ./re: [s.match(RE.x)], null or the array of the match and its groups *)
  re_match : Pattern -> string -> option (list string);
  (* ./re: the matches of [RegExp(RE.reKeyExp, 'g')], left to right *)
  reKeyExp_scan : string -> list Segment;
  (* ./keyExpressions, with ECPair and BIP32 fixed by the factory *)
  globalParseKeyExpression : string -> Network -> bool -> outcome KeyExpression;
  (* ./numberEncodeAsm, on the numbers it encodes: the safe integers *)
  numberEncodeAsm : Z -> string;
  (* @bitcoinerlab/miniscript *)
  compileMiniscript : string -> outcome (string * bool);
  satisfier : string -> list string -> outcome (option (list Sat));
  (* bitcoinjs-lib *)
  toOutputScript : string -> Network -> outcome Buffer;
  payments : PaymentKind -> PaymentArg -> Network -> outcome Payment;
  fromASM : string -> outcome Buffer;
  decompile : Buffer -> option (list Chunk);
  hash160 : Buffer -> Buffer;
  Transaction_fromHex : string -> outcome Transaction;
  (* bitcoinjs-lib's Psbt: whether [psbt.setLocktime(n)] and
     [psbt.addInput(input)] throw, on a Psbt as it stands *)
  setLocktime_rejects : Psbt -> Z -> bool;
  addInput_rejects : Psbt -> PsbtInputExtended -> bool;
  (* the runtime: a Buffer compared with a number by [>], and
     Number::toString beyond the safe integers, from 2^53 on *)
  Buffer_gt : Buffer -> Z -> bool;
  toString_beyond_safe : Z -> string
}.

(** ** Constants *)

Definition MAX_SCRIPT_ELEMENT_SIZE : nat := 520.
Definition MAX_STANDARD_P2WSH_SCRIPT_SIZE : nat := 3600.
Definition MAX_OPS_PER_SCRIPT : nat := 201.

(** [bscript.OPS['OP_16']] *)
Definition OP_16 : Z := 96.

(** ** Character classes of the regular expressions written in [index.ts] *)

Definition is_digit (c : ascii) : bool :=
  let n := nat_of_ascii c in ((48 <=? n) && (n <=? 57))%nat.

(** [\w]: a letter, a digit or the underscore. *)
Definition is_word (c : ascii) : bool :=
  let n := nat_of_ascii c in
  is_digit c
  || ((65 <=? n) && (n <=? 90))%nat
  || ((97 <=? n) && (n <=? 122))%nat
  || (n =? 95)%nat.

(** [\s] on the characters a string of this model holds: space, tab, line
    feed, vertical tab, form feed, carriage return. *)
Definition is_space (c : ascii) : bool :=
  let n := nat_of_ascii c in ((n =? 32) || ((9 <=? n) && (n <=? 13)))%nat.

(** [Number(num)] for a run of decimal digits (exactly; JavaScript rounds
    from 2^53 on, far above the numbers of a script). *)
Definition Number_of_digits (digits : list ascii) : Z :=
  fold_left (fun acc c => (10 * acc + Z.of_nat (nat_of_ascii c - 48))%Z) digits 0%Z.

(** [s.trim()] *)
Fixpoint trim_start (s : string) : string :=
  match s with
  | String c s' => if is_space c then trim_start s' else s
  | EmptyString => EmptyString
  end.

Fixpoint trim_end (s : string) : string :=
  match s with
  | EmptyString => EmptyString
  | String c s' =>
      match trim_end s' with
      | EmptyString => if is_space c then EmptyString else String c EmptyString
      | t => String c t
      end
  end.

Definition trim (s : string) : string := trim_end (trim_start s).

(** [s.replace(/\s+/g, ' ')]; [in_run] says the previous character was
    white space, already answered by one space. *)
Fixpoint collapse_spaces (in_run : bool) (s : string) : string :=
  match s with
  | EmptyString => EmptyString
  | String c s' =>
      if is_space c
      then if in_run then collapse_spaces true s' else String " " (collapse_spaces true s')
      else String c (collapse_spaces false s')
  end.

(** [s.replace(/(?<![<])\b\d+\b(?![>])/g, num => numberEncodeAsm(Number(num)))].
    A match is a run of digits with no word character and no [<] before it,
    and no word character and no [>] after it. [run] holds the digits read
    so far (last first) of the run under way and whether its left side
    qualifies. *)
Definition flush_run (encode : Z -> string) (run : option (bool * list ascii))
    (right_ok : bool) : string :=
  match run with
  | None => EmptyString
  | Some (left_ok, rev_digits) =>
      if left_ok && right_ok
      then encode (Number_of_digits (rev rev_digits))
      else string_of_list_ascii (rev rev_digits)
  end.

Fixpoint encode_numbers (encode : Z -> string) (prev : option ascii)
    (run : option (bool * list ascii)) (s : string) : string :=
  match s with
  | EmptyString => flush_run encode run true
  | String c s' =>
      if is_digit c
      then
        let run' :=
          match run with
          | Some (left_ok, ds) => Some (left_ok, c :: ds)
          | None =>
              let left_ok :=
                match prev with
                | None => true
                | Some p => negb (is_word p) && negb (Ascii.eqb p "<"%char)
                end in
              Some (left_ok, [c])
          end in
        encode_numbers encode (Some c) run' s'
      else
        flush_run encode run (negb (is_word c) && negb (Ascii.eqb c ">"%char))
          ++ String c (encode_numbers encode (Some c) None s')
  end.

(** [s.replace(/[<>]/g, '')] *)
Fixpoint strip_angles (s : string) : string :=
  match s with
  | EmptyString => EmptyString
  | String c s' =>
      if Ascii.eqb c "<"%char || Ascii.eqb c ">"%char
      then strip_angles s'
      else String c (strip_angles s')
  end.

(** ** The checksum suffix *)

(** Modelled from the spec: the constant [RE.reChecksum] of [./re], which is
    not among the sources: "[#<checksum>] where checksum is 8 characters
    from a fixed 32-symbol alphabet", the alphabet being the one of the
    Bitcoin Core descriptor specification. *)
Definition CHECKSUM_CHARSET : string := "qpzry9x8gf2tvdw0s3jn54khce6mua7l".

Definition in_charset (c : ascii) : bool :=
  existsb (Ascii.eqb c) (list_ascii_of_string CHECKSUM_CHARSET).

Definition reChecksum (s : string) : bool :=
  match s with
  | String c rest =>
      Ascii.eqb c "#"%char
      && (String.length rest =? 8)%nat
      && forallb in_charset (list_ascii_of_string rest)
  | EmptyString => false
  end.

(** [expression.match(String.raw`(${RE.reChecksum})$`)]: [null] or
    [mChecksum[0]]. The pattern has a fixed length of 9 and is anchored at
    the end, so it can only match the last 9 characters. *)
Definition match_checksum (expression : string) : option string :=
  let tail := Js.substring_from (String.length expression - 9) expression in
  if reChecksum tail then Some tail else None.

(** ** The functions of [index.ts] *)

(** An object made by a call of [parseKeyExpression]: JavaScript compares
    objects by identity, so the object carries the reference it was
    allocated at next to its fields. *)
Record Allocated (A : Type) : Type := {
  ref : nat;
  obj : A
}.
Arguments ref {A} _.
Arguments obj {A} _.

(** [new Set(values).size]: the number of distinct references. *)
Definition Set_size (refs : list nat) : nat :=
  List.length (nodup Nat.eq_dec refs).

Definition option_eqb (a b : option Z) : bool :=
  match a, b with
  | Some x, Some y => (x =? y)%Z
  | None, None => true
  | _, _ => false
  end.

Record Satisfaction : Type := {
  scriptSatisfaction : Buffer;
  nLockTime : option Z;
  nSequence : option Z
}.

Section Program.

Variable cap : Capabilities.

(** [index.toString()] *)
Definition JsNumber_toString (x : JsNumber) : string :=
  match x with
  | JsInteger z => Number_toString (toString_beyond_safe cap) z
  | JsNonInteger => "NaN" (* any non-integer; isolate has thrown before *)
  end.

Definition isolate (expression : string) (checksumRequired : bool) (index : JsNumber)
  : result string :=
  let mChecksum := match_checksum expression in
  throw_if (match mChecksum with None => checksumRequired | Some _ => false end)
  then MissingChecksum ;;
  isolatedExpression <-
    match mChecksum with
    | Some m0 =>
        let checksum := Js.substring_from 1 m0 in
        let isolatedExpression :=
          Js.substring_to (String.length expression - String.length m0) expression in
        throw_if negb (checksum =? DescriptorChecksum cap isolatedExpression)
        then BadChecksum ;;
        Ok isolatedExpression
    | None => Ok expression
    end ;;
  match Js.match_stars isolatedExpression with
  | Some mWildcard =>
      if (0 <? List.length mWildcard)%nat
      then
        throw_if negb (Number_isInteger index) || Number_ltb0 index
        then InvalidIndex ;;
        Ok (Js.replaceAll "*" (JsNumber_toString index) isolatedExpression)
      else Ok isolatedExpression
  | None => Ok isolatedExpression
  end.

(** The factory's [parseKeyExpression]; the defaults [network =
    networks.bitcoin] and [isSegwit = true] are for the caller to pass. *)
Definition parseKeyExpression (keyExpression : string) (network : Network)
    (isSegwit : bool) : result KeyExpression :=
  call (globalParseKeyExpression cap keyExpression network isSegwit).

(** [op > bscript.OPS['OP_16']] on an element of the decompiled script. *)
Definition chunk_gt_OP_16 (op : Chunk) : bool :=
  match op with
  | OpCode n => (OP_16 <? n)%Z
  | Data b => Buffer_gt cap b OP_16
  end.

Definition countNonPushOnlyOPs (script : Buffer) : result nat :=
  match decompile cap script with
  | None => Err CouldNotDecompile
  | Some chunks => Ok (List.length (filter chunk_gt_OP_16 chunks))
  end.

(** The callback of [miniscript.replace(RegExp(RE.reKeyExp, 'g'), ...)]
    run over the matches in order. [allocs] counts the objects
    [parseKeyExpression] has returned so far in this call: each call builds
    a new object, whose reference is therefore the count at that time. *)
Fixpoint expand_segments (isSegwit : bool) (network : Network)
    (segments : list Segment) (allocs : nat)
    (expansionMap : JsObject (Allocated KeyExpression))
  : result (string * JsObject (Allocated KeyExpression)) :=
  match segments with
  | [] => Ok (EmptyString, expansionMap)
  | Text t :: rest =>
      ' (tail, expansionMap') <-
        expand_segments isSegwit network rest allocs expansionMap ;;
      Ok (t ++ tail, expansionMap')
  | Match keyExpression :: rest =>
      let key := "@" ++ Js.decimal (N.of_nat (List.length (Object_keys expansionMap))) in
      parsed <- parseKeyExpression keyExpression network isSegwit ;;
      let expansionMap1 := obj_set expansionMap key {| ref := allocs; obj := parsed |} in
      ' (tail, expansionMap') <-
        expand_segments isSegwit network rest (S allocs) expansionMap1 ;;
      Ok (key ++ tail, expansionMap')
  end.

Definition expandMiniscript (miniscript : string) (isSegwit : bool) (network : Network)
  : result (string * ExpansionMap) :=
  ' (expandedMiniscript, expansionMap) <-
    expand_segments isSegwit network (reKeyExp_scan cap miniscript) 0 [] ;;
  let pubkeys := Object_values expansionMap in
  throw_if negb (Set_size (map ref pubkeys) =? List.length pubkeys)%nat
  then DuplicatePubkey ;;
  Ok (expandedMiniscript, map (fun kv => (fst kv, obj (snd kv))) expansionMap).

Definition substituteAsm (expandedAsm : string) (expansionMap : ExpansionMap)
  : result string :=
  asm <-
    fold_left
      (fun (accAsm : result string) (key : string) =>
         accAsm <- accAsm ;;
         match option_map pubkey (obj_get expansionMap key) with
         | None => Err InvalidExpansionMap
         | Some pubkey =>
             Ok (Js.replaceAll ("<HASH160(" ++ key ++ ")>")
                   ("<" ++ toHex (hash160 cap pubkey) ++ ">")
                   (Js.replaceAll ("<" ++ key ++ ">")
                      ("<" ++ toHex pubkey ++ ">") accAsm))
         end)
      (Object_keys expansionMap) (Ok expandedAsm) ;;
  Ok (strip_angles
        (encode_numbers (numberEncodeAsm cap) None None
           (collapse_spaces false (trim asm)))).

Definition miniscript2Script (miniscript : string) (isSegwit : bool) (network : Network)
  : result Buffer :=
  ' (expandedMiniscript, expansionMap) <- expandMiniscript miniscript isSegwit network ;;
  compiled <- call (compileMiniscript cap expandedMiniscript) ;;
  throw_if negb (snd compiled) then InsaneMiniscript ;;
  asm <- substituteAsm (fst compiled) expansionMap ;;
  call (fromASM cap asm).

(** The two tables of [satisfyMiniscript]. *)
Definition preimageMap_of (preimages : list Preimage) : JsObject string :=
  fold_left
    (fun m p =>
       obj_set m ("<" ++ Js.replace "(" "_preimage(" (digest p) ++ ">")
         ("<" ++ preimage p ++ ">"))
    preimages [].

Definition expandedSignatureMap_of (expansionMap : ExpansionMap)
    (signatures : list PartialSig) : JsObject string :=
  fold_left
    (fun m signature =>
       let pubkeyHex := toHex (sig_pubkey signature) in
       let keyExpression :=
         find
           (fun k =>
              match obj_get expansionMap k with
              | Some e => toHex (pubkey e) =? pubkeyHex
              | None => false
              end)
           (Object_keys expansionMap) in
       obj_set m ("<sig(" ++ Js.str_of_opt keyExpression ++ ")>")
         ("<" ++ toHex (sig_signature signature) ++ ">"))
    signatures [].

(** The [for (const search in expandedKnownsMap)] loop. *)
Definition substitute_knowns (expandedKnownsMap : JsObject string) (asm0 : string)
  : result string :=
  fold_left
    (fun (acc : result string) (kv : string * string) =>
       expandedAsm <- acc ;;
       let search := fst kv in
       let replace := snd kv in
       throw_if (replace =? "") || (replace =? "<>") then InvalidKnownsMap ;;
       Ok (Js.replaceAll search replace expandedAsm))
    expandedKnownsMap (Ok asm0).

(** [Object.keys({ ...preimageMap, ...expandedSignatureMap })] *)
Definition expandedKnownsMap_of (expansionMap : ExpansionMap)
    (signatures : list PartialSig) (preimages : list Preimage) : JsObject string :=
  obj_spread (preimageMap_of preimages)
    (expandedSignatureMap_of expansionMap signatures).

Definition knowns_of (expansionMap : ExpansionMap)
    (signatures : list PartialSig) (preimages : list Preimage) : list string :=
  Object_keys (expandedKnownsMap_of expansionMap signatures preimages).

(** The test of [nonMalleableSats.find(...)]. *)
Definition meets (c : Constraints) (nonMalleableSat : Sat) : bool :=
  option_eqb (sat_nSequence nonMalleableSat) (c_nSequence c)
  && option_eqb (sat_nLockTime nonMalleableSat) (c_nLockTime c).

(** The end of [satisfyMiniscript], from [let expandedAsm = sat.asm] on. *)
Definition materialize (expandedKnownsMap : JsObject string)
    (expansionMap : ExpansionMap) (sat : Sat) : result Satisfaction :=
  expandedAsm <- substitute_knowns expandedKnownsMap (asm sat) ;;
  asm' <- substituteAsm expandedAsm expansionMap ;;
  script <- call (fromASM cap asm') ;;
  Ok {| scriptSatisfaction := script;
        nLockTime := sat_nLockTime sat;
        nSequence := sat_nSequence sat |}.

Definition satisfyMiniscript (miniscript : string) (isSegwit : bool)
    (signatures : list PartialSig) (preimages : list Preimage)
    (constraints : option Constraints) (network : Network)
  : result Satisfaction :=
  ' (expandedMiniscript, expansionMap) <- expandMiniscript miniscript isSegwit network ;;
  let expandedKnownsMap := expandedKnownsMap_of expansionMap signatures preimages in
  let knowns := Object_keys expandedKnownsMap in
  nonMalleableSats <- call (satisfier cap expandedMiniscript knowns) ;;
  match nonMalleableSats with
  | None => Err Unresolvable           (* !Array.isArray(nonMalleableSats) *)
  | Some [] => Err Unresolvable        (* !nonMalleableSats[0] *)
  | Some (first :: others) =>
      sat <-
        match constraints with
        | None => Ok first
        | Some c =>
            match find (meets c) (first :: others) with
            | Some sat => Ok sat
            | None => Err ConstraintsUnmet
            end
        end ;;
      materialize expandedKnownsMap expansionMap sat
  end.

End Program.

(** ** The calls on the Psbt

    [psbt.setLocktime(n)] and [psbt.addInput(input)] throw when the library
    refuses the call, and otherwise set the locktime and append the
    input. *)

Definition setLocktime (cap : Capabilities) (psbt : Psbt) (n : Z) : outcome Psbt :=
  if setLocktime_rejects cap psbt n then Thrown "Psbt.setLocktime"
  else Returned {| locktime := Some n; inputs := inputs psbt |}.

Definition addInput (cap : Capabilities) (psbt : Psbt) (input : PsbtInputExtended)
  : outcome Psbt :=
  if addInput_rejects cap psbt input then Thrown "Psbt.addInput"
  else Returned {| locktime := locktime psbt; inputs := (inputs psbt ++ [input])%list |}.

Definition set_finalizer (f : Finalizer) (i : PsbtInputExtended) : PsbtInputExtended :=
  {| in_hash := in_hash i; in_index := in_index i; nonWitnessUtxo := nonWitnessUtxo i;
     witnessUtxo := witnessUtxo i; in_witnessScript := in_witnessScript i;
     bip32Derivation := bip32Derivation i; sequence := sequence i;
     partialSig := partialSig i; finalizedWith := Some f |}.

Fixpoint update_nth {A : Type} (n : nat) (f : A -> A) (l : list A) : list A :=
  match l, n with
  | [], _ => []
  | x :: l', O => f x :: l'
  | x :: l', S n' => x :: update_nth n' f l'
  end.

(** [array[i]] for a number [i]: [undefined] outside the array. *)
Definition array_get {A : Type} (l : list A) (i : Z) : option A :=
  if (i <? 0)%Z then None else nth_error l (Z.to_nat i).

(** [psbt.finalizeInput(index, f)], as a record of the call: the input keeps
    the finalizer it was called with. What else the library does to a
    finalized input, and the inputs it refuses, are not followed here: the
    class reads nothing of the Psbt after this call. *)
Definition finalizeInput (psbt : Psbt) (index : Z) (f : Finalizer) : result Psbt :=
  match array_get (inputs psbt) index with
  | None => Err (External "finalizeInput")
  | Some _ =>
      Ok {| locktime := locktime psbt;
            inputs := update_nth (Z.to_nat index) (set_finalizer f) (inputs psbt) |}
  end.

(** A [Buffer] is an object, and every object is truthy. *)
Definition Buffer_truthy (b : Buffer) : bool := true.

(** [list.map(f)] with a callback that may throw. *)
Fixpoint mapM {A B : Type} (f : A -> result B) (l : list A) : result (list B) :=
  match l with
  | [] => Ok []
  | x :: l' => y <- f x ;; ys <- mapM f l' ;; Ok (y :: ys)
  end.

(** ** The [Descriptor] class *)

Module Descriptor.

(** The private fields. *)
Record t : Type := {
  d_payment : Payment;
  d_preimages : list Preimage;
  d_miniscript : option string;
  d_witnessScript : option Buffer;
  d_isSegwit : option bool;
  d_expandedExpression : option string;
  d_expandedMiniscript : option string;
  d_expansionMap : option ExpansionMap;
  d_network : Network;
  d_nLockTime : option Z;
  d_nSequence : option Z
}.

(** The constructor's parameter object. The defaults ([checksumRequired =
    false], [allowMiniscriptInP2SH = false], [network = networks.bitcoin],
    [preimages = []]) are [default_params]; [signersKeyExpressions] may be
    left [undefined]. *)
Record Params : Type := {
  expression : string;
  index : JsNumber;
  checksumRequired : bool;
  allowMiniscriptInP2SH : bool;
  network : Network;
  preimages : list Preimage;
  signersKeyExpressions : option (list string)
}.

Definition default_params (expression : string) (index : JsNumber) : Params :=
  {| expression := expression; index := index; checksumRequired := false;
     allowMiniscriptInP2SH := false; network := bitcoin; preimages := [];
     signersKeyExpressions := None |}.

(** The test of the [sh(miniscript)] branch:
    [miniscript.search(/^(pk\(|pkh\(|wpkh\(|combo\(|multi\(|sortedmulti\(|multi_a\(|sortedmulti_a\()/)],
    which is 0 on a match and -1 otherwise. *)
Definition template_keywords : list string :=
  ["pk("; "pkh("; "wpkh("; "combo("; "multi("; "sortedmulti("; "multi_a(";
   "sortedmulti_a("].

Definition search_template (miniscript : string) : Z :=
  if existsb (fun kw => String.prefix kw miniscript) template_keywords
  then 0%Z else (-1)%Z.

(** The branch of the constructor's [if ... else if ...] chain an isolated
    expression takes. *)
Inductive Shape : Type :=
| AddrShape      (* addr(ADDR) *)
| PkShape        (* pk(KEY) *)
| PkhShape       (* pkh(KEY) *)
| ShWpkhShape    (* sh(wpkh(KEY)) *)
| WpkhShape      (* wpkh(KEY) *)
| ShWshShape     (* sh(wsh(miniscript)) *)
| ShShape        (* sh(miniscript) *)
| WshShape       (* wsh(miniscript) *)
| NoShape.       (* Could not parse descriptor *)

Definition has_miniscript (s : Shape) : bool :=
  match s with
  | ShWshShape | ShShape | WshShape => true
  | _ => false
  end.

(** What [expand()] returns. *)
Record Expansion : Type := {
  x_expandedExpression : option string;
  x_miniscript : option string;
  x_expandedMiniscript : option string;
  x_expansionMap : option ExpansionMap
}.

Section Class.

Variable cap : Capabilities.

(** The fields as a branch of the constructor leaves them, [#nLockTime]
    and [#nSequence] still unset. *)
Definition fields (this_network : Network) (this_preimages : list Preimage)
    (payment : Payment) (miniscript : option string) (witnessScript : option Buffer)
    (isSegwit : option bool) (expandedExpression expandedMiniscript : option string)
    (expansionMap : option ExpansionMap) : t :=
  {| d_payment := payment; d_preimages := this_preimages;
     d_miniscript := miniscript; d_witnessScript := witnessScript;
     d_isSegwit := isSegwit; d_expandedExpression := expandedExpression;
     d_expandedMiniscript := expandedMiniscript; d_expansionMap := expansionMap;
     d_network := this_network; d_nLockTime := None; d_nSequence := None |}.

(** [addr(ADDR)]: each [try { payment = payments.x({ output, network }) }
    catch (e) {}] keeps the earlier payment when the call throws. *)
Definition try_payment (kind : PaymentKind) (out : Buffer) (network : Network)
    (payment : option Payment) : option Payment :=
  match payments cap kind (FromOutput out) network with
  | Returned p => Some p
  | Thrown _ => payment
  end.

Definition addr_branch (p : Params) (matchedAddress : string) : result t :=
  match toOutputScript cap matchedAddress (network p) with
  | Thrown _ => Err InvalidAddress
  | Returned out =>
      let payment := try_payment P2PKH out (network p) None in
      let payment := try_payment P2SH out (network p) payment in
      let payment := try_payment P2WPKH out (network p) payment in
      let payment := try_payment P2WSH out (network p) payment in
      let payment := try_payment P2TR out (network p) payment in
      match payment with
      | None => Err InvalidAddress
      | Some payment =>
          Ok (fields (network p) (preimages p) payment None None None None None None)
      end
  end.

(** [pk(KEY)], [pkh(KEY)], [sh(wpkh(KEY))], [wpkh(KEY)]: the four branches
    differ in the rendering compared with the input, in [#isSegwit], in
    [#expandedExpression] and in the payment built from the pubkey. *)
Definition key_branch (p : Params) (isolatedExpression : string)
    (keyExpression : option string) (render : string -> string) (isSegwit : bool)
    (expandedExpression : string) (pay : Buffer -> result Payment) : result t :=
  throw_if negb (isolatedExpression =? render (Js.str_of_opt keyExpression))
  then InvalidExpression ;;
  match keyExpression with
  | None => Err KeyExpressionNotExtracted
  | Some keyExpression =>
      throw_if (keyExpression =? "") then KeyExpressionNotExtracted ;;
      parsed <- parseKeyExpression cap keyExpression (network p) isSegwit ;;
      let expansionMap := [("@0", parsed)] in
      payment <- pay (pubkey parsed) ;;
      Ok (fields (network p) (preimages p) payment None None (Some isSegwit)
            (Some expandedExpression) None (Some expansionMap))
  end.

(** The checks on the compiled script shared by the three miniscript
    branches; [max_size] is [MAX_STANDARD_P2WSH_SCRIPT_SIZE] or
    [MAX_SCRIPT_ELEMENT_SIZE]. *)
Definition gate (script : Buffer) (max_size : nat) : result unit :=
  throw_if (max_size <? List.length script)%nat then ScriptTooLarge ;;
  nonPushOnlyOps <- countNonPushOnlyOPs cap script ;;
  throw_if (MAX_OPS_PER_SCRIPT <? nonPushOnlyOps)%nat then TooManyOps ;;
  Ok tt.

(** [sh(wsh(miniscript))] *)
Definition sh_wsh_branch (p : Params) (miniscript : option string) : result t :=
  throw_if negb (Js.truthy miniscript) then MiniscriptNotExtracted ;;
  let miniscript := Js.str_of_opt miniscript in
  let isSegwit := true in
  ' (expandedMiniscript, expansionMap) <-
    expandMiniscript cap miniscript isSegwit (network p) ;;
  let expandedExpression := "sh(wsh(" ++ expandedMiniscript ++ "))" in
  script <- miniscript2Script cap miniscript true (network p) ;;
  _ <- gate script MAX_STANDARD_P2WSH_SCRIPT_SIZE ;;
  inner <- call (payments cap P2WSH (FromRedeem (bare_output script)) (network p)) ;;
  payment <- call (payments cap P2SH (FromRedeem inner) (network p)) ;;
  Ok (fields (network p) (preimages p) payment (Some miniscript) (Some script)
        (Some isSegwit) (Some expandedExpression) (Some expandedMiniscript)
        (Some expansionMap)).

(** [sh(miniscript)] *)
Definition sh_branch (p : Params) (miniscript : option string) : result t :=
  throw_if negb (Js.truthy miniscript) then MiniscriptNotExtracted ;;
  let miniscript := Js.str_of_opt miniscript in
  throw_if negb (allowMiniscriptInP2SH p) && negb (search_template miniscript =? 0)%Z
  then MiniscriptInP2SHDisallowed ;;
  let isSegwit := false in
  ' (expandedMiniscript, expansionMap) <-
    expandMiniscript cap miniscript isSegwit (network p) ;;
  let expandedExpression := "sh(" ++ expandedMiniscript ++ ")" in
  script <- miniscript2Script cap miniscript false (network p) ;;
  _ <- gate script MAX_SCRIPT_ELEMENT_SIZE ;;
  payment <- call (payments cap P2SH (FromRedeem (bare_output script)) (network p)) ;;
  Ok (fields (network p) (preimages p) payment (Some miniscript) None
        (Some isSegwit) (Some expandedExpression) (Some expandedMiniscript)
        (Some expansionMap)).

(** [wsh(miniscript)] *)
Definition wsh_branch (p : Params) (miniscript : option string) : result t :=
  throw_if negb (Js.truthy miniscript) then MiniscriptNotExtracted ;;
  let miniscript := Js.str_of_opt miniscript in
  let isSegwit := true in
  ' (expandedMiniscript, expansionMap) <-
    expandMiniscript cap miniscript isSegwit (network p) ;;
  let expandedExpression := "wsh(" ++ expandedMiniscript ++ ")" in
  script <- miniscript2Script cap miniscript true (network p) ;;
  _ <- gate script MAX_STANDARD_P2WSH_SCRIPT_SIZE ;;
  payment <- call (payments cap P2WSH (FromRedeem (bare_output script)) (network p)) ;;
  Ok (fields (network p) (preimages p) payment (Some miniscript) (Some script)
        (Some isSegwit) (Some expandedExpression) (Some expandedMiniscript)
        (Some expansionMap)).

(** [s.match(RE.x)?.[i]] *)
Definition group (pat : Pattern) (i : nat) (s : string) : option string :=
  match re_match cap pat s with
  | Some groups => nth_error groups i
  | None => None
  end.

Definition matches (pat : Pattern) (s : string) : bool :=
  match re_match cap pat s with
  | Some _ => true
  | None => false
  end.

(** The chain of [if ... else if ...] over the descriptor forms: the
    conditions, first match first, then the bodies. *)
Definition shape_of (isolatedExpression : string) : Shape :=
  if Js.truthy (group reAddrAnchored 1 isolatedExpression) then AddrShape
  else if matches rePkAnchored isolatedExpression then PkShape
  else if matches rePkhAnchored isolatedExpression then PkhShape
  else if matches reShWpkhAnchored isolatedExpression then ShWpkhShape
  else if matches reWpkhAnchored isolatedExpression then WpkhShape
  else if matches reShWshMiniscriptAnchored isolatedExpression then ShWshShape
  else if matches reShMiniscriptAnchored isolatedExpression then ShShape
  else if matches reWshMiniscriptAnchored isolatedExpression then WshShape
  else NoShape.

Definition dispatch (p : Params) (isolatedExpression : string) : result t :=
  let matchedAddress := group reAddrAnchored 1 isolatedExpression in
  let keyExpression := group reKeyExp 0 isolatedExpression in
  let net := network p in
  match shape_of isolatedExpression with
  | AddrShape => addr_branch p (Js.str_of_opt matchedAddress)
  | PkShape =>
      key_branch p isolatedExpression keyExpression
        (fun k => "pk(" ++ k ++ ")") false "pk(@0)"
        (fun pubkey => call (payments cap P2PK (FromPubkey pubkey) net))
  | PkhShape =>
      key_branch p isolatedExpression keyExpression
        (fun k => "pkh(" ++ k ++ ")") false "pkh(@0)"
        (fun pubkey => call (payments cap P2PKH (FromPubkey pubkey) net))
  | ShWpkhShape =>
      key_branch p isolatedExpression keyExpression
        (fun k => "sh(wpkh(" ++ k ++ "))") true "sh(wpkh(@0))"
        (fun pubkey =>
           redeem <- call (payments cap P2WPKH (FromPubkey pubkey) net) ;;
           call (payments cap P2SH (FromRedeem redeem) net))
  | WpkhShape =>
      key_branch p isolatedExpression keyExpression
        (fun k => "wpkh(" ++ k ++ ")") true "wpkh(@0)"
        (fun pubkey => call (payments cap P2WPKH (FromPubkey pubkey) net))
  | ShWshShape =>
      sh_wsh_branch p (group reShWshMiniscriptAnchored 1 isolatedExpression)
  | ShShape => sh_branch p (group reShMiniscriptAnchored 1 isolatedExpression)
  | WshShape => wsh_branch p (group reWshMiniscriptAnchored 1 isolatedExpression)
  | NoShape => Err CouldNotParse
  end.

(** The fake signatures of the probe: one per signer, 64 zero bytes each. *)
Definition fakeSignatures_of (net : Network) (isSegwit : bool)
    (signersKeyExpressions : list string) : result (list PartialSig) :=
  mapM
    (fun keyExpression =>
       parsed <- parseKeyExpression cap keyExpression net isSegwit ;;
       Ok {| sig_pubkey := pubkey parsed; sig_signature := Buffer_alloc0 64 |})
    signersKeyExpressions.

(** The signers of the probe: [signersKeyExpressions] when given, else the
    pubkeys of a new expansion of the miniscript, in hex. *)
Definition signers_of (p : Params) (miniscript : string) (isSegwit : bool)
  : result (list string) :=
  match signersKeyExpressions p with
  | Some given => Ok given
  | None =>
      ' (_, expansionMap) <-
        expandMiniscript cap miniscript isSegwit (network p) ;;
      Ok (map (fun keyExpression => toHex (pubkey keyExpression))
            (Object_values expansionMap))
  end.

(** [this.#nLockTime = nLockTime; this.#nSequence = nSequence] *)
Definition set_constraints (this : t) (sat : Satisfaction) : t :=
  {| d_payment := d_payment this; d_preimages := d_preimages this;
     d_miniscript := d_miniscript this;
     d_witnessScript := d_witnessScript this;
     d_isSegwit := d_isSegwit this;
     d_expandedExpression := d_expandedExpression this;
     d_expandedMiniscript := d_expandedMiniscript this;
     d_expansionMap := d_expansionMap this;
     d_network := d_network this;
     d_nLockTime := nLockTime sat; d_nSequence := nSequence sat |}.

(** The block [if (this.#miniscript) { ... }] that ends the constructor. *)
Definition probe (p : Params) (this : t) : result t :=
  if Js.truthy (d_miniscript this)
  then
    let miniscript := Js.str_of_opt (d_miniscript this) in
    match d_isSegwit this with
    | None => Err SegwitUndetermined
    | Some isSegwit =>
        signers <- signers_of p miniscript isSegwit ;;
        fakeSignatures <- fakeSignatures_of (network p) isSegwit signers ;;
        sat <-
          satisfyMiniscript cap miniscript isSegwit fakeSignatures (preimages p)
            None (network p) ;;
        Ok (set_constraints this sat)
    end
  else Ok this.

(** [new Descriptor({ expression, index, ... })]. [expression] is a string
    by its type, so the [typeof] check cannot throw. *)
Definition constructor (p : Params) : result t :=
  isolatedExpression <- isolate cap (expression p) (checksumRequired p) (index p) ;;
  this <- dispatch p isolatedExpression ;;
  probe p this.

Definition getPayment (this : t) : Payment := d_payment this.

Definition getAddress (this : t) : result string :=
  if Js.truthy (address (d_payment this))
  then Ok (Js.str_of_opt (address (d_payment this)))
  else Err NoAddress.

Definition getScriptPubKey (this : t) : result Buffer :=
  match output (d_payment this) with
  | Some out => Ok out
  | None => Err NoOutputScript
  end.

Definition getScriptSatisfaction (this : t) (signatures : list PartialSig)
  : result Buffer :=
  throw_if negb (Js.truthy (d_miniscript this)) then NoMiniscript ;;
  match d_isSegwit this with
  | None => Err SegwitUndetermined
  | Some isSegwit =>
      sat <-
        satisfyMiniscript cap (Js.str_of_opt (d_miniscript this)) isSegwit
          signatures (d_preimages this)
          (Some {| c_nLockTime := d_nLockTime this;
                   c_nSequence := d_nSequence this |})
          (d_network this) ;;
      let satisfaction := scriptSatisfaction sat in
      throw_if negb (Buffer_truthy satisfaction) then NoSatisfaction ;;
      Ok satisfaction
  end.

Definition getSequence (this : t) : option Z := d_nSequence this.
Definition getLockTime (this : t) : option Z := d_nLockTime this.
Definition getWitnessScript (this : t) : option Buffer := d_witnessScript this.
Definition getRedeemcript (this : t) : option Buffer := redeem_output (d_payment this).
Definition isSegwit (this : t) : option bool := d_isSegwit this.

(** The [filter] and [map] that build [bip32Derivation]. *)
Definition bip32Derivation_of (expansionMap : ExpansionMap) : list Bip32Derivation :=
  flat_map
    (fun keyExpression =>
       match masterFingerprint keyExpression, path keyExpression with
       | Some fp, Some pth =>
           if pth =? "" then []
           else [{| bip_masterFingerprint := fp;
                    bip_pubkey := pubkey keyExpression;
                    bip_path := pth |}]
       | _, _ => []
       end)
    (Object_values expansionMap).

(** [updatePsbt(txHex, vout, psbt)]: the index returned, and the Psbt as
    the call leaves it. *)
Definition updatePsbt (this : t) (txHex : string) (vout : Z) (psbt : Psbt)
  : result (Z * Psbt) :=
  tx <- call (Transaction_fromHex cap txHex) ;;
  match array_get (outs tx) vout with
  | None => Err NoSuchOutput
  | Some out =>
      psbt1 <-
        match d_nLockTime this with
        | Some lockTime =>
            throw_if
              (match locktime psbt with
               | Some l => negb (l =? 0)%Z
               | None => false
               end)
            then LocktimeConflict ;;
            call (setLocktime cap psbt lockTime)
        | None => Ok psbt
        end ;;
      let inputSequence :=
        match d_nSequence this with
        | Some s => Some s
        | None =>
            match d_nLockTime this with
            | Some _ => Some 4294967294%Z (* 0xfffffffe *)
            | None => None
            end
        end in
      let bip32 :=
        match d_expansionMap this with
        | Some expansionMap =>
            match bip32Derivation_of expansionMap with
            | [] => None
            | l => Some l
            end
        | None => None
        end in
      witness <-
        match isSegwit this with
        | Some true =>
            script <- getScriptPubKey this ;;
            Ok (Some (script, out_value out))
        | _ => Ok None
        end ;;
      let input :=
        {| in_hash := getHash tx; in_index := vout; nonWitnessUtxo := toBuffer tx;
           witnessUtxo := witness; in_witnessScript := d_witnessScript this;
           bip32Derivation := bip32; sequence := inputSequence;
           partialSig := None; finalizedWith := None |} in
      psbt2 <- call (addInput cap psbt1 input) ;;
      Ok ((Z.of_nat (List.length (inputs psbt2)) - 1)%Z, psbt2)
  end.

Definition finalizePsbtInput (this : t) (index : Z) (psbt : Psbt) : result Psbt :=
  let signatures :=
    match array_get (inputs psbt) index with
    | Some input => partialSig input
    | None => None
    end in
  match signatures with
  | None => Err NoSignatures
  | Some signatures =>
      scriptSatisfaction <- getScriptSatisfaction this signatures ;;
      if negb (Buffer_truthy scriptSatisfaction)
      then finalizeInput psbt index DefaultFinalizer
      else finalizeInput psbt index
             (SatisfactionFinalizer scriptSatisfaction (d_network this))
  end.

(** [expand()] *)
Definition expand (this : t) : Expansion :=
  {| x_expandedExpression := d_expandedExpression this;
     x_miniscript := d_miniscript this;
     x_expandedMiniscript := d_expandedMiniscript this;
     x_expansionMap := d_expansionMap this |}.

(** [static checksum(expression)] *)
Definition checksum (expression : string) : string :=
  DescriptorChecksum cap expression.

End Class.

(** The same parameters with other preimages, and the same descriptor with
    other preimages: what the constructor would be called with, and would
    store, had the caller passed [preimages]. *)
Definition with_preimages (p : Params) (preimages : list Preimage) : Params :=
  {| expression := expression p; index := index p;
     checksumRequired := checksumRequired p;
     allowMiniscriptInP2SH := allowMiniscriptInP2SH p; network := network p;
     preimages := preimages; signersKeyExpressions := signersKeyExpressions p |}.

(** The same parameters with another expression, index and
    [checksumRequired]: the three that [isolate] reads. *)
Definition with_expression (p : Params) (expression : string) (index : JsNumber)
    (checksumRequired : bool) : Params :=
  {| expression := expression; index := index;
     checksumRequired := checksumRequired;
     allowMiniscriptInP2SH := allowMiniscriptInP2SH p; network := network p;
     preimages := preimages p; signersKeyExpressions := signersKeyExpressions p |}.

Definition set_preimages (this : t) (preimages : list Preimage) : t :=
  {| d_payment := d_payment this; d_preimages := preimages;
     d_miniscript := d_miniscript this;
     d_witnessScript := d_witnessScript this;
     d_isSegwit := d_isSegwit this;
     d_expandedExpression := d_expandedExpression this;
     d_expandedMiniscript := d_expandedMiniscript this;
     d_expansionMap := d_expansionMap this;
     d_network := d_network this;
     d_nLockTime := d_nLockTime this; d_nSequence := d_nSequence this |}.

End Descriptor.

(** ** Wildcards, in the words of the specification *)

Definition has_star (s : string) : bool :=
  existsb Js.is_star (list_ascii_of_string s).

(** [s.split('*')]: the pieces between the wildcards, the first one apart. *)
Fixpoint split_star_parts (s : string) : string * list string :=
  match s with
  | EmptyString => (EmptyString, [])
  | String c s' =>
      let (piece, pieces) := split_star_parts s' in
      if Js.is_star c then (EmptyString, piece :: pieces)
      else (String c piece, pieces)
  end.

Definition split_star (s : string) : list string :=
  let (piece, pieces) := split_star_parts s in piece :: pieces.

(** The expression ends with the suffix [#c], [c] being 8 characters of the
    checksum alphabet, and [prefix] is what stands before it. *)
Definition checksum_suffix (expression prefix c : string) : Prop :=
  expression = prefix ++ String "#" c
  /\ String.length c = 8
  /\ forallb in_charset (list_ascii_of_string c) = true.

Definition nonneg_integer (x : JsNumber) : bool :=
  match x with
  | JsInteger z => (0 <=? z)%Z
  | JsNonInteger => false
  end.

(** [body] is what [isolate] goes on with once the checksum is dealt with:
    the prefix of a suffix that checked out, or the whole expression when
    there is no suffix and none is required. *)
Definition checksum_cleared (cap : Capabilities) (expression : string)
    (checksumRequired : bool) (body : string) : Prop :=
  (exists c, checksum_suffix expression body c /\ c = DescriptorChecksum cap body)
  \/ ((forall prefix c, ~ checksum_suffix expression prefix c)
      /\ checksumRequired = false /\ body = expression).

(** The second half of [isolate]: what it does with the expression once
    the checksum is off. *)
Definition particularize (cap : Capabilities) (index : JsNumber)
    (isolatedExpression : string) : result string :=
  match Js.match_stars isolatedExpression with
  | Some mWildcard =>
      if (0 <? List.length mWildcard)%nat
      then
        throw_if negb (Number_isInteger index) || Number_ltb0 index
        then InvalidIndex ;;
        Ok (Js.replaceAll "*" (JsNumber_toString cap index) isolatedExpression)
      else Ok isolatedExpression
  | None => Ok isolatedExpression
  end.

(** ** The opcode count, in the words of the specification *)

(** A non-push opcode: an opcode greater than [OP_16]. *)
Definition is_non_push_op (c : Chunk) : bool :=
  match c with
  | OpCode n => (OP_16 <? n)%Z
  | Data _ => false
  end.

Definition non_push_ops (chunks : list Chunk) : nat :=
  List.length (filter is_non_push_op chunks).

(** ** Preimages, in the words of the specification *)

(** "[digest] is a textual hash call like [sha256(<hex>)] / [hash256(<hex>)]
    / [ripemd160(<hex>)] / [hash160(<hex>)]", with "64 chars for
    sha256/hash256, 40 for ripemd160/hash160". *)
Definition hash_functions : list (string * nat) :=
  [("sha256", 64); ("hash256", 64); ("ripemd160", 40); ("hash160", 40)].

Definition digest_well_formed (digest : string) : bool :=
  existsb
    (fun fn =>
       match Js.unwrap (fst fn ++ "(") ")" digest with
       | Some payload =>
           (String.length payload =? snd fn)%nat
           && forallb is_hex (list_ascii_of_string payload)
       | None => false
       end)
    hash_functions.

(** "... and [preimage] is 32-byte hex." *)
Definition preimage_well_formed (p : Preimage) : bool :=
  digest_well_formed (digest p)
  && (String.length (preimage p) =? 64)%nat
  && forallb is_hex (list_ascii_of_string (preimage p)).

(** ** Notions the statements use *)

(** The references held by an expansion map under construction. *)
Definition refs_of (m : JsObject (Allocated KeyExpression)) : list nat :=
  map ref (Object_values m).

(** [x] is the first element of [l] that passes [test]. *)
Definition first_such {A : Type} (test : A -> bool) (l : list A) (x : A) : Prop :=
  exists before after,
    l = (before ++ x :: after)%list
    /\ test x = true
    /\ Forall (fun y => test y = false) before.

(** What a miniscript branch of the constructor has done when it returns;
    [limit] is the size limit of the branch. *)
Record Built (cap : Capabilities) (p : Descriptor.Params) (isSegwit : bool)
    (limit : nat) (this : Descriptor.t) (miniscript : string) (script : Buffer)
  : Prop := {
  built_miniscript :
    Descriptor.d_miniscript this = Some miniscript /\ miniscript <> "";
  built_isSegwit : Descriptor.d_isSegwit this = Some isSegwit;
  built_script :
    miniscript2Script cap miniscript isSegwit (Descriptor.network p) = Ok script;
  built_size : List.length script <= limit;
  built_ops :
    exists n, countNonPushOnlyOPs cap script = Ok n /\ n <= MAX_OPS_PER_SCRIPT;
  built_witness :
    Descriptor.d_witnessScript this = if isSegwit then Some script else None;
  built_preimages : Descriptor.d_preimages this = Descriptor.preimages p;
  built_unset :
    Descriptor.d_nLockTime this = None /\ Descriptor.d_nSequence this = None
}.

(** ** The forms of a descriptor *)

(** The payments the [addr(ADDR)] branch tries, in its order. *)
Definition address_kinds : list PaymentKind := [P2PKH; P2SH; P2WPKH; P2WSH; P2TR].

(** The four key-only forms: what stands before and after the key
    expression, [#isSegwit] and [#expandedExpression]. *)
Definition key_only (s : Descriptor.Shape) : option (string * string * bool * string) :=
  match s with
  | Descriptor.PkShape => Some ("pk(", ")", false, "pk(@0)")
  | Descriptor.PkhShape => Some ("pkh(", ")", false, "pkh(@0)")
  | Descriptor.ShWpkhShape => Some ("sh(wpkh(", "))", true, "sh(wpkh(@0))")
  | Descriptor.WpkhShape => Some ("wpkh(", ")", true, "wpkh(@0)")
  | _ => None
  end.

(** The three miniscript forms: the pattern whose first group is the
    miniscript, what is written around the expanded miniscript, and
    [#isSegwit]. *)
Definition with_miniscript (s : Descriptor.Shape)
  : option (Pattern * string * string * bool) :=
  match s with
  | Descriptor.ShWshShape => Some (reShWshMiniscriptAnchored, "sh(wsh(", "))", true)
  | Descriptor.ShShape => Some (reShMiniscriptAnchored, "sh(", ")", false)
  | Descriptor.WshShape => Some (reWshMiniscriptAnchored, "wsh(", ")", true)
  | _ => None
  end.

(** The errors of its own the constructor throws. *)
Definition constructor_throws : list Error :=
  [MissingChecksum; BadChecksum; InvalidIndex; InvalidAddress; InvalidExpression;
   KeyExpressionNotExtracted; MiniscriptNotExtracted; MiniscriptInP2SHDisallowed;
   InsaneMiniscript; ScriptTooLarge; CouldNotDecompile; TooManyOps; CouldNotParse;
   Unresolvable; InvalidKnownsMap].

(** ** The variables of an expansion *)

(** The key expressions among the pieces of a miniscript, in order. *)
Definition key_expressions (segments : list Segment) : list string :=
  flat_map (fun s => match s with Match k => [k] | Text _ => [] end) segments.

(** ['@' + i] *)
Definition variable (i : nat) : string := "@" ++ Js.decimal (N.of_nat i).

(** [@from], [@from+1], ..., [count] of them. *)
Definition variables (from count : nat) : list string :=
  map variable (seq from count).

(** The pieces put together again, the key expressions numbered from
    [from] on and written as variables. *)
Fixpoint numbered (segments : list Segment) (from : nat) : string :=
  match segments with
  | [] => EmptyString
  | Text t :: rest => t ++ numbered rest from
  | Match _ :: rest => variable from ++ numbered rest (S from)
  end.

(** ** The ASM of the engine, token by token *)

(** One step of the [reduce] of [substituteAsm] for a key the map holds. *)
Definition substituted_key (cap : Capabilities) (expansionMap : ExpansionMap)
    (accAsm key : string) : string :=
  match obj_get expansionMap key with
  | Some e =>
      Js.replaceAll ("<HASH160(" ++ key ++ ")>")
        ("<" ++ toHex (hash160 cap (pubkey e)) ++ ">")
        (Js.replaceAll ("<" ++ key ++ ">") ("<" ++ toHex (pubkey e) ++ ">") accAsm)
  | None => accAsm
  end.

(** The tokens of an expanded ASM: opcode names and numbers, pushes of hex
    between [<] and [>], and the two forms a key variable is referred to. *)
Inductive AsmToken : Type :=
| Plain (word : string)        (* OP_CHECKSIG, 144 *)
| Push (hex : string)          (* <3045...> *)
| KeyVar (key : string)        (* <@0> *)
| KeyHashVar (key : string).   (* <HASH160(@0)> *)

Definition written (t : AsmToken) : string :=
  match t with
  | Plain word => word
  | Push hex => "<" ++ hex ++ ">"
  | KeyVar key => "<" ++ key ++ ">"
  | KeyHashVar key => "<HASH160(" ++ key ++ ")>"
  end.

Definition all_digits (s : string) : bool :=
  forallb is_digit (list_ascii_of_string s).

Definition all_word (s : string) : bool :=
  forallb is_word (list_ascii_of_string s).

(** What one step of the [reduce] does to a token: the two forms of the
    key of this step become pushes. *)
Definition resolve_key (cap : Capabilities) (expansionMap : ExpansionMap)
    (key : string) (t : AsmToken) : AsmToken :=
  match obj_get expansionMap key, t with
  | Some e, KeyVar k => if k =? key then Push (toHex (pubkey e)) else t
  | Some e, KeyHashVar k =>
      if k =? key then Push (toHex (hash160 cap (pubkey e))) else t
  | _, _ => t
  end.

(** A token of a well-formed ASM over an expansion map: a word is not
    empty and made of letters, digits and underscores, and when it is a
    number it is one JavaScript holds exactly; a push holds such
    characters; a key variable is one of the map. *)
Definition well_formed (expansionMap : ExpansionMap) (t : AsmToken) : Prop :=
  match t with
  | Plain word =>
      word <> EmptyString /\ all_word word = true
      /\ (all_digits word = true ->
          (Number_of_digits (list_ascii_of_string word) < 2 ^ 53)%Z)
  | Push hex => all_word hex = true
  | KeyVar key | KeyHashVar key => In key (Object_keys expansionMap)
  end.

(** What a token comes to in the ASM handed to [fromASM]. *)
Definition assembled (cap : Capabilities) (expansionMap : ExpansionMap)
    (t : AsmToken) : string :=
  match t with
  | Plain word =>
      if all_digits word
      then strip_angles
             (numberEncodeAsm cap (Number_of_digits (list_ascii_of_string word)))
      else word
  | Push hex => hex
  | KeyVar key =>
      match obj_get expansionMap key with
      | Some e => toHex (pubkey e)
      | None => EmptyString
      end
  | KeyHashVar key =>
      match obj_get expansionMap key with
      | Some e => toHex (hash160 cap (pubkey e))
      | None => EmptyString
      end
  end.

(** The tokens of a satisfaction: those of an ASM, and the placeholders
    of the knowns, [<sig(@0)>] or [<sha256_preimage(6c...)>]. *)
Inductive SatToken : Type :=
| Token (t : AsmToken)
| Known (body : string).

Definition written_sat (t : SatToken) : string :=
  match t with
  | Token t => written t
  | Known body => "<" ++ body ++ ">"
  end.

(** A placeholder is one of the knowns table. *)
Definition sat_well_formed (expansionMap : ExpansionMap) (table : JsObject string)
    (t : SatToken) : Prop :=
  match t with
  | Token t => well_formed expansionMap t
  | Known body => In ("<" ++ body ++ ">") (Object_keys table)
  end.

(** What a token of a satisfaction comes to: a placeholder, to what the
    knowns table holds for it, without the brackets. *)
Definition sat_assembled (cap : Capabilities) (expansionMap : ExpansionMap)
    (table : JsObject string) (t : SatToken) : string :=
  match t with
  | Token t => assembled cap expansionMap t
  | Known body =>
      match obj_get table ("<" ++ body ++ ">") with
      | Some replace => strip_angles replace
      | None => EmptyString
      end
  end.

(** A preimage the substitution is meant for: the digest reads
    [fn(payload)], [fn] a word and the payload without [<] and [>]; the
    preimage is a word (hex) and not empty. *)
Definition usable (p : Preimage) : Prop :=
  preimage p <> EmptyString
  /\ all_word (preimage p) = true
  /\ exists fn payload,
       digest p = fn ++ "(" ++ payload
       /\ all_word fn = true
       /\ ~ In "<"%char (list_ascii_of_string payload)
       /\ ~ In ">"%char (list_ascii_of_string payload).

(** [f] fails on an element of [l] and on none before it; [e] is what it
    throws there. *)
Definition first_failing {A B : Type} (f : A -> result B) (l : list A) (e : Error)
  : Prop :=
  exists before x after,
    l = (before ++ x :: after)%list
    /\ Forall (fun y => succeeded (f y) = true) before
    /\ f x = Err e.

(** Reading a successful run backwards, one bind or one guard at a time. *)
Ltac step H :=
  match type of H with
  | bind ?r _ = Ok _ =>
      let a := fresh "a" in
      let E := fresh "E" in
      destruct r as [a|] eqn:E; cbn [bind] in H; [|discriminate H]
  | (if ?c then Err _ else _) = Ok _ =>
      let E := fresh "E" in
      destruct c eqn:E; [discriminate H|]
  | (let (_, _) := ?a in _) = Ok _ => destruct a
  | Ok _ = Ok _ => injection H as H
  end.

Ltac steps H := repeat step H.

Ltac innermost r :=
  lazymatch r with
  | bind _ _ => fail
  | (if _ then _ else _) => fail
  | (match _ with Some _ => _ | None => _ end) => fail
  | (match _ with Returned _ => _ | Thrown _ => _ end) => fail
  | (let (_, _) := _ in _) => fail
  | _ => idtac
  end.

(** Both sides run the same calls in the same order: take them one by one. *)
Ltac same_calls :=
  repeat (cbn [bind];
          match goal with
          | |- context [bind ?r _] => innermost r; destruct r
          | |- context [if ?c then _ else _] => innermost c; destruct c
          | |- context [match ?o with Some _ => _ | None => _ end] =>
              innermost o; destruct o
          | |- context [match ?o with Returned _ => _ | Thrown _ => _ end] =>
              innermost o; destruct o
          | |- context [let (_, _) := ?a in _] => destruct a
          end);
  cbn [bind]; try reflexivity.

(** * A sample of the collaborators

    Small stand-ins for the imported functions, enough to run the program
    on descriptors over raw compressed public keys: the descriptor checksum
    of Bitcoin Core, a key pattern and parser for hex public keys, recorded
    answers of the miniscript engine for a few miniscripts, and an
    assembler for the opcodes these use. The theorems that quantify over
    [Capabilities] hold for every collaborator; the sample serves to run
    the program on inputs. *)

Module Sample.

(** ** The descriptor checksum of Bitcoin Core *)

Definition INPUT_CHARSET : string :=
  "0123456789()[],'/*abcdefgh@:$%{}"
  ++ "IJKLMNOPQRSTUVWXYZ&+-.;<=>?!^_|~"
  ++ "ijklmnopqrstuvwxyzABCDEFGH`#"
  ++ String (ascii_of_nat 34) (String (ascii_of_nat 92) " ").

Definition PolyMod (c val : Z) : Z :=
  let c0 := Z.shiftr c 35 in
  let c := Z.lxor (Z.shiftl (Z.land c 0x7ffffffff) 5) val in
  let c := if Z.testbit c0 0 then Z.lxor c 0xf5dee51989 else c in
  let c := if Z.testbit c0 1 then Z.lxor c 0xa9fdca3312 else c in
  let c := if Z.testbit c0 2 then Z.lxor c 0x1bab10e32d else c in
  let c := if Z.testbit c0 3 then Z.lxor c 0x3706b1677a else c in
  let c := if Z.testbit c0 4 then Z.lxor c 0x644d626ffd else c in
  c.

Fixpoint position (c : ascii) (charset : string) : option nat :=
  match charset with
  | EmptyString => None
  | String d rest =>
      if Ascii.eqb c d then Some 0
      else option_map S (position c rest)
  end.

Definition char_at (n : nat) (charset : string) : ascii :=
  match String.get n charset with
  | Some c => c
  | None => " "%char
  end.

(** The loop over the characters: [c] is the running checksum, [cls] and
    [clscount] the group being filled. *)
Fixpoint feed (s : string) (c cls : Z) (clscount : nat) : option (Z * Z * nat) :=
  match s with
  | EmptyString => Some (c, cls, clscount)
  | String ch s' =>
      match position ch INPUT_CHARSET with
      | None => None
      | Some pos =>
          let c := PolyMod c (Z.land (Z.of_nat pos) 31) in
          let cls := (cls * 3 + Z.shiftr (Z.of_nat pos) 5)%Z in
          if (clscount + 1 =? 3)%nat
          then feed s' (PolyMod c cls) 0%Z 0
          else feed s' c cls (clscount + 1)
      end
  end.

Definition checksum (span : string) : string :=
  match feed span 1%Z 0%Z 0 with
  | None => EmptyString
  | Some (c, cls, clscount) =>
      let c := if (0 <? clscount)%nat then PolyMod c cls else c in
      let c := fold_left (fun c _ => PolyMod c 0) (seq 0 8) c in
      let c := Z.lxor c 1 in
      string_of_list_ascii
        (map (fun j =>
                char_at (Z.to_nat (Z.land (Z.shiftr c (5 * (7 - Z.of_nat j))) 31))
                  CHECKSUM_CHARSET)
           (seq 0 8))
  end.

(** ** Keys: raw compressed public keys in hex *)

(** [(02|03)[0-9a-fA-F]{64}] on a whole string. *)
Definition is_compressed_pubkey (s : string) : bool :=
  (String.length s =? 66)%nat
  && (String.prefix "02" s || String.prefix "03" s)
  && forallb is_hex (list_ascii_of_string s).

(** The matches of the key pattern, left to right; a character outside a
    match is a piece of text of its own. *)
Fixpoint scan (skip : nat) (s : string) : list Segment :=
  match s with
  | EmptyString => []
  | String c s' =>
      match skip with
      | S k => scan k s'
      | O =>
          let candidate := String.substring 0 66 s in
          if is_compressed_pubkey candidate
          then Match candidate :: scan 65 s'
          else Text (String c EmptyString) :: scan 0 s'
      end
  end.

Fixpoint first_match (segments : list Segment) : option string :=
  match segments with
  | [] => None
  | Match m :: _ => Some m
  | Text _ :: rest => first_match rest
  end.

Definition parseKey (keyExpression : string) (network : Network) (isSegwit : bool)
  : outcome KeyExpression :=
  if is_compressed_pubkey keyExpression
  then match fromHex keyExpression with
       | Some b =>
           Returned {| pubkey := b; masterFingerprint := None; path := None |}
       | None => Thrown "parseKeyExpression"
       end
  else Thrown "parseKeyExpression".

(** ** The anchored patterns *)

Definition unwrap_key (pre post s : string) : option (list string) :=
  match Js.unwrap pre post s with
  | Some inner => if is_compressed_pubkey inner then Some [s; inner] else None
  | None => None
  end.

Definition unwrap_any (pre post s : string) : option (list string) :=
  option_map (fun inner => [s; inner]) (Js.unwrap pre post s).

Definition re (pat : Pattern) (s : string) : option (list string) :=
  match pat with
  | reAddrAnchored => unwrap_any "addr(" ")" s
  | reKeyExp => option_map (fun m => [m]) (first_match (scan 0 s))
  | rePkAnchored => unwrap_key "pk(" ")" s
  | rePkhAnchored => unwrap_key "pkh(" ")" s
  | reShWpkhAnchored => unwrap_key "sh(wpkh(" "))" s
  | reWpkhAnchored => unwrap_key "wpkh(" ")" s
  | reShWshMiniscriptAnchored => unwrap_any "sh(wsh(" "))" s
  | reShMiniscriptAnchored => unwrap_any "sh(" ")" s
  | reWshMiniscriptAnchored => unwrap_any "wsh(" ")" s
  end.

(** ** Script numbers and the assembler *)

(** The little-endian bytes of a positive number, a zero byte added when
    the top bit of the last one is set. *)
Fixpoint le_bytes (fuel : nat) (n : N) : list N :=
  match fuel with
  | O => []
  | S fuel' =>
      if (n <? 128)%N then [n]
      else if (n <? 256)%N then [n; 0%N]
      else (n mod 256)%N :: le_bytes fuel' (n / 256)%N
  end.

Definition hex_of_N (n : N) : string :=
  String (hex_digit (n / 16)) (String (hex_digit (n mod 16)) EmptyString).

Definition encodeNumber (n : Z) : string :=
  if (n =? 0)%Z then "OP_0"
  else String.concat "" (map hex_of_N (le_bytes 8 (Z.to_N n))).

Definition opcodes : list (string * N) :=
  [("OP_0", 0); ("OP_SIZE", 130); ("OP_EQUAL", 135); ("OP_EQUALVERIFY", 136);
   ("OP_VERIFY", 105); ("OP_DUP", 118); ("OP_SHA256", 168); ("OP_HASH160", 169);
   ("OP_CHECKSIG", 172); ("OP_CHECKSIGVERIFY", 173);
   ("OP_CHECKLOCKTIMEVERIFY", 177); ("OP_CHECKSEQUENCEVERIFY", 178)]%N.

Fixpoint tokens (current : string) (s : string) : list string :=
  match s with
  | EmptyString => if current =? "" then [] else [current]
  | String c s' =>
      if Ascii.eqb c " "%char
      then (if current =? "" then [] else [current]) ++ tokens EmptyString s'
      else tokens (current ++ String c EmptyString) s'
  end%list.

Definition byte_of (n : N) : Byte.byte :=
  match Byte.of_N n with
  | Some b => b
  | None => Byte.x00
  end.

(** One token: an opcode name, or hex data pushed with its length before it
    (lengths up to 75). *)
Definition assemble_token (token : string) : option Buffer :=
  match obj_get opcodes token with
  | Some code => Some [byte_of code]
  | None =>
      match fromHex token with
      | Some data =>
          if (List.length data <=? 75)%nat && negb (token =? "")
          then Some (byte_of (N.of_nat (List.length data)) :: data)
          else None
      | None => None
      end
  end.

Fixpoint assemble (toks : list string) : option Buffer :=
  match toks with
  | [] => Some []
  | tok :: rest =>
      match assemble_token tok, assemble rest with
      | Some b, Some bs => Some (b ++ bs)%list
      | _, _ => None
      end
  end.

Definition assemble_asm (asm : string) : outcome Buffer :=
  match assemble (tokens EmptyString asm) with
  | Some b => Returned b
  | None => Thrown "assemble_asm"
  end.

(** The inverse reading: a byte from 1 to 75 announces that many bytes of
    data, any other byte is an opcode. *)
Fixpoint chunks (fuel : nat) (script : Buffer) : option (list Chunk) :=
  match fuel, script with
  | _, [] => Some []
  | O, _ :: _ => None
  | S fuel', b :: rest =>
      let n := N.to_nat (Byte.to_N b) in
      if ((1 <=? n) && (n <=? 75))%nat
      then if (n <=? List.length rest)%nat
           then option_map (cons (Data (firstn n rest))) (chunks fuel' (skipn n rest))
           else None
      else option_map (cons (OpCode (Z.of_N (Byte.to_N b)))) (chunks fuel' rest)
  end.

Definition disassemble (script : Buffer) : option (list Chunk) :=
  chunks (List.length script) script.

(** A stand-in for RIPEMD160(SHA256(x)): the first 20 bytes, zeros added. *)
Definition h160 (b : Buffer) : Buffer :=
  firstn 20 (b ++ repeat Byte.x00 20)%list.

(** A stand-in for SHA256(x): the first 32 bytes, zeros added. *)
Definition sha256 (b : Buffer) : Buffer :=
  firstn 32 (b ++ repeat Byte.x00 32)%list.

Definition bytes (l : list N) : Buffer := map byte_of l.

(** The output scripts of the payment templates; the address is the hex of
    the output script, standing in for its base58 or bech32 form. *)
Definition pay (out : Buffer) (redeem : option Buffer) (with_address : bool) : Payment :=
  {| output := Some out;
     address := if with_address then Some (toHex out) else None;
     redeem_output := redeem |}.

Definition forallb2 (expected got : list N) : bool :=
  (List.length expected =? List.length got)%nat
  && forallb (fun xy => (fst xy =? snd xy)%N) (combine expected got).

(** [payments.x({ output, network })]: the template the output script must
    have for the call not to throw. *)
Definition template (kind : PaymentKind) (out : Buffer) : bool :=
  let n := List.length out in
  let head := map Byte.to_N (firstn 3 out) in
  match kind with
  | P2PKH => (n =? 25)%nat && forallb2 [118; 169; 20]%N head
  | P2SH => (n =? 23)%nat && forallb2 [169; 20]%N (firstn 2 head)
  | P2WPKH => (n =? 22)%nat && forallb2 [0; 20]%N (firstn 2 head)
  | P2WSH => (n =? 34)%nat && forallb2 [0; 32]%N (firstn 2 head)
  | P2TR => (n =? 34)%nat && forallb2 [81; 32]%N (firstn 2 head)
  | P2PK => false
  end.

Definition payment_of (kind : PaymentKind) (arg : PaymentArg) (network : Network)
  : outcome Payment :=
  match kind, arg with
  | P2PK, FromPubkey pk =>
      Returned (pay (byte_of (N.of_nat (List.length pk)) :: pk ++ bytes [172%N])%list
                  None false)
  | P2PKH, FromPubkey pk =>
      Returned (pay (bytes [118; 169; 20]%N ++ h160 pk ++ bytes [136; 172]%N)%list
                  None true)
  | P2WPKH, FromPubkey pk =>
      Returned (pay (bytes [0; 20]%N ++ h160 pk)%list None true)
  | P2SH, FromRedeem r =>
      match output r with
      | Some script =>
          Returned (pay (bytes [169; 20]%N ++ h160 script ++ bytes [135%N])%list
                      (Some script) true)
      | None => Thrown "p2sh"
      end
  | P2WSH, FromRedeem r =>
      match output r with
      | Some script =>
          Returned (pay (bytes [0; 32]%N ++ sha256 script)%list (Some script) true)
      | None => Thrown "p2wsh"
      end
  | _, FromOutput out =>
      if template kind out then Returned (pay out None true)
      else Thrown "payment_of"
  | _, _ => Thrown "payment_of"
  end.

(** [address.toOutputScript]: the sample's addresses are the hex of the
    output script. *)
Definition outputScript (addr : string) (network : Network) : outcome Buffer :=
  match fromHex addr with
  | Some out => if (addr =? "") then Thrown "outputScript" else Returned out
  | None => Thrown "outputScript"
  end.

(** [Number(buf.toString()) > n] for a buffer of ASCII digits; any other
    buffer does not read as a number and compares false. *)
Definition buffer_gt (b : Buffer) (n : Z) : bool :=
  let chars := map (fun x => ascii_of_N (Byte.to_N x)) b in
  match chars with
  | [] => (n <? 0)%Z
  | _ => forallb is_digit chars && (n <? Number_of_digits chars)%Z
  end.

(** ** Recorded answers of the miniscript engine *)

Definition K1 : string :=
  "02c6047f9441ed7d6d3045406e95c07cd85c778e4b8cef3ca7abac09b95c709ee5".
(** The same public key, its hex digits in upper case. *)
Definition K1_upper : string :=
  "02C6047F9441ED7D6D3045406E95C07CD85C778E4B8CEF3CA7ABAC09B95C709EE5".
Definition K2 : string :=
  "02f9308a019258c31049344f85f89d5229b531c845836f99b08601f113bce036f9".
(** A SHA256 digest. *)
Definition H : string :=
  "6c60f404f8167a38fc70eaf8aa17ac351023bef86bcb9d1086a19afe95bd5333".

Definition compile (expandedMiniscript : string) : outcome (string * bool) :=
  if expandedMiniscript =? "pk(@0)"
  then Returned ("<@0> OP_CHECKSIG", true)
  else if expandedMiniscript =? "and_v(v:pk(@0),pk(@1))"
  then Returned ("<@0> OP_CHECKSIGVERIFY <@1> OP_CHECKSIG", true)
  else if expandedMiniscript =? "and_v(v:pk(@0),older(144))"
  then Returned ("<@0> OP_CHECKSIGVERIFY 144 OP_CHECKSEQUENCEVERIFY", true)
  else if expandedMiniscript =? "and_v(v:pk(@0),sha256(" ++ H ++ "))"
  then Returned ("<@0> OP_CHECKSIGVERIFY OP_SIZE <20> OP_EQUALVERIFY OP_SHA256 <"
                 ++ H ++ "> OP_EQUAL", true)
  else Returned (EmptyString, false).

Definition known (k : string) (knowns : list string) : bool :=
  existsb (String.eqb k) knowns.

Definition sat_of (asm : string) (nSequence : option Z) : Sat :=
  {| asm := asm; sat_nLockTime := None; sat_nSequence := nSequence |}.

(** The engine offers a satisfaction when its signatures and preimages are
    among the knowns; knowns it has no use for change nothing. *)
Definition satisfy (expandedMiniscript : string) (knowns : list string)
  : outcome (option (list Sat)) :=
  if expandedMiniscript =? "pk(@0)"
  then Returned (Some (if known "<sig(@0)>" knowns
                       then [sat_of "<sig(@0)>" None] else []))
  else if expandedMiniscript =? "and_v(v:pk(@0),pk(@1))"
  then Returned (Some (if known "<sig(@0)>" knowns && known "<sig(@1)>" knowns
                       then [sat_of "<sig(@1)> <sig(@0)>" None] else []))
  else if expandedMiniscript =? "and_v(v:pk(@0),older(144))"
  then Returned (Some (if known "<sig(@0)>" knowns
                       then [sat_of "<sig(@0)>" (Some 144%Z)] else []))
  else if expandedMiniscript =? "and_v(v:pk(@0),sha256(" ++ H ++ "))"
  then Returned (Some (if known "<sig(@0)>" knowns
                          && known ("<sha256_preimage(" ++ H ++ ")>") knowns
                       then [sat_of ("<sha256_preimage(" ++ H ++ ")> <sig(@0)>") None]
                       else []))
  else Thrown "satisfy".

(** ** A transaction

    Every hex string stands for a transaction with the same two outputs. *)
Definition parse_tx (txHex : string) : outcome Transaction :=
  match fromHex txHex with
  | Some b =>
      Returned {| outs := [ {| out_script := bytes [81%N]; out_value := 50000 |};
                            {| out_script := bytes [82%N]; out_value := 70000 |} ];
                  getHash := sha256 b;
                  toBuffer := b |}
  | None => Thrown "Transaction.fromHex"
  end.

(** ** The Psbt's own checks

    As far as the sample goes: an input is refused when the Psbt already
    spends the same output, and the locktime is not changed any more once
    an input carries a signature. *)
Definition same_outpoint (a b : PsbtInputExtended) : bool :=
  (toHex (in_hash a) =? toHex (in_hash b)) && (in_index a =? in_index b)%Z.

Definition is_signed (i : PsbtInputExtended) : bool :=
  match partialSig i with
  | Some (_ :: _) => true
  | _ => false
  end.

Definition refuse_input (psbt : Psbt) (input : PsbtInputExtended) : bool :=
  existsb (same_outpoint input) (inputs psbt).

Definition refuse_locktime (psbt : Psbt) (n : Z) : bool :=
  existsb is_signed (inputs psbt).

Definition cap : Capabilities :=
  {| DescriptorChecksum := checksum;
     re_match := re;
     reKeyExp_scan := scan 0;
     globalParseKeyExpression := parseKey;
     numberEncodeAsm := encodeNumber;
     compileMiniscript := compile;
     satisfier := satisfy;
     toOutputScript := outputScript;
     payments := payment_of;
     fromASM := assemble_asm;
     decompile := disassemble;
     hash160 := h160;
     Transaction_fromHex := parse_tx;
     setLocktime_rejects := refuse_locktime;
     addInput_rejects := refuse_input;
     Buffer_gt := buffer_gt;
     toString_beyond_safe := fun _ => "1e+21" |}.

(** ** Inputs to run the program on *)

Definition key (b : Buffer) : KeyExpression :=
  {| pubkey := b; masterFingerprint := None; path := None |}.

Definition key1 : Buffer :=
  match fromHex K1 with Some b => b | None => [] end.

Definition key2 : Buffer :=
  match fromHex K2 with Some b => b | None => [] end.

(** A signature by [K1], and one by [K2], a key no miniscript below names. *)
Definition signature1 : PartialSig :=
  {| sig_pubkey := key1; sig_signature := bytes [48; 68; 2; 32; 17; 1]%N |}.

Definition stray_signature : PartialSig :=
  {| sig_pubkey := key2; sig_signature := bytes [48; 68; 2; 32; 34; 1]%N |}.

(** The sample with a satisfier that reports the knowns it is called with:
    it throws their list. *)
Definition reporting : Capabilities :=
  {| DescriptorChecksum := checksum;
     re_match := re;
     reKeyExp_scan := scan 0;
     globalParseKeyExpression := parseKey;
     numberEncodeAsm := encodeNumber;
     compileMiniscript := compile;
     satisfier := fun _ knowns => Thrown (String.concat "," knowns);
     toOutputScript := outputScript;
     payments := payment_of;
     fromASM := assemble_asm;
     decompile := disassemble;
     hash160 := h160;
     Transaction_fromHex := parse_tx;
     setLocktime_rejects := refuse_locktime;
     addInput_rejects := refuse_input;
     Buffer_gt := buffer_gt;
     toString_beyond_safe := fun _ => "1e+21" |}.

Definition pkh_K1 : Descriptor.Params :=
  Descriptor.default_params ("pkh(" ++ K1 ++ ")") (JsInteger 0).

Definition wsh_older : Descriptor.Params :=
  Descriptor.default_params ("wsh(and_v(v:pk(" ++ K1 ++ "),older(144)))") (JsInteger 0).

(** A miniscript that asks for a signature and for the preimage of [H]. *)
Definition and_sha256 : string :=
  "and_v(v:pk(" ++ K1 ++ "),sha256(" ++ H ++ "))".

Definition allow_in_sh (p : Descriptor.Params) : Descriptor.Params :=
  {| Descriptor.expression := Descriptor.expression p;
     Descriptor.index := Descriptor.index p;
     Descriptor.checksumRequired := Descriptor.checksumRequired p;
     Descriptor.allowMiniscriptInP2SH := true;
     Descriptor.network := Descriptor.network p;
     Descriptor.preimages := Descriptor.preimages p;
     Descriptor.signersKeyExpressions := Descriptor.signersKeyExpressions p |}.

Definition sh_and_sha256 : Descriptor.Params :=
  allow_in_sh (Descriptor.default_params ("sh(" ++ and_sha256 ++ ")") (JsInteger 0)).


(** The descriptor a run of the constructor returns ([blank] if it threw). *)
Definition blank : Descriptor.t :=
  Descriptor.fields bitcoin [] (pay [] None false) None None None None None None.

Definition built (r : result Descriptor.t) : Descriptor.t :=
  match r with
  | Ok d => d
  | Err _ => blank
  end.

Definition pkh_descriptor : Descriptor.t :=
  built (Descriptor.constructor cap pkh_K1).

Definition wsh_older_descriptor : Descriptor.t :=
  built (Descriptor.constructor cap wsh_older).

Definition sh_older : Descriptor.Params :=
  allow_in_sh
    (Descriptor.default_params ("sh(and_v(v:pk(" ++ K1 ++ "),older(144)))")
       (JsInteger 0)).

(** A ranged descriptor, and the same with its checksum. *)
Definition ranged : string :=
  "pkh(xpub6ERApfZwUNrhLCkDtcHTcxd75RbzS1ed54G1LkBUHQVHQKqhMkhgbmJbZRkrgZw4koxb5JaHWkY4ALHY2grBGRjaDMzQLcgJvLJuZZvRcEL/1/*)".

Definition ranged_with_checksum : string := ranged ++ "#3au5tfmz".

(** Neither one of the four hash functions nor hex. *)
Definition ill_formed_preimage : Preimage :=
  {| digest := "md5(00)"; preimage := "zz" |}.

(** A Psbt with one input, signed by [K1]. *)
Definition signed_psbt : Psbt :=
  {| locktime := Some 0%Z;
     inputs :=
       [ {| in_hash := sha256 []; in_index := 0; nonWitnessUtxo := [];
            witnessUtxo := None; in_witnessScript := None;
            bip32Derivation := None; sequence := None;
            partialSig := Some [signature1]; finalizedWith := None |} ] |}.

Definition empty_psbt : Psbt := {| locktime := Some 0%Z; inputs := [] |}.

(** A signature by [K2] with no bytes in it. *)
Definition empty_signature : PartialSig :=
  {| sig_pubkey := key2; sig_signature := [] |}.

(** A preimage handed in for the digest [H]; the sample computes no hash,
    so the bytes are arbitrary. *)
Definition preimage_for_H : Preimage :=
  {| digest := "sha256(" ++ H ++ ")";
     preimage := "2a2a2a2a2a2a2a2a2a2a2a2a2a2a2a2a2a2a2a2a2a2a2a2a2a2a2a2a2a2a2a2a" |}.

(** A miniscript over two keys. *)
Definition two_keys : string := "and_v(v:pk(" ++ K1 ++ "),pk(" ++ K2 ++ "))".

(** The ASM the engine compiles [and_v(v:pk(@0),older(144))] to, token by
    token. *)
Definition older_asm : list AsmToken :=
  [KeyVar "@0"; Plain "OP_CHECKSIGVERIFY"; Plain "144"; Plain "OP_CHECKSEQUENCEVERIFY"].

(** An address: the sample writes it as the hex of a p2wpkh output script. *)
Definition addr_wpkh : Descriptor.Params :=
  Descriptor.default_params "addr(0014c6047f9441ed7d6d3045406e95c07cd85c778e4b)"
    (JsInteger 0).

(** [pkh(K1)] with its checksum, a checksum required, and an index that is
    no number. *)
Definition pkh_K1_checked : Descriptor.Params :=
  Descriptor.with_expression pkh_K1
    (Descriptor.expression pkh_K1
     ++ "#" ++ Descriptor.checksum cap (Descriptor.expression pkh_K1))
    JsNonInteger true.

(** The sample with a [pk(...)] pattern that takes anything between the
    parentheses. *)
Definition lax_re (pat : Pattern) (s : string) : option (list string) :=
  match pat with
  | rePkAnchored => unwrap_any "pk(" ")" s
  | _ => re pat s
  end.

Definition lax : Capabilities :=
  {| DescriptorChecksum := checksum;
     re_match := lax_re;
     reKeyExp_scan := scan 0;
     globalParseKeyExpression := parseKey;
     numberEncodeAsm := encodeNumber;
     compileMiniscript := compile;
     satisfier := satisfy;
     toOutputScript := outputScript;
     payments := payment_of;
     fromASM := assemble_asm;
     decompile := disassemble;
     hash160 := h160;
     Transaction_fromHex := parse_tx;
     setLocktime_rejects := refuse_locktime;
     addInput_rejects := refuse_input;
     Buffer_gt := buffer_gt;
     toString_beyond_safe := fun _ => "1e+21" |}.

Definition pk_undefined : Descriptor.Params :=
  Descriptor.default_params "pk(undefined)" (JsInteger 0).

End Sample.

(** * Properties *)

Import Descriptor.

(** ** Outcomes *)

Lemma call_not_own {A : Type} (o : outcome A) (e : Error) :
  call o = Err e -> exists who, e = External who.
Proof. destruct o; simpl; [discriminate|]. intros [= <-]. eauto. Qed.

Lemma bind_Ok {A B : Type} (r : result A) (k : A -> result B) (b : B) :
  bind r k = Ok b -> exists a, r = Ok a /\ k a = Ok b.
Proof. destruct r; simpl; [eauto | discriminate]. Qed.

Lemma bind_Err {A B : Type} (r : result A) (k : A -> result B) (e : Error) :
  bind r k = Err e -> r = Err e \/ exists a, r = Ok a /\ k a = Err e.
Proof. destruct r; simpl; [eauto | intros [= <-]; auto]. Qed.


(** ** Strings *)

Lemma substring_0_all (s : string) : String.substring 0 (String.length s) s = s.
Proof. induction s as [|c s IH]; simpl; [reflexivity | now rewrite IH]. Qed.

Lemma substring_split (n : nat) (s : string) :
  n <= String.length s ->
  s = Js.substring_to n s ++ Js.substring_from n s.
Proof.
  unfold Js.substring_to, Js.substring_from.
  revert n; induction s as [|c s IH]; intros [|n] Hn; simpl in *; try lia.
  - reflexivity.
  - now rewrite substring_0_all.
  - f_equal. apply IH. lia.
Qed.

Lemma substring_from_length (n : nat) (s : string) :
  String.length (Js.substring_from n s) = String.length s - n.
Proof.
  unfold Js.substring_from.
  revert n; induction s as [|c s IH]; intros [|n]; simpl; try reflexivity.
  - now rewrite substring_0_all.
  - apply IH.
Qed.

Lemma string_length_app (p q : string) :
  String.length (p ++ q) = String.length p + String.length q.
Proof. induction p as [|c p IH]; simpl; [reflexivity | now rewrite IH]. Qed.

Lemma substring_from_app (p q : string) :
  Js.substring_from (String.length p) (p ++ q) = q.
Proof.
  unfold Js.substring_from. rewrite string_length_app.
  replace (String.length p + String.length q - String.length p)
    with (String.length q) by lia.
  induction p as [|c p IH]; simpl; [apply substring_0_all | exact IH].
Qed.

Lemma substring_to_app (p q : string) :
  Js.substring_to (String.length p) (p ++ q) = p.
Proof.
  unfold Js.substring_to.
  induction p as [|c p IH]; simpl; [now destruct q | now rewrite IH].
Qed.

Lemma app_inv_tail_length (p p' q q' : string) :
  p ++ q = p' ++ q' -> String.length q = String.length q' -> p = p' /\ q = q'.
Proof.
  revert p'; induction p as [|c p IH]; intros [|c' p'] H Hl; simpl in *.
  - auto.
  - subst q. simpl in Hl. rewrite string_length_app in Hl. lia.
  - subst q'. simpl in Hl. rewrite string_length_app in Hl. lia.
  - injection H as -> H. destruct (IH _ H Hl) as [-> ->]. auto.
Qed.

(** *** The checksum pattern finds exactly the suffix *)

Lemma reChecksum_inv (m : string) :
  reChecksum m = true ->
  exists c, m = String "#" c /\ String.length c = 8
            /\ forallb in_charset (list_ascii_of_string c) = true.
Proof.
  destruct m as [|a c]; simpl; [discriminate|].
  intros H. apply andb_prop in H as [H Hc]. apply andb_prop in H as [Ha Hl].
  apply Ascii.eqb_eq in Ha. apply Nat.eqb_eq in Hl. subst a. now exists c.
Qed.

Lemma match_checksum_sound (expression m : string) :
  match_checksum expression = Some m ->
  exists c, m = String "#" c
    /\ checksum_suffix expression
         (Js.substring_to (String.length expression - String.length m) expression) c.
Proof.
  unfold match_checksum. set (n := String.length expression - 9).
  destruct (reChecksum (Js.substring_from n expression)) eqn:E; [|discriminate].
  intros [= <-]. destruct (reChecksum_inv _ E) as (c & Hm & Hl & Hc).
  exists c. split; [exact Hm|]. split; [|now split].
  assert (Hlen : String.length (Js.substring_from n expression) = 9)
    by (rewrite Hm; simpl; now rewrite Hl).
  rewrite substring_from_length in Hlen.
  rewrite <- Hm.
  replace (String.length expression - String.length (Js.substring_from n expression))
    with n by (rewrite substring_from_length; lia).
  apply substring_split. lia.
Qed.

Lemma match_checksum_complete (expression prefix c : string) :
  checksum_suffix expression prefix c ->
  match_checksum expression = Some (String "#" c)
  /\ Js.substring_to (String.length expression - 9) expression = prefix.
Proof.
  intros (-> & Hl & Hc). unfold match_checksum.
  rewrite string_length_app. simpl String.length. rewrite Hl.
  replace (String.length prefix + 9 - 9) with (String.length prefix) by lia.
  rewrite substring_from_app, substring_to_app. simpl.
  rewrite Hl, Hc. simpl. auto.
Qed.

Lemma match_checksum_none (expression : string) :
  match_checksum expression = None ->
  forall prefix c, ~ checksum_suffix expression prefix c.
Proof.
  intros H prefix c Hs. apply match_checksum_complete in Hs as [Hs _]. congruence.
Qed.

(** *** Wildcards *)

Lemma has_star_app (p q : string) : has_star (p ++ q) = has_star p || has_star q.
Proof.
  unfold has_star. induction p as [|c p IH]; simpl; [reflexivity|].
  now rewrite IH, orb_assoc.
Qed.

Lemma in_charset_not_star (c : string) :
  forallb in_charset (list_ascii_of_string c) = true -> has_star c = false.
Proof.
  unfold has_star. induction c as [|a c IH]; simpl; [reflexivity|].
  intros H. apply andb_prop in H as [Ha Hc]. rewrite (IH Hc), orb_false_r.
  destruct (Js.is_star a) eqn:E; [|reflexivity].
  apply Ascii.eqb_eq in E. subst a. discriminate.
Qed.

Lemma checksum_suffix_star (expression prefix c : string) :
  checksum_suffix expression prefix c -> has_star expression = has_star prefix.
Proof.
  intros (-> & _ & Hc). rewrite has_star_app. simpl.
  change (has_star (String "#" c)) with (has_star c).
  now rewrite (in_charset_not_star _ Hc), orb_false_r.
Qed.

Lemma match_stars_spec (s : string) :
  match Js.match_stars s with
  | Some l => has_star s = true /\ 0 < List.length l
  | None => has_star s = false
  end.
Proof.
  unfold Js.match_stars, has_star.
  induction (list_ascii_of_string s) as [|c l IH]; simpl; [reflexivity|].
  destruct (Js.is_star c); simpl.
  - split; [reflexivity | lia].
  - destruct (filter Js.is_star l); [exact IH|]. simpl in *. exact IH.
Qed.

Lemma concat_split_star (s : string) : String.concat "*" (split_star s) = s.
Proof.
  unfold split_star. induction s as [|c s IH]; simpl; [reflexivity|].
  destruct (split_star_parts s) as [p ps].
  destruct (Js.is_star c) eqn:Ec.
  - apply Ascii.eqb_eq in Ec. subst c. simpl in *. now rewrite IH.
  - simpl in *. destruct ps; simpl in *; now rewrite <- IH.
Qed.

Lemma split_star_pieces (s : string) :
  Forall (fun piece => has_star piece = false) (split_star s).
Proof.
  unfold split_star. induction s as [|c s IH]; simpl; [now repeat constructor|].
  destruct (split_star_parts s) as [p ps]. inversion IH; subst.
  destruct (Js.is_star c) eqn:Ec.
  - constructor; [reflexivity | now constructor].
  - constructor; [|assumption]. unfold has_star in *. simpl. now rewrite Ec.
Qed.

Lemma prefix_single (a c : ascii) (s : string) :
  String.prefix (String a EmptyString) (String c s) = Ascii.eqb c a.
Proof.
  simpl. destruct (ascii_dec a c) as [->|Hne].
  - rewrite Ascii.eqb_refl. now destruct s.
  - symmetry. apply Ascii.eqb_neq. congruence.
Qed.

Lemma replaceAll_star (rep s : string) :
  Js.replaceAll "*" rep s = String.concat rep (split_star s).
Proof.
  unfold Js.replaceAll, split_star. induction s as [|c s IH]; [reflexivity|].
  cbn [Js.replaceAll_from split_star_parts String.length Nat.sub].
  rewrite prefix_single. fold (Js.is_star c).
  destruct (split_star_parts s) as [p ps].
  destruct (Js.is_star c); rewrite IH; simpl; [reflexivity | now destruct ps].
Qed.

Lemma split_star_none (s : string) : has_star s = false -> split_star s = [s].
Proof.
  unfold split_star, has_star. induction s as [|c s IH]; simpl; [reflexivity|].
  intros H. apply orb_false_elim in H as [Hc Hs]. specialize (IH Hs).
  destruct (split_star_parts s) as [p ps]. rewrite Hc. now injection IH as -> ->.
Qed.

Lemma concat_no_star (rep : string) (pieces : list string) :
  has_star rep = false ->
  Forall (fun piece => has_star piece = false) pieces ->
  has_star (String.concat rep pieces) = false.
Proof.
  intros Hr H. induction H as [|p ps Hp Hps IH]; simpl; [reflexivity|].
  destruct ps; [exact Hp|]. now rewrite !has_star_app, Hp, Hr, IH.
Qed.

Lemma Number_toString_decimal (ef : Z -> string) (z : Z) :
  (0 <= z < 2 ^ 53)%Z -> Number_toString ef z = Js.decimal (Z.to_N z).
Proof.
  intros Hz. unfold Number_toString.
  assert (E1 : (Z.abs z <? 2 ^ 53)%Z = true) by (apply Z.ltb_lt; lia).
  assert (E2 : (z <? 0)%Z = false) by (apply Z.ltb_ge; lia).
  now rewrite E1, E2.
Qed.

Lemma particularize_spec (cap : Capabilities) (index : JsNumber) (body : string) :
  (has_star body = true -> nonneg_integer index = false ->
   particularize cap index body = Err InvalidIndex)
  /\ (forall z, has_star body = true -> index = JsInteger z -> (0 <= z)%Z ->
        particularize cap index body
        = Ok (String.concat (Number_toString (toString_beyond_safe cap) z) (split_star body)))
  /\ (has_star body = false -> particularize cap index body = Ok body).
Proof.
  unfold particularize. pose proof (match_stars_spec body) as Hs.
  destruct (Js.match_stars body) as [l|].
  - destruct Hs as [Hs Hl]. apply Nat.ltb_lt in Hl. rewrite Hl, Hs.
    repeat split; try discriminate.
    + intros _ Hi. destruct index as [z|]; simpl in *; [|reflexivity].
      apply Z.leb_gt in Hi. apply Z.ltb_lt in Hi. now rewrite Hi.
    + intros z _ -> Hz. rewrite replaceAll_star. simpl.
      apply Z.ltb_ge in Hz. now rewrite Hz.
  - rewrite Hs. repeat split; (discriminate || reflexivity).
Qed.

Lemma isolate_unfold (cap : Capabilities) (expression : string)
    (checksumRequired : bool) (index : JsNumber) :
  isolate cap expression checksumRequired index =
  match match_checksum expression with
  | Some m0 =>
      let body :=
        Js.substring_to (String.length expression - String.length m0) expression in
      if Js.substring_from 1 m0 =? DescriptorChecksum cap body
      then particularize cap index body
      else Err BadChecksum
  | None =>
      if checksumRequired then Err MissingChecksum
      else particularize cap index expression
  end.
Proof.
  unfold isolate, particularize.
  destruct (match_checksum expression);
    [cbv zeta; destruct (_ =? _) | destruct checksumRequired]; reflexivity.
Qed.

Lemma isolate_suffix (cap : Capabilities) (expression : string)
    (checksumRequired : bool) (index : JsNumber) (prefix c : string) :
  checksum_suffix expression prefix c ->
  isolate cap expression checksumRequired index =
  if c =? DescriptorChecksum cap prefix
  then particularize cap index prefix
  else Err BadChecksum.
Proof.
  intros Hs. destruct (match_checksum_complete _ _ _ Hs) as [Em Hp].
  pose proof (proj1 (proj2 Hs)) as Hl.
  rewrite isolate_unfold, Em. cbn [String.length]. rewrite Hl. cbv zeta. rewrite Hp.
  change (Js.substring_from 1 (String "#" c)) with (Js.substring_from 0 c).
  unfold Js.substring_from. now rewrite Nat.sub_0_r, substring_0_all.
Qed.

Lemma isolate_no_suffix (cap : Capabilities) (expression : string)
    (checksumRequired : bool) (index : JsNumber) :
  (forall prefix c, ~ checksum_suffix expression prefix c) ->
  isolate cap expression checksumRequired index =
  if checksumRequired then Err MissingChecksum
  else particularize cap index expression.
Proof.
  intros Hno. rewrite isolate_unfold.
  destruct (match_checksum expression) as [m0|] eqn:Em; [|reflexivity].
  destruct (match_checksum_sound _ _ Em) as (c & _ & Hs). now apply Hno in Hs.
Qed.

Lemma checksum_suffix_dec (expression : string) :
  (exists prefix c, checksum_suffix expression prefix c)
  \/ (forall prefix c, ~ checksum_suffix expression prefix c).
Proof.
  destruct (match_checksum expression) as [m0|] eqn:Em.
  - left. destruct (match_checksum_sound _ _ Em) as (c & _ & Hs). eauto.
  - right. now apply match_checksum_none.
Qed.

Lemma isolate_cleared (cap : Capabilities) (expression : string)
    (checksumRequired : bool) (index : JsNumber) (body : string) :
  checksum_cleared cap expression checksumRequired body ->
  isolate cap expression checksumRequired index = particularize cap index body
  /\ has_star expression = has_star body.
Proof.
  intros [(c & Hs & Hc)|(Hno & -> & ->)].
  - split; [|now apply checksum_suffix_star with c].
    rewrite (isolate_suffix _ _ _ _ _ _ Hs), <- Hc. now rewrite String.eqb_refl.
  - split; [|reflexivity]. now rewrite isolate_no_suffix.
Qed.

Lemma isolate_needs_index (cap : Capabilities) (expression : string)
    (checksumRequired : bool) (index : JsNumber) :
  has_star expression = true -> nonneg_integer index = false ->
  succeeded (isolate cap expression checksumRequired index) = false.
Proof.
  intros Hstar Hi.
  destruct (checksum_suffix_dec expression) as [(prefix & c & Hs)|Hno].
  - rewrite (isolate_suffix _ _ _ _ _ _ Hs).
    rewrite (checksum_suffix_star _ _ _ Hs) in Hstar.
    destruct (_ =? _); [|reflexivity].
    destruct (particularize_spec cap index prefix) as (W & _).
    now rewrite (W Hstar Hi).
  - rewrite (isolate_no_suffix _ _ _ _ Hno).
    destruct checksumRequired; [reflexivity|].
    destruct (particularize_spec cap index expression) as (W & _).
    now rewrite (W Hstar Hi).
Qed.

(** C7. [isolate] checks a trailing [#checksum] against the checksum of the
    prefix and fails on a mismatch; it fails when a checksum is required and
    there is none; then, on an expression that contains a wildcard, it fails
    unless [index] is a non-negative integer, and otherwise answers the body
    with every [*] replaced by [index.toString()], which is the decimal
    digits of the index for a safe integer (below 2^53; from there on a
    number is printed by the shortest digits that read back as it, which
    are the runtime's); an expression without wildcard is answered as it
    is. *)
Theorem isolate_checksum_then_wildcards (cap : Capabilities)
    (expression : string) (checksumRequired : bool) (index : JsNumber) :
  let r := isolate cap expression checksumRequired index in
  (forall prefix c,
      checksum_suffix expression prefix c ->
      c <> DescriptorChecksum cap prefix -> r = Err BadChecksum)
  /\ ((forall prefix c, ~ checksum_suffix expression prefix c) ->
      checksumRequired = true -> r = Err MissingChecksum)
  /\ (has_star expression = true -> nonneg_integer index = false ->
      succeeded r = false)
  /\ (forall body,
         checksum_cleared cap expression checksumRequired body ->
         (has_star expression = true -> nonneg_integer index = false ->
          r = Err InvalidIndex)
         /\ (forall z, has_star expression = true -> index = JsInteger z ->
               (0 <= z)%Z ->
               r = Ok (String.concat (Number_toString (toString_beyond_safe cap) z)
                         (split_star body))
               /\ ((z < 2 ^ 53)%Z ->
                   Number_toString (toString_beyond_safe cap) z = Js.decimal (Z.to_N z)))
         /\ (has_star expression = false -> r = Ok body)).
Proof.
  intros r. subst r. split; [|split; [|split]].
  - intros prefix c Hs Hc. rewrite (isolate_suffix _ _ _ _ _ _ Hs).
    apply String.eqb_neq in Hc. now rewrite Hc.
  - intros Hno ->. now rewrite isolate_no_suffix.
  - apply isolate_needs_index.
  - intros body Hb. destruct (isolate_cleared cap _ _ index _ Hb) as [-> ->].
    destruct (particularize_spec cap index body) as (W1 & W2 & W3).
    split; [exact W1 | split; [|exact W3]].
    intros z Hstar Hi Hz. split; [now apply W2|].
    intros Hlt. apply Number_toString_decimal. lia.
Qed.
(** ** [expandMiniscript]: the references in the map are all different *)

Lemma obj_set_fresh (m : JsObject (Allocated KeyExpression)) (k : string)
    (a : nat) (e : KeyExpression) :
  NoDup (refs_of m) -> Forall (fun r => r < a) (refs_of m) ->
  NoDup (refs_of (obj_set m k {| ref := a; obj := e |}))
  /\ Forall (fun r => r < S a) (refs_of (obj_set m k {| ref := a; obj := e |})).
Proof.
  unfold refs_of, Object_values.
  induction m as [|[k' v'] m IH]; simpl; intros Hnd Hlt.
  - split; repeat constructor. intros [].
  - inversion Hnd as [|? ? Hnotin Hnd']; subst.
    inversion Hlt as [|? ? Hv Hlt']; subst.
    destruct (k' =? k); simpl.
    + split.
      * constructor; [|assumption]. intros Hin.
        rewrite Forall_forall in Hlt'. apply Hlt' in Hin. simpl in Hin. lia.
      * constructor; [simpl; lia|]. eapply Forall_impl; [|exact Hlt']. simpl; lia.
    + destruct (IH Hnd' Hlt') as [IH1 IH2]. split.
      * constructor; [|assumption]. intros Hin.
        rewrite Forall_forall in IH2. specialize (IH2 _ Hin). simpl in IH2.
        clear - Hin Hnotin Hv IH.
        assert (Hcases : forall r, In r (map ref (map snd (obj_set m k {| ref := a; obj := e |}))) ->
                                   r = a \/ In r (map ref (map snd m))).
        { clear. induction m as [|[k'' v''] m IHm]; simpl; intros r.
          - intros [<-|[]]. now left.
          - destruct (k'' =? k); simpl.
            + intros [<-|H]; [now left | now right; right].
            + intros [<-|H]; [now right; left|].
              destruct (IHm _ H); [now left | now right; right]. }
        destruct (Hcases _ Hin) as [Heq|Hold]; [lia | contradiction].
      * constructor; [lia | assumption].
Qed.

Lemma expand_segments_refs (cap : Capabilities) (isSegwit : bool) (network : Network)
    (segments : list Segment) :
  forall allocs m expanded m',
    expand_segments cap isSegwit network segments allocs m = Ok (expanded, m') ->
    NoDup (refs_of m) -> Forall (fun r => r < allocs) (refs_of m) ->
    NoDup (refs_of m').
Proof.
  induction segments as [|[t|keyExpression] rest IH]; simpl;
    intros allocs m expanded m' H Hnd Hlt.
  - now injection H as _ <-.
  - apply bind_Ok in H as ([tail m1] & H1 & H2). injection H2 as _ <-.
    eapply IH; eauto.
  - apply bind_Ok in H as (parsed & Hp & H).
    apply bind_Ok in H as ([tail m1] & H1 & H2). injection H2 as _ <-.
    destruct (obj_set_fresh m
                ("@" ++ Js.decimal (N.of_nat (List.length (Object_keys m))))
                allocs parsed Hnd Hlt) as [Hnd' Hlt'].
    eapply IH; eauto.
Qed.

Lemma Set_size_NoDup (refs : list nat) : NoDup refs -> Set_size refs = List.length refs.
Proof. intros H. unfold Set_size. now rewrite nodup_fixed_point. Qed.

(** The test for duplicates compares the objects [parseKeyExpression]
    returned, each a new one: it never fires, and [expandMiniscript] is the
    run over the key tokens and nothing else. *)
Lemma expandMiniscript_is_expand_segments (cap : Capabilities) (miniscript : string)
    (isSegwit : bool) (network : Network) :
  expandMiniscript cap miniscript isSegwit network =
  (r <- expand_segments cap isSegwit network (reKeyExp_scan cap miniscript) 0 [] ;;
   Ok (fst r, map (fun kv => (fst kv, obj (snd kv))) (snd r))).
Proof.
  unfold expandMiniscript.
  destruct (expand_segments _ _ _ _ _ _) as [[expanded m]|e] eqn:E; [|reflexivity].
  simpl. apply expand_segments_refs in E; [|constructor|constructor].
  unfold refs_of in E. rewrite (Set_size_NoDup _ E), length_map, Nat.eqb_refl.
  reflexivity.
Qed.

Lemma expand_segments_not_duplicate (cap : Capabilities) (isSegwit : bool)
    (network : Network) (segments : list Segment) :
  forall allocs m,
    expand_segments cap isSegwit network segments allocs m <> Err DuplicatePubkey.
Proof.
  induction segments as [|[t|keyExpression] rest IH]; simpl; intros allocs m H.
  - discriminate.
  - apply bind_Err in H as [H|([tail m1] & _ & H)]; [now apply IH in H | discriminate].
  - apply bind_Err in H as [H|(parsed & _ & H)].
    + apply call_not_own in H as (who & [=]).
    + apply bind_Err in H as [H|([tail m1] & _ & H)];
        [now apply IH in H | discriminate].
Qed.

Lemma expandMiniscript_not_duplicate (cap : Capabilities) (miniscript : string)
    (isSegwit : bool) (network : Network) :
  expandMiniscript cap miniscript isSegwit network <> Err DuplicatePubkey.
Proof.
  rewrite expandMiniscript_is_expand_segments. intros H.
  apply bind_Err in H as [H|(r & _ & H)];
    [now apply expand_segments_not_duplicate in H | discriminate].
Qed.

(** ** Reading a successful run backwards *)


Lemma gate_inv (cap : Capabilities) (script : Buffer) (max_size : nat) (u : unit) :
  gate cap script max_size = Ok u ->
  List.length script <= max_size
  /\ exists n, countNonPushOnlyOPs cap script = Ok n /\ n <= MAX_OPS_PER_SCRIPT.
Proof.
  unfold gate. intros H. steps H.
  apply Nat.ltb_ge in E. apply Nat.ltb_ge in E1. eauto.
Qed.

Lemma constructor_inv (cap : Capabilities) (p : Params) (d : t) :
  constructor cap p = Ok d ->
  exists isolatedExpression this,
    isolate cap (expression p) (checksumRequired p) (index p) = Ok isolatedExpression
    /\ dispatch cap p isolatedExpression = Ok this
    /\ probe cap p this = Ok d.
Proof. unfold constructor. intros H. steps H. eauto. Qed.

Lemma truthy_Some (o : option string) :
  Js.truthy o = true -> exists s, o = Some s /\ s <> "" /\ Js.str_of_opt o = s.
Proof.
  destruct o as [s|]; simpl; [|discriminate]. intros H. exists s.
  repeat split. apply negb_true_iff in H. now apply String.eqb_neq.
Qed.

Lemma sh_wsh_branch_inv (cap : Capabilities) (p : Params) (mo : option string) (this : t) :
  sh_wsh_branch cap p mo = Ok this ->
  exists miniscript script,
    Built cap p true MAX_STANDARD_P2WSH_SCRIPT_SIZE this miniscript script
    /\ mo = Some miniscript.
Proof.
  unfold sh_wsh_branch. intros H. steps H.
  apply negb_false_iff, truthy_Some in E as (ms & -> & Hne & Hs). simpl in *.
  match goal with G : gate _ _ _ = Ok _ |- _ =>
    destruct (gate_inv _ _ _ _ G) as [Hsz Hops] end.
  subst this. do 2 eexists. split; [constructor; simpl; eauto | reflexivity].
Qed.

Lemma wsh_branch_inv (cap : Capabilities) (p : Params) (mo : option string) (this : t) :
  wsh_branch cap p mo = Ok this ->
  exists miniscript script,
    Built cap p true MAX_STANDARD_P2WSH_SCRIPT_SIZE this miniscript script
    /\ mo = Some miniscript.
Proof.
  unfold wsh_branch. intros H. steps H.
  apply negb_false_iff, truthy_Some in E as (ms & -> & Hne & Hs). simpl in *.
  match goal with G : gate _ _ _ = Ok _ |- _ =>
    destruct (gate_inv _ _ _ _ G) as [Hsz Hops] end.
  subst this. do 2 eexists. split; [constructor; simpl; eauto | reflexivity].
Qed.

Lemma sh_branch_inv (cap : Capabilities) (p : Params) (mo : option string) (this : t) :
  sh_branch cap p mo = Ok this ->
  exists miniscript script,
    Built cap p false MAX_SCRIPT_ELEMENT_SIZE this miniscript script
    /\ mo = Some miniscript
    /\ (allowMiniscriptInP2SH p = true \/ search_template miniscript = 0%Z)
    /\ call (payments cap P2SH (FromRedeem (bare_output script)) (network p))
       = Ok (d_payment this).
Proof.
  unfold sh_branch. intros H. steps H.
  apply negb_false_iff, truthy_Some in E as (ms & -> & Hne & Hs). simpl in *.
  match goal with G : gate _ _ _ = Ok _ |- _ =>
    destruct (gate_inv _ _ _ _ G) as [Hsz Hops] end.
  subst this. do 2 eexists. split; [constructor; simpl; eauto|].
  repeat split; eauto.
  apply andb_false_iff in E0 as [E0|E0].
  - left. now apply negb_false_iff in E0.
  - right. apply negb_false_iff in E0. now apply Z.eqb_eq.
Qed.

Lemma key_branch_inv (cap : Capabilities) (p : Params) (iso : string)
    (keyExpression : option string) (render : string -> string) (isSegwit : bool)
    (expandedExpression : string) (pay : Buffer -> result Payment) (this : t) :
  key_branch cap p iso keyExpression render isSegwit expandedExpression pay = Ok this ->
  d_miniscript this = None /\ d_preimages this = preimages p.
Proof.
  unfold key_branch. intros H. steps H.
  destruct keyExpression; [|discriminate]. steps H. subst this. auto.
Qed.

Lemma addr_branch_inv (cap : Capabilities) (p : Params) (a : string) (this : t) :
  addr_branch cap p a = Ok this ->
  d_miniscript this = None /\ d_preimages this = preimages p.
Proof.
  unfold addr_branch. intros H.
  destruct (toOutputScript cap a (network p)); [|discriminate].
  destruct (try_payment _ _ _ _ _); [|discriminate].
  injection H as <-. auto.
Qed.

Lemma probe_inv (cap : Capabilities) (p : Params) (this d : t) :
  probe cap p this = Ok d ->
  d_payment d = d_payment this
  /\ d_preimages d = d_preimages this
  /\ d_miniscript d = d_miniscript this
  /\ d_witnessScript d = d_witnessScript this
  /\ d_isSegwit d = d_isSegwit this
  /\ d_expansionMap d = d_expansionMap this
  /\ d_network d = d_network this.
Proof.
  unfold probe. intros H. destruct (Js.truthy (d_miniscript this)).
  - destruct (d_isSegwit this) eqn:Es; [|discriminate]. steps H. subst d.
    unfold set_constraints; simpl. rewrite Es. repeat split; reflexivity.
  - injection H as <-. tauto.
Qed.

(** A descriptor the constructor returns with a miniscript came through one
    of the three miniscript branches. *)
Lemma dispatch_miniscript (cap : Capabilities) (p : Params) (iso : string) (this : t)
    (miniscript : string) :
  dispatch cap p iso = Ok this ->
  d_miniscript this = Some miniscript ->
  exists script,
    match shape_of cap iso with
    | ShWshShape | WshShape =>
        Built cap p true MAX_STANDARD_P2WSH_SCRIPT_SIZE this miniscript script
    | ShShape =>
        Built cap p false MAX_SCRIPT_ELEMENT_SIZE this miniscript script
        /\ call (payments cap P2SH (FromRedeem (bare_output script)) (network p))
           = Ok (d_payment this)
    | _ => False
    end.
Proof.
  unfold dispatch. intros H Hm.
  destruct (shape_of cap iso);
    try (apply key_branch_inv in H as [H _]; congruence).
  - apply addr_branch_inv in H as [H _]; congruence.
  - apply sh_wsh_branch_inv in H as (ms & script & B & _).
    destruct (built_miniscript _ _ _ _ _ _ _ B) as [Hms _].
    assert (ms = miniscript) by congruence. subst ms. eauto.
  - apply sh_branch_inv in H as (ms & script & B & _ & _ & Hp).
    destruct (built_miniscript _ _ _ _ _ _ _ B) as [Hms _].
    assert (ms = miniscript) by congruence. subst ms. eauto.
  - apply wsh_branch_inv in H as (ms & script & B & _).
    destruct (built_miniscript _ _ _ _ _ _ _ B) as [Hms _].
    assert (ms = miniscript) by congruence. subst ms. eauto.
  - discriminate.
Qed.

Lemma countNonPushOnlyOPs_bound (cap : Capabilities) (script : Buffer) (n : nat) :
  countNonPushOnlyOPs cap script = Ok n ->
  exists chunks, decompile cap script = Some chunks
                 /\ n = List.length (filter (chunk_gt_OP_16 cap) chunks)
                 /\ non_push_ops chunks <= n.
Proof.
  unfold countNonPushOnlyOPs. destruct (decompile cap script) as [chunks|]; [|discriminate].
  intros [= <-]. exists chunks. repeat split. unfold non_push_ops.
  induction chunks as [|[z|b] chunks IH]; simpl; [lia | |].
  - destruct (OP_16 <? z)%Z; simpl; lia.
  - destruct (Buffer_gt cap b OP_16); simpl; lia.
Qed.

(** C6. A descriptor with a miniscript that the constructor returns was
    built from the script [miniscript2Script] compiled for it, and that
    script obeys the limits: on the [wsh] and [sh(wsh)] branches it is the
    witness script and has at most 3600 bytes, on the bare [sh] branch it is
    the redeem script handed to [p2sh] and has at most 520 bytes, and in
    both cases it decompiles to at most 201 opcodes above [OP_16]. *)
Theorem constructor_resource_limits (cap : Capabilities) (p : Descriptor.Params)
    (d : Descriptor.t) (miniscript : string) :
  Descriptor.constructor cap p = Ok d ->
  Descriptor.d_miniscript d = Some miniscript ->
  exists isolatedExpression script chunks,
    isolate cap (Descriptor.expression p) (Descriptor.checksumRequired p)
      (Descriptor.index p) = Ok isolatedExpression
    /\ decompile cap script = Some chunks
    /\ non_push_ops chunks <= 201
    /\ match Descriptor.shape_of cap isolatedExpression with
       | Descriptor.ShWshShape | Descriptor.WshShape =>
           miniscript2Script cap miniscript true (Descriptor.network p) = Ok script
           /\ Descriptor.d_witnessScript d = Some script
           /\ List.length script <= 3600
       | Descriptor.ShShape =>
           miniscript2Script cap miniscript false (Descriptor.network p) = Ok script
           /\ payments cap P2SH (FromRedeem (bare_output script)) (Descriptor.network p)
              = Returned (Descriptor.d_payment d)
           /\ List.length script <= 520
       | _ => False
       end.
Proof.
  intros H Hm. apply constructor_inv in H as (iso & this & Hi & Hd & Hp).
  apply probe_inv in Hp as (Hpay & _ & Hms & Hw & _).
  rewrite Hms in Hm. destruct (dispatch_miniscript _ _ _ _ _ Hd Hm) as (script & B).
  assert (Hops : forall isSegwit limit,
             Built cap p isSegwit limit this miniscript script ->
             exists chunks, decompile cap script = Some chunks
                            /\ non_push_ops chunks <= 201).
  { intros s l B'. destruct (built_ops _ _ _ _ _ _ _ B') as (n & Hn & Hle).
    apply countNonPushOnlyOPs_bound in Hn as (chunks & Hc & _ & Hb).
    exists chunks. split; [assumption|]. unfold MAX_OPS_PER_SCRIPT in Hle. lia. }
  exists iso, script.
  destruct (shape_of cap iso); try contradiction.
  - destruct (Hops _ _ B) as (chunks & Hc & Hb). exists chunks.
    repeat split; auto.
    + apply (built_script _ _ _ _ _ _ _ B).
    + rewrite Hw. apply (built_witness _ _ _ _ _ _ _ B).
    + apply (built_size _ _ _ _ _ _ _ B).
  - destruct B as [B Hpay']. destruct (Hops _ _ B) as (chunks & Hc & Hb). exists chunks.
    repeat split; auto.
    + apply (built_script _ _ _ _ _ _ _ B).
    + rewrite Hpay. destruct (payments cap P2SH _ _); simpl in Hpay'; congruence.
    + apply (built_size _ _ _ _ _ _ _ B).
  - destruct (Hops _ _ B) as (chunks & Hc & Hb). exists chunks.
    repeat split; auto.
    + apply (built_script _ _ _ _ _ _ _ B).
    + rewrite Hw. apply (built_witness _ _ _ _ _ _ _ B).
    + apply (built_size _ _ _ _ _ _ _ B).
Qed.

(** The other way round: when the compiled script of a miniscript branch
    is over its size limit, or holds more than 201 opcodes above [OP_16],
    no descriptor is built. *)
Lemma constructor_fails_over_limits (cap : Capabilities) (p : Descriptor.Params)
    (isolatedExpression : string) (script : Buffer) (chunks : list Chunk) :
  isolate cap (Descriptor.expression p) (Descriptor.checksumRequired p)
    (Descriptor.index p) = Ok isolatedExpression ->
  decompile cap script = Some chunks ->
  let inner pat := Js.str_of_opt (Descriptor.group cap pat 1 isolatedExpression) in
  let compiled_by pat isSegwit limit :=
    miniscript2Script cap (inner pat) isSegwit (Descriptor.network p) = Ok script
    /\ (limit < List.length script \/ 201 < non_push_ops chunks) in
  match Descriptor.shape_of cap isolatedExpression with
  | Descriptor.ShWshShape => compiled_by reShWshMiniscriptAnchored true 3600
  | Descriptor.WshShape => compiled_by reWshMiniscriptAnchored true 3600
  | Descriptor.ShShape => compiled_by reShMiniscriptAnchored false 520
  | _ => False
  end ->
  succeeded (Descriptor.constructor cap p) = false.
Proof.
  intros Hi Hc inner compiled_by Hover.
  destruct (constructor cap p) as [d|] eqn:E; [exfalso | reflexivity].
  apply constructor_inv in E as (iso & this & Hi' & Hd & _).
  assert (iso = isolatedExpression) by congruence. subst iso.
  assert (Hbound : forall isSegwit limit miniscript script',
             Built cap p isSegwit limit this miniscript script' ->
             miniscript2Script cap miniscript isSegwit (network p) = Ok script ->
             List.length script <= limit /\ non_push_ops chunks <= 201).
  { intros seg limit ms script' B Hms.
    pose proof (built_script _ _ _ _ _ _ _ B) as Hs.
    assert (script' = script) by congruence. subst script'.
    split; [apply (built_size _ _ _ _ _ _ _ B)|].
    destruct (built_ops _ _ _ _ _ _ _ B) as (n & Hn & Hle).
    apply countNonPushOnlyOPs_bound in Hn as (chunks' & Hc' & _ & Hb).
    assert (chunks' = chunks) by congruence. subst chunks'.
    unfold MAX_OPS_PER_SCRIPT in Hle. lia. }
  unfold dispatch in Hd. subst compiled_by inner. cbv beta in Hover.
  destruct (shape_of cap isolatedExpression); try contradiction;
    destruct Hover as [Hms Hover].
  - apply sh_wsh_branch_inv in Hd as (ms & script' & B & Hmo).
    rewrite Hmo in Hms. destruct (Hbound _ _ _ _ B Hms).
    unfold MAX_STANDARD_P2WSH_SCRIPT_SIZE in *. lia.
  - apply sh_branch_inv in Hd as (ms & script' & B & Hmo & _).
    rewrite Hmo in Hms. destruct (Hbound _ _ _ _ B Hms).
    unfold MAX_SCRIPT_ELEMENT_SIZE in *. lia.
  - apply wsh_branch_inv in Hd as (ms & script' & B & Hmo).
    rewrite Hmo in Hms. destruct (Hbound _ _ _ _ B Hms).
    unfold MAX_STANDARD_P2WSH_SCRIPT_SIZE in *. lia.
Qed.

(** ** Hex *)

Lemma hex_value_digit (n : N) : (n < 16)%N -> hex_value (hex_digit n) = Some n.
Proof.
  intros H.
  assert (Hcases : In n (map N.of_nat (seq 0 16))).
  { replace n with (N.of_nat (N.to_nat n)) by apply N2Nat.id.
    apply in_map, in_seq. lia. }
  simpl in Hcases.
  repeat (destruct Hcases as [<-|Hcases]; [reflexivity|]). contradiction.
Qed.

Lemma hex_digit_inj (n m : N) :
  (n < 16)%N -> (m < 16)%N -> hex_digit n = hex_digit m -> n = m.
Proof.
  intros Hn Hm H. apply hex_value_digit in Hn, Hm. congruence.
Qed.

Lemma toHex_inj (a b : Buffer) : toHex a = toHex b -> a = b.
Proof.
  revert b; induction a as [|x a IH]; intros [|y b]; simpl; try discriminate;
    [reflexivity|].
  intros [= H1 H2 H3]. f_equal; [|now apply IH].
  pose proof (Byte.to_N_bounded x) as Hx. pose proof (Byte.to_N_bounded y) as Hy.
  apply hex_digit_inj in H1; [|apply N.Div0.div_lt_upper_bound; lia ..].
  apply hex_digit_inj in H2; [|apply N.mod_lt; lia ..].
  assert (E : Byte.to_N x = Byte.to_N y).
  { rewrite (N.div_mod (Byte.to_N x) 16), (N.div_mod (Byte.to_N y) 16) by lia.
    congruence. }
  pose proof (Byte.of_to_N x) as Ex. pose proof (Byte.of_to_N y) as Ey.
  congruence.
Qed.

(** ** The knowns of [satisfyMiniscript] *)

Lemma obj_set_keys {V : Type} (o : JsObject V) (k : string) (v : V) (k' : string) :
  In k' (Object_keys (obj_set o k v)) <-> k' = k \/ In k' (Object_keys o).
Proof.
  unfold Object_keys. induction o as [|[k0 v0] o IH]; simpl.
  - intuition.
  - destruct (String.eqb_spec k0 k) as [->|Hne]; simpl; [intuition|].
    rewrite IH. intuition.
Qed.

Lemma fold_obj_set_keys {V X : Type} (key : X -> string) (val : X -> V)
    (l : list X) (o : JsObject V) (k : string) :
  In k (Object_keys (fold_left (fun m x => obj_set m (key x) (val x)) l o))
  <-> In k (Object_keys o) \/ exists x, In x l /\ key x = k.
Proof.
  revert o; induction l as [|x l IH]; simpl; intros o.
  - split; [auto | intros [H|(x & [] & _)]; exact H].
  - rewrite IH, obj_set_keys. split.
    + intros [[->|H]|(y & Hy & <-)]; eauto.
    + intros [H|(y & [<-|Hy] & <-)]; eauto.
Qed.

Lemma obj_spread_keys {V : Type} (a b : JsObject V) (k : string) :
  In k (Object_keys (obj_spread a b)) <-> In k (Object_keys a) \/ In k (Object_keys b).
Proof.
  unfold obj_spread.
  rewrite (fold_obj_set_keys (fun kv : string * V => fst kv) (fun kv => snd kv)).
  unfold Object_keys. split; (intros [H|H]; [now left | right]).
  - destruct H as (x & Hx & <-). now apply in_map.
  - apply in_map_iff in H as (x & <- & Hx). eauto.
Qed.

Lemma obj_get_In {V : Type} (o : JsObject V) (k : string) (v : V) :
  obj_get o k = Some v -> In (k, v) o.
Proof.
  induction o as [|[k0 v0] o IH]; simpl; [discriminate|].
  destruct (String.eqb_spec k0 k) as [->|Hne]; [intros [= ->]; auto | auto].
Qed.

Lemma find_none_all {A : Type} (test : A -> bool) (l : list A) :
  (forall x, In x l -> test x = false) -> find test l = None.
Proof.
  induction l as [|x l IH]; simpl; intros H; [reflexivity|].
  rewrite (H x) by auto. apply IH. auto.
Qed.

(** A signature whose pubkey is not in the expansion map is not left out:
    [find] answers [undefined], and the signature is entered under the key
    [<sig(undefined)>]. *)
Lemma unmatched_signature_key (expansionMap : ExpansionMap)
    (signatures : list PartialSig) (preimages : list Preimage) (signature : PartialSig) :
  In signature signatures ->
  (forall k e, In (k, e) expansionMap -> pubkey e <> sig_pubkey signature) ->
  In "<sig(undefined)>" (knowns_of expansionMap signatures preimages).
Proof.
  intros Hin Hno. unfold knowns_of, expandedKnownsMap_of.
  apply obj_spread_keys. right. unfold expandedSignatureMap_of.
  apply fold_obj_set_keys. right. exists signature. split; [exact Hin|].
  rewrite find_none_all; [reflexivity|].
  intros k _. destruct (obj_get expansionMap k) as [e|] eqn:E; [|reflexivity].
  apply String.eqb_neq. intros Heq. apply toHex_inj in Heq.
  apply obj_get_In in E. now apply Hno in E.
Qed.

(** ** [finalizePsbtInput] *)

Lemma getScriptSatisfaction_no_miniscript (cap : Capabilities) (this : t)
    (signatures : list PartialSig) :
  Js.truthy (d_miniscript this) = false ->
  getScriptSatisfaction cap this signatures = Err NoMiniscript.
Proof. intros H. unfold getScriptSatisfaction. now rewrite H. Qed.

Lemma finalizePsbtInput_no_miniscript (cap : Capabilities) (this : t) (index : Z)
    (psbt : Psbt) (input : PsbtInputExtended) (signatures : list PartialSig) :
  Js.truthy (d_miniscript this) = false ->
  array_get (inputs psbt) index = Some input ->
  partialSig input = Some signatures ->
  finalizePsbtInput cap this index psbt = Err NoMiniscript.
Proof.
  intros Hm Hi Hs. unfold finalizePsbtInput. rewrite Hi, Hs.
  now rewrite getScriptSatisfaction_no_miniscript.
Qed.

Lemma constructor_key_only (cap : Capabilities) (p : Params) (d : t) (iso : string) :
  constructor cap p = Ok d ->
  isolate cap (expression p) (checksumRequired p) (index p) = Ok iso ->
  has_miniscript (shape_of cap iso) = false ->
  d_miniscript d = None.
Proof.
  intros H Hi Hs. apply constructor_inv in H as (iso' & this & Hi' & Hd & Hp).
  assert (iso' = iso) by congruence. subst iso'.
  apply probe_inv in Hp as (_ & _ & -> & _).
  unfold dispatch in Hd.
  destruct (shape_of cap iso); try discriminate;
    try (now apply key_branch_inv in Hd as [Hd _]).
  now apply addr_branch_inv in Hd as [Hd _].
Qed.

(** ** Preimages *)

Lemma satisfyMiniscript_preimages (cap : Capabilities) (miniscript : string)
    (isSegwit : bool) (signatures : list PartialSig) (ps ps' : list Preimage)
    (constraints : option Constraints) (network : Network) :
  preimageMap_of ps = preimageMap_of ps' ->
  satisfyMiniscript cap miniscript isSegwit signatures ps constraints network
  = satisfyMiniscript cap miniscript isSegwit signatures ps' constraints network.
Proof.
  intros H. unfold satisfyMiniscript, expandedKnownsMap_of. now rewrite H.
Qed.

Lemma dispatch_with_preimages (cap : Capabilities) (p : Params) (ps : list Preimage)
    (iso : string) :
  dispatch cap (with_preimages p ps) iso
  = (this <- dispatch cap p iso ;; Ok (set_preimages this ps)).
Proof.
  unfold dispatch. destruct (shape_of cap iso);
    unfold addr_branch, key_branch, sh_wsh_branch, sh_branch, wsh_branch,
      try_payment;
    cbn [network preimages allowMiniscriptInP2SH with_preimages];
    same_calls.
Qed.

Lemma probe_with_preimages (cap : Capabilities) (p : Params) (ps : list Preimage)
    (this : t) :
  Js.truthy (d_miniscript this) = false
  \/ preimageMap_of ps = preimageMap_of (preimages p) ->
  probe cap (with_preimages p ps) (set_preimages this ps)
  = (d <- probe cap p this ;; Ok (set_preimages d ps)).
Proof.
  intros H. unfold probe. cbn [d_miniscript d_isSegwit set_preimages].
  destruct (Js.truthy (d_miniscript this)) eqn:Et; [|reflexivity].
  destruct H as [H|H]; [discriminate|].
  destruct (d_isSegwit this); [|reflexivity].
  unfold signers_of. cbn [signersKeyExpressions network preimages with_preimages].
  destruct (match signersKeyExpressions p with Some _ => _ | None => _ end)
    as [signers|]; [|reflexivity].
  cbn [bind]. destruct (fakeSignatures_of _ _ _ _) as [fakes|]; [|reflexivity].
  cbn [bind].
  rewrite (satisfyMiniscript_preimages cap _ _ fakes ps (preimages p) None _ H).
  destruct (satisfyMiniscript _ _ _ _ _ _ _); reflexivity.
Qed.

(** ** The probe that ends the constructor *)

Lemma dispatch_has_miniscript (cap : Capabilities) (p : Params) (iso : string) (this : t) :
  dispatch cap p iso = Ok this ->
  has_miniscript (shape_of cap iso) = true ->
  exists miniscript isSegwit,
    d_miniscript this = Some miniscript /\ miniscript <> ""
    /\ d_isSegwit this = Some isSegwit.
Proof.
  unfold dispatch. intros H Hs.
  destruct (shape_of cap iso); try discriminate.
  - apply sh_wsh_branch_inv in H as (ms & script & B & _).
    destruct (built_miniscript _ _ _ _ _ _ _ B). pose proof (built_isSegwit _ _ _ _ _ _ _ B).
    eauto.
  - apply sh_branch_inv in H as (ms & script & B & _).
    destruct (built_miniscript _ _ _ _ _ _ _ B). pose proof (built_isSegwit _ _ _ _ _ _ _ B).
    eauto.
  - apply wsh_branch_inv in H as (ms & script & B & _).
    destruct (built_miniscript _ _ _ _ _ _ _ B). pose proof (built_isSegwit _ _ _ _ _ _ _ B).
    eauto.
Qed.

Lemma fakeSignatures_zero (cap : Capabilities) (net : Network) (isSegwit : bool)
    (signers : list string) :
  forall fakes,
    fakeSignatures_of cap net isSegwit signers = Ok fakes ->
    Forall (fun f => sig_signature f = repeat Byte.x00 64) fakes
    /\ Forall2
         (fun keyExpression f =>
            exists parsed,
              parseKeyExpression cap keyExpression net isSegwit = Ok parsed
              /\ sig_pubkey f = pubkey parsed)
         signers fakes.
Proof.
  unfold fakeSignatures_of.
  induction signers as [|s signers IH]; simpl; intros fakes H.
  - injection H as <-. split; constructor.
  - destruct (parseKeyExpression cap s net isSegwit) as [parsed|] eqn:Ep;
      [|discriminate]. cbn [bind] in H.
    destruct (mapM _ signers) as [rest|]; [|discriminate]. cbn [bind] in H.
    injection H as <-. destruct (IH _ eq_refl) as [IH1 IH2].
    split; constructor; simpl; eauto.
Qed.








(** ** The template gate of [sh(...)] *)

Lemma search_template_spec (miniscript : string) :
  search_template miniscript = 0%Z <->
  exists kw, In kw template_keywords /\ String.prefix kw miniscript = true.
Proof.
  unfold search_template.
  destruct (existsb _ template_keywords) eqn:E.
  - apply existsb_exists in E. tauto.
  - split; [discriminate|]. intros (kw & Hin & Hp).
    assert (existsb (fun kw => String.prefix kw miniscript) template_keywords = true)
      by (apply existsb_exists; eauto).
    congruence.
Qed.

(** C8, as the code has it. On the [sh(miniscript)] branch, without
    [allowMiniscriptInP2SH] the constructor fails unless the inner
    expression begins with one of the eight template keywords. With the
    flag, or on a template, the keyword plays no part any more: the
    constructor returns what the remaining steps return, that is expansion,
    compilation of a sane script, the limits of 520 bytes and 201 opcodes,
    the [p2sh] payment and the probe with fake signatures. *)
Theorem sh_template_gate (cap : Capabilities) (p : Descriptor.Params)
    (isolatedExpression : string) :
  isolate cap (Descriptor.expression p) (Descriptor.checksumRequired p)
    (Descriptor.index p) = Ok isolatedExpression ->
  Descriptor.shape_of cap isolatedExpression = Descriptor.ShShape ->
  let inner := Descriptor.group cap reShMiniscriptAnchored 1 isolatedExpression in
  let miniscript := Js.str_of_opt inner in
  let is_template :=
    exists kw, In kw Descriptor.template_keywords
               /\ String.prefix kw miniscript = true in
  (Descriptor.allowMiniscriptInP2SH p = false ->
   forall d, Descriptor.constructor cap p = Ok d -> is_template)
  /\ (Descriptor.allowMiniscriptInP2SH p = false -> Js.truthy inner = true ->
      ~ is_template ->
      Descriptor.constructor cap p = Err MiniscriptInP2SHDisallowed)
  /\ (Descriptor.allowMiniscriptInP2SH p = true \/ is_template ->
      Js.truthy inner = true ->
      Descriptor.constructor cap p =
      (expansion <- expandMiniscript cap miniscript false (Descriptor.network p) ;;
       script <- miniscript2Script cap miniscript false (Descriptor.network p) ;;
       _ <- Descriptor.gate cap script MAX_SCRIPT_ELEMENT_SIZE ;;
       payment <-
         call (payments cap P2SH (FromRedeem (bare_output script))
                 (Descriptor.network p)) ;;
       Descriptor.probe cap p
         (Descriptor.fields (Descriptor.network p) (Descriptor.preimages p) payment
            (Some miniscript) None (Some false)
            (Some ("sh(" ++ fst expansion ++ ")")) (Some (fst expansion))
            (Some (snd expansion))))).
Proof.
  intros Hi Hs inner miniscript is_template.
  assert (Hc : constructor cap p = (this <- sh_branch cap p inner ;; probe cap p this)).
  { unfold constructor. rewrite Hi. cbn [bind]. unfold dispatch. now rewrite Hs. }
  split; [|split].
  - intros Hallow d Hd. rewrite Hc in Hd. steps Hd.
    apply sh_branch_inv in E as (ms & script & _ & Hin & [Ha|Hk] & _).
    + congruence.
    + subst is_template miniscript. fold inner. rewrite Hin. simpl.
      now apply search_template_spec.
  - intros Hallow Ht Hno. rewrite Hc. unfold sh_branch. rewrite Ht, Hallow. simpl.
    fold miniscript.
    destruct (search_template miniscript =? 0)%Z eqn:E; [|reflexivity].
    apply Z.eqb_eq, search_template_spec in E. contradiction.
  - intros Hor Ht. rewrite Hc. unfold sh_branch. rewrite Ht. simpl. fold miniscript.
    assert (Hg : negb (allowMiniscriptInP2SH p)
                 && negb (search_template miniscript =? 0)%Z = false).
    { destruct Hor as [->|Hk]; [reflexivity|].
      apply search_template_spec in Hk. rewrite Hk. simpl. apply andb_false_r. }
    rewrite Hg.
    destruct (expandMiniscript cap miniscript false (network p)) as [[em map]|e];
      [|reflexivity].
    cbn [bind fst snd].
    destruct (miniscript2Script cap miniscript false (network p)); [|reflexivity].
    cbn [bind]. destruct (gate cap a MAX_SCRIPT_ELEMENT_SIZE); [|reflexivity].
    cbn [bind]. destruct (call _); reflexivity.
Qed.

(** ** [satisfyMiniscript]: which satisfaction is taken *)

Lemma option_eqb_eq (a b : option Z) : option_eqb a b = true <-> a = b.
Proof.
  destruct a as [x|], b as [y|]; simpl; split; try discriminate; try reflexivity.
  - intros H. apply Z.eqb_eq in H. now subst.
  - intros [= ->]. apply Z.eqb_refl.
Qed.

Lemma meets_spec (c : Constraints) (sat : Sat) :
  meets c sat = true <->
  sat_nLockTime sat = c_nLockTime c /\ sat_nSequence sat = c_nSequence c.
Proof.
  unfold meets. rewrite andb_true_iff, !option_eqb_eq. tauto.
Qed.

Lemma find_first_such {A : Type} (test : A -> bool) (l : list A) :
  match find test l with
  | Some x => first_such test l x
  | None => Forall (fun y => test y = false) l
  end.
Proof.
  induction l as [|y l IH]; simpl; [constructor|].
  destruct (test y) eqn:E.
  - exists [], l. repeat split; auto.
  - destruct (find test l) as [x|].
    + destruct IH as (before & after & -> & Hx & Hb).
      exists (y :: before), after. repeat split; auto.
    + now constructor.
Qed.

Lemma first_such_find {A : Type} (test : A -> bool) (l : list A) (x : A) :
  first_such test l x -> find test l = Some x.
Proof.
  intros (before & after & -> & Hx & Hb).
  induction Hb as [|y before Hy Hb IH]; simpl; [now rewrite Hx | now rewrite Hy].
Qed.

Lemma none_such_find {A : Type} (test : A -> bool) (l : list A) :
  Forall (fun y => test y = false) l -> find test l = None.
Proof. induction 1 as [|y l Hy _ IH]; simpl; [reflexivity | now rewrite Hy]. Qed.

Lemma fold_left_Err {A B : Type} (f : result A -> B -> result A) (l : list B) (e : Error) :
  (forall b, f (Err e) b = Err e) -> fold_left f l (Err e) = Err e.
Proof. intros Hf. induction l as [|b l IH]; simpl; [reflexivity | now rewrite Hf]. Qed.

Lemma substitute_knowns_error (table : JsObject string) (asm0 : string) (e : Error) :
  substitute_knowns table asm0 = Err e -> e = InvalidKnownsMap.
Proof.
  unfold substitute_knowns. revert asm0.
  induction table as [|[search replace] table IH]; simpl; intros asm0; [discriminate|].
  destruct ((replace =? "") || (replace =? "<>")).
  - rewrite fold_left_Err by reflexivity. now intros [= <-].
  - apply IH.
Qed.

Lemma substituteAsm_error (cap : Capabilities) (expandedAsm : string)
    (expansionMap : ExpansionMap) (e : Error) :
  substituteAsm cap expandedAsm expansionMap = Err e -> e = InvalidExpansionMap.
Proof.
  unfold substituteAsm. intros H.
  apply bind_Err in H as [H|(a & _ & H)]; [|discriminate].
  revert expandedAsm H. generalize (Object_keys expansionMap) as keys.
  induction keys as [|key keys IH]; simpl; intros asm0; [discriminate|].
  destruct (option_map pubkey (obj_get expansionMap key)).
  - apply IH.
  - rewrite fold_left_Err by reflexivity. now intros [= <-].
Qed.

Lemma materialize_error (cap : Capabilities) (table : JsObject string)
    (expansionMap : ExpansionMap) (sat : Sat) (e : Error) :
  materialize cap table expansionMap sat = Err e ->
  e = InvalidKnownsMap \/ e = InvalidExpansionMap \/ exists who, e = External who.
Proof.
  unfold materialize. intros H.
  apply bind_Err in H as [H|(a & _ & H)]; [left; eapply substitute_knowns_error; eauto|].
  apply bind_Err in H as [H|(b & _ & H)];
    [right; left; eapply substituteAsm_error; eauto|].
  apply bind_Err in H as [H|(c & _ & H)]; [|discriminate].
  right; right. eapply call_not_own; eauto.
Qed.

Lemma materialize_fields (cap : Capabilities) (table : JsObject string)
    (expansionMap : ExpansionMap) (sat : Sat) (s : Satisfaction) :
  materialize cap table expansionMap sat = Ok s ->
  nLockTime s = sat_nLockTime sat /\ nSequence s = sat_nSequence sat.
Proof. unfold materialize. intros H. steps H. subst s. auto. Qed.

(** C5, as the code has it. Given what the engine answers, an empty list
    is [Unresolvable] whether constraints are given or not, and nothing
    else is; without constraints the first satisfaction is taken; with
    constraints and a list that is not empty, the first satisfaction whose
    [nLockTime] and [nSequence] both equal the constraints is taken, and
    [ConstraintsUnmet] is thrown when none does. The satisfaction taken is
    the one whose asm is materialized and whose [nLockTime] and [nSequence]
    are returned. *)
Theorem satisfyMiniscript_selection (cap : Capabilities) (miniscript : string)
    (isSegwit : bool) (signatures : list PartialSig) (preimages : list Preimage)
    (constraints : option Constraints) (network : Network)
    (expanded : string) (expansionMap : ExpansionMap) (sats : list Sat) :
  expandMiniscript cap miniscript isSegwit network = Ok (expanded, expansionMap) ->
  satisfier cap expanded (knowns_of expansionMap signatures preimages)
  = Returned (Some sats) ->
  let r := satisfyMiniscript cap miniscript isSegwit signatures preimages
             constraints network in
  let finish :=
    materialize cap (expandedKnownsMap_of expansionMap signatures preimages)
      expansionMap in
  (sats = [] <-> r = Err Unresolvable)
  /\ (constraints = None ->
      forall first others, sats = first :: others -> r = finish first)
  /\ (forall c, constraints = Some c -> sats <> [] ->
        (forall sat, first_such (meets c) sats sat -> r = finish sat)
        /\ (Forall (fun sat => meets c sat = false) sats -> r = Err ConstraintsUnmet))
  /\ (forall sat s, finish sat = Ok s ->
        nLockTime s = sat_nLockTime sat /\ nSequence s = sat_nSequence sat)
  /\ (forall c sat,
        meets c sat = true <->
        sat_nLockTime sat = c_nLockTime c /\ sat_nSequence sat = c_nSequence c).
Proof.
  intros He Hs r finish.
  assert (Hr : r = match sats with
                   | [] => Err Unresolvable
                   | first :: others =>
                       sat <- match constraints with
                              | None => Ok first
                              | Some c =>
                                  match find (meets c) (first :: others) with
                                  | Some sat => Ok sat
                                  | None => Err ConstraintsUnmet
                                  end
                              end ;;
                       finish sat
                   end).
  { subst r. unfold satisfyMiniscript. rewrite He. cbn [bind].
    unfold knowns_of in Hs. rewrite Hs. reflexivity. }
  split; [|split; [|split; [|split]]].
  - split; [intros ->; exact Hr|]. intros Hu. rewrite Hu in Hr.
    destruct sats as [|first others]; [reflexivity|]. exfalso.
    symmetry in Hr. apply bind_Err in Hr as [Hr|(sat & _ & Hr)].
    + destruct constraints as [c|]; [|discriminate].
      destruct (find (meets c) (first :: others)); discriminate.
    + apply materialize_error in Hr as [Hr|[Hr|(who & Hr)]]; discriminate.
  - intros -> first others ->. exact Hr.
  - intros c -> Hne. destruct sats as [|first others]; [contradiction|]. split.
    + intros sat Hf. apply first_such_find in Hf. rewrite Hr, Hf. reflexivity.
    + intros Hn. apply none_such_find in Hn. rewrite Hr, Hn. reflexivity.
  - intros sat s. apply materialize_fields.
  - intros c sat. apply meets_spec.
Qed.

(** ** [updatePsbt] *)

Lemma array_get_last {A : Type} (l : list A) (x : A) :
  array_get (l ++ [x])%list (Z.of_nat (List.length l)) = Some x.
Proof.
  unfold array_get.
  assert (E : (Z.of_nat (List.length l) <? 0)%Z = false) by (apply Z.ltb_ge; lia).
  rewrite E, Nat2Z.id, nth_error_app2, Nat.sub_diag by lia. reflexivity.
Qed.

(** C9. [updatePsbt] throws [NoSuchOutput] when the transaction has no
    output at [vout]; with a cached [nLockTime] it throws
    [LocktimeConflict] when the Psbt's locktime is set and not zero, and
    otherwise sets the locktime to the cached value; the new input is
    appended, its sequence is the cached [nSequence], else 0xFFFFFFFE when
    an [nLockTime] is cached, else absent; and the index returned is the
    one of that input. The call goes through whenever no conflict arises,
    for a segwit descriptor the payment has an output script, and the
    library refuses neither the locktime nor an input for this output;
    when the library refuses one of them, its throw is passed on. *)
Theorem updatePsbt_contract (cap : Capabilities) (this : Descriptor.t)
    (txHex : string) (vout : Z) (psbt : Psbt) (tx : Transaction) :
  Transaction_fromHex cap txHex = Returned tx ->
  let r := Descriptor.updatePsbt cap this txHex vout psbt in
  let expected_sequence :=
    match Descriptor.d_nSequence this, Descriptor.d_nLockTime this with
    | Some s, _ => Some s
    | None, Some _ => Some 0xFFFFFFFE%Z
    | None, None => None
    end in
  (array_get (outs tx) vout = None -> r = Err NoSuchOutput)
  /\ (forall out, array_get (outs tx) vout = Some out ->
      (forall lockTime l,
          Descriptor.d_nLockTime this = Some lockTime ->
          locktime psbt = Some l -> l <> 0%Z ->
          r = Err LocktimeConflict)
      /\ (forall index psbt',
            r = Ok (index, psbt') ->
            exists input,
              inputs psbt' = (inputs psbt ++ [input])%list
              /\ index = Z.of_nat (List.length (inputs psbt))
              /\ array_get (inputs psbt') index = Some input
              /\ in_index input = vout
              /\ sequence input = expected_sequence
              /\ locktime psbt' =
                 match Descriptor.d_nLockTime this with
                 | Some lockTime => Some lockTime
                 | None => locktime psbt
                 end)
      /\ ((Descriptor.d_nLockTime this = None
           \/ locktime psbt = None \/ locktime psbt = Some 0%Z) ->
          (Descriptor.d_isSegwit this = Some true ->
           output (Descriptor.d_payment this) <> None) ->
          (forall lockTime,
              Descriptor.d_nLockTime this = Some lockTime ->
              setLocktime_rejects cap psbt lockTime = false) ->
          (forall psbt1 input,
              inputs psbt1 = inputs psbt ->
              in_hash input = getHash tx -> in_index input = vout ->
              addInput_rejects cap psbt1 input = false) ->
          exists index psbt', r = Ok (index, psbt'))
      /\ (forall lockTime,
            Descriptor.d_nLockTime this = Some lockTime ->
            locktime psbt = None \/ locktime psbt = Some 0%Z ->
            setLocktime_rejects cap psbt lockTime = true ->
            r = Err (External "Psbt.setLocktime"))
      /\ ((Descriptor.d_nLockTime this = None
           \/ locktime psbt = None \/ locktime psbt = Some 0%Z) ->
          (Descriptor.d_isSegwit this = Some true ->
           output (Descriptor.d_payment this) <> None) ->
          (forall lockTime,
              Descriptor.d_nLockTime this = Some lockTime ->
              setLocktime_rejects cap psbt lockTime = false) ->
          (forall psbt1 input,
              inputs psbt1 = inputs psbt ->
              in_hash input = getHash tx -> in_index input = vout ->
              addInput_rejects cap psbt1 input = true) ->
          r = Err (External "Psbt.addInput"))).
Proof.
  intros Htx r expected_sequence. subst r. unfold updatePsbt.
  rewrite Htx. cbn [call bind]. split.
  - now intros ->.
  - intros out ->.
    assert (Hgo : (Descriptor.d_nLockTime this = None
                   \/ locktime psbt = None \/ locktime psbt = Some 0%Z) ->
                  (Descriptor.d_isSegwit this = Some true ->
                   output (Descriptor.d_payment this) <> None) ->
                  (forall lockTime,
                      Descriptor.d_nLockTime this = Some lockTime ->
                      setLocktime_rejects cap psbt lockTime = false) ->
                  exists psbt1 w,
                    match d_nLockTime this with
                    | Some lockTime =>
                        throw_if match locktime psbt with
                                 | Some l => negb (l =? 0)%Z
                                 | None => false
                                 end
                        then LocktimeConflict ;; call (setLocktime cap psbt lockTime)
                    | None => Ok psbt
                    end = Ok psbt1
                    /\ inputs psbt1 = inputs psbt
                    /\ match Descriptor.isSegwit this with
                       | Some true =>
                           script <- getScriptPubKey this ;;
                           Ok (Some (script, out_value out))
                       | _ => Ok None
                       end = Ok w).
    { intros Hok Hseg Hlock.
      assert (exists psbt1,
                 match d_nLockTime this with
                 | Some lockTime =>
                     throw_if match locktime psbt with
                              | Some l => negb (l =? 0)%Z
                              | None => false
                              end
                     then LocktimeConflict ;; call (setLocktime cap psbt lockTime)
                 | None => Ok psbt
                 end = Ok psbt1 /\ inputs psbt1 = inputs psbt)
        as (psbt1 & E1 & Hin).
      { destruct (d_nLockTime this) as [lockTime|]; [|eauto].
        unfold setLocktime. rewrite (Hlock lockTime eq_refl).
        destruct Hok as [Hok|[->| ->]]; [discriminate | |]; simpl; eauto. }
      exists psbt1.
      unfold Descriptor.isSegwit, getScriptPubKey.
      destruct (d_isSegwit this) as [[|]|]; cbn [bind]; eauto.
      destruct (output (d_payment this)); [cbn [bind]; eauto|].
      now destruct Hseg. }
    split; [|split; [|split; [|split]]].
    + intros lockTime l -> -> Hl. apply Z.eqb_neq in Hl. now rewrite Hl.
    + intros index psbt' H.
      destruct (match d_nLockTime this with
                | Some lockTime => _
                | None => Ok psbt
                end) as [a|] eqn:E; cbn [bind] in H; [|discriminate].
      destruct (match Descriptor.isSegwit this with
                | Some true => _
                | _ => Ok None
                end) as [w|] eqn:Ew; cbn [bind] in H; [|discriminate].
      assert (Ha : inputs a = inputs psbt
                   /\ locktime a = match d_nLockTime this with
                                   | Some lockTime => Some lockTime
                                   | None => locktime psbt
                                   end).
      { destruct (d_nLockTime this) as [lockTime|].
        - destruct (match locktime psbt with
                    | Some l => negb (l =? 0)%Z
                    | None => false
                    end); [discriminate E|]. cbn [bind] in E.
          unfold setLocktime in E.
          destruct (setLocktime_rejects cap psbt lockTime); [discriminate E|].
          cbn [call] in E. injection E as <-. split; reflexivity.
        - injection E as <-. split; reflexivity. }
      destruct Ha as [Hlen Hlock].
      unfold addInput in H.
      destruct (addInput_rejects cap a _); [discriminate H|].
      cbn [call bind] in H. injection H as <- <-.
      cbn [inputs locktime]. rewrite Hlen, List.length_app.
      cbn [List.length]. eexists. split; [reflexivity|].
      replace (Z.of_nat (List.length (inputs psbt) + 1) - 1)%Z
        with (Z.of_nat (List.length (inputs psbt))) by lia.
      split; [reflexivity|]. split; [apply array_get_last|].
      cbn [in_index sequence]. subst expected_sequence.
      repeat split; try assumption.
    + intros Hok Hseg Hlock Hinput.
      destruct (Hgo Hok Hseg Hlock) as (psbt1 & w & -> & Hin & ->).
      cbn [bind]. unfold addInput. rewrite Hinput by auto.
      cbn [call bind]. eauto.
    + intros lockTime -> Hok Hrej. unfold setLocktime. rewrite Hrej.
      destruct Hok as [->| ->]; reflexivity.
    + intros Hok Hseg Hlock Hinput.
      destruct (Hgo Hok Hseg Hlock) as (psbt1 & w & -> & Hin & ->).
      cbn [bind]. unfold addInput. rewrite Hinput by auto. reflexivity.
Qed.

(** * The statements of the specification, on the code and on the sample *)

(** C1 (the code does otherwise). The test for duplicate pubkeys compares
    the objects returned by [parseKeyExpression], never two the same, so
    [expandMiniscript] throws [DuplicatePubkey] on no input at all; on a
    miniscript whose two key tokens, different as strings, are the same
    public key, it returns an expansion map with that pubkey twice. *)
Theorem expandMiniscript_keeps_duplicate_pubkeys :
  (forall cap miniscript isSegwit network,
      expandMiniscript cap miniscript isSegwit network <> Err DuplicatePubkey)
  /\ Sample.K1 <> Sample.K1_upper
  /\ expandMiniscript Sample.cap
       ("and_v(v:pk(" ++ Sample.K1 ++ "),pk(" ++ Sample.K1_upper ++ "))") true bitcoin
     = Ok ("and_v(v:pk(@0),pk(@1))",
           [("@0", Sample.key Sample.key1); ("@1", Sample.key Sample.key1)]).
Proof.
  split; [exact expandMiniscript_not_duplicate|].
  split; [discriminate | vm_compute; reflexivity].
Qed.

(** C2 (the code does otherwise). A signature whose pubkey is not in the
    expansion map is entered in the knowns under [<sig(undefined)>]; on the
    sample, the satisfier is called with that key next to [<sig(@0)>]. *)
Theorem unmatched_signature_reaches_satisfier :
  (forall (expansionMap : ExpansionMap) signatures preimages signature,
      In signature signatures ->
      (forall k e, In (k, e) expansionMap -> pubkey e <> sig_pubkey signature) ->
      In "<sig(undefined)>" (knowns_of expansionMap signatures preimages))
  /\ satisfyMiniscript Sample.reporting ("pk(" ++ Sample.K1 ++ ")") true
       [Sample.signature1; Sample.stray_signature] [] None bitcoin
     = Err (External "<sig(@0)>,<sig(undefined)>")
  /\ satisfyMiniscript Sample.reporting ("pk(" ++ Sample.K1 ++ ")") true
       [Sample.signature1] [] None bitcoin
     = Err (External "<sig(@0)>").
Proof.
  split; [exact unmatched_signature_key|].
  split; vm_compute; reflexivity.
Qed.

(** An unmatched signature can change the result: with no bytes in it, the
    call throws where the matched signature alone is satisfied. *)
Lemma unmatched_empty_signature_throws :
  satisfyMiniscript Sample.cap ("pk(" ++ Sample.K1 ++ ")") true
    [Sample.signature1; {| sig_pubkey := Sample.key2; sig_signature := [] |}]
    [] None bitcoin
  = Err InvalidKnownsMap
  /\ succeeded
       (satisfyMiniscript Sample.cap ("pk(" ++ Sample.K1 ++ ")") true
          [Sample.signature1] [] None bitcoin)
     = true.
Proof. split; vm_compute; reflexivity. Qed.

Lemma finalizePsbtInput_own_finalizer (cap : Capabilities) (this : Descriptor.t)
    (index : Z) (psbt psbt' : Psbt) :
  Descriptor.finalizePsbtInput cap this index psbt = Ok psbt' ->
  exists s,
    finalizeInput psbt index (SatisfactionFinalizer s (Descriptor.d_network this))
    = Ok psbt'.
Proof.
  unfold Descriptor.finalizePsbtInput. intros H.
  destruct (match array_get (inputs psbt) index with
            | Some input => partialSig input
            | None => None
            end); [|discriminate].
  steps H. simpl in H. eauto.
Qed.

(** C3 (the code does otherwise). A descriptor without miniscript, as the
    key-only branches build it, cannot finalize an input that has
    signatures: [getScriptSatisfaction] throws [NoMiniscript] before any
    finalizer is chosen, and when [finalizePsbtInput] does return it has
    called [finalizeInput] with the finalizer made from the satisfaction,
    never the default one. On the sample, [pkh(K1)] and a signed input. *)
Theorem finalizePsbtInput_key_only_throws :
  (forall cap this index psbt input signatures,
      Js.truthy (Descriptor.d_miniscript this) = false ->
      array_get (inputs psbt) index = Some input ->
      partialSig input = Some signatures ->
      Descriptor.finalizePsbtInput cap this index psbt = Err NoMiniscript)
  /\ (forall cap p d isolatedExpression,
        Descriptor.constructor cap p = Ok d ->
        isolate cap (Descriptor.expression p) (Descriptor.checksumRequired p)
          (Descriptor.index p) = Ok isolatedExpression ->
        Descriptor.has_miniscript (Descriptor.shape_of cap isolatedExpression) = false ->
        Descriptor.d_miniscript d = None)
  /\ (forall cap this index psbt psbt',
        Descriptor.finalizePsbtInput cap this index psbt = Ok psbt' ->
        exists s,
          finalizeInput psbt index
            (SatisfactionFinalizer s (Descriptor.d_network this)) = Ok psbt')
  /\ exists d,
       Descriptor.constructor Sample.cap Sample.pkh_K1 = Ok d
       /\ Descriptor.finalizePsbtInput Sample.cap d 0 Sample.signed_psbt
          = Err NoMiniscript.
Proof.
  split; [exact finalizePsbtInput_no_miniscript|].
  split; [exact constructor_key_only|].
  split; [exact finalizePsbtInput_own_finalizer|].
  eexists. split; [vm_compute; reflexivity | vm_compute; reflexivity].
Qed.

(** C4, disproved as stated: the constructor accepts a preimage whose digest
    names none of the four hash functions and whose preimage is not hex. *)
Lemma constructor_accepts_ill_formed_preimage :
  digest_well_formed (digest Sample.ill_formed_preimage) = false
  /\ preimage_well_formed Sample.ill_formed_preimage = false
  /\ Descriptor.constructor Sample.cap
       (Descriptor.with_preimages Sample.pkh_K1 [Sample.ill_formed_preimage])
     = Ok (Descriptor.set_preimages Sample.pkh_descriptor
             [Sample.ill_formed_preimage]).
Proof. repeat split; vm_compute; reflexivity. Qed.

(** C4, as the code has it. The constructor stores the preimages as they
    are given and checks none of them: a descriptor without miniscript is
    built whatever the preimages are, and a descriptor with a miniscript
    depends on them only through the table that [satisfyMiniscript] makes
    of them, keyed by the digest text with its first [(] replaced by
    [_preimage(]. *)
Theorem constructor_does_not_validate_preimages (cap : Capabilities)
    (p : Descriptor.Params) (d : Descriptor.t) :
  Descriptor.constructor cap p = Ok d ->
  Descriptor.d_preimages d = Descriptor.preimages p
  /\ (Js.truthy (Descriptor.d_miniscript d) = false ->
      forall ps,
        Descriptor.constructor cap (Descriptor.with_preimages p ps)
        = Ok (Descriptor.set_preimages d ps))
  /\ (forall ps,
        preimageMap_of ps = preimageMap_of (Descriptor.preimages p) ->
        Descriptor.constructor cap (Descriptor.with_preimages p ps)
        = Ok (Descriptor.set_preimages d ps)).
Proof.
  intros H. apply constructor_inv in H as (iso & this & Hi & Hd & Hp).
  pose proof (probe_inv _ _ _ _ Hp) as (_ & Hpre & Hms & _).
  assert (Hthis : d_preimages this = preimages p).
  { unfold dispatch in Hd.
    destruct (shape_of cap iso); try discriminate;
      try (now apply key_branch_inv in Hd as [_ Hd]).
    - now apply addr_branch_inv in Hd as [_ Hd].
    - apply sh_wsh_branch_inv in Hd as (ms & script & B & _).
      apply (built_preimages _ _ _ _ _ _ _ B).
    - apply sh_branch_inv in Hd as (ms & script & B & _).
      apply (built_preimages _ _ _ _ _ _ _ B).
    - apply wsh_branch_inv in Hd as (ms & script & B & _).
      apply (built_preimages _ _ _ _ _ _ _ B). }
  assert (Hgo : forall ps,
             Js.truthy (d_miniscript this) = false
             \/ preimageMap_of ps = preimageMap_of (preimages p) ->
             constructor cap (with_preimages p ps) = Ok (set_preimages d ps)).
  { intros ps Hor. unfold constructor.
    cbn [expression checksumRequired index with_preimages]. rewrite Hi. cbn [bind].
    rewrite dispatch_with_preimages, Hd. cbn [bind].
    rewrite (probe_with_preimages _ _ _ _ Hor), Hp. reflexivity. }
  split; [congruence|]. split.
  - intros Hm ps. apply Hgo. left. now rewrite <- Hms.
  - intros ps Hps. apply Hgo. now right.
Qed.

(** C4 on the sample: [pkh(K1)] is built, and built the same with an
    ill-formed preimage in the list. *)
Lemma constructor_does_not_validate_preimages_witness :
  Descriptor.constructor Sample.cap Sample.pkh_K1 = Ok Sample.pkh_descriptor
  /\ Descriptor.constructor Sample.cap
       (Descriptor.with_preimages Sample.pkh_K1 [Sample.ill_formed_preimage])
     = Ok (Descriptor.set_preimages Sample.pkh_descriptor
             [Sample.ill_formed_preimage]).
Proof.
  assert (H : Descriptor.constructor Sample.cap Sample.pkh_K1
              = Ok Sample.pkh_descriptor) by (vm_compute; reflexivity).
  split; [exact H|].
  apply (proj1 (proj2 (constructor_does_not_validate_preimages
                         Sample.cap Sample.pkh_K1 Sample.pkh_descriptor H))).
  vm_compute; reflexivity.
Defined.

(** C5, disproved as stated: with constraints given and an engine that
    offers no satisfaction, none matches the constraints, and the call
    throws [Unresolvable], not [ConstraintsUnmet]. *)
Lemma constraints_on_empty_list_is_Unresolvable :
  satisfier Sample.cap "pk(@0)" (knowns_of [("@0", Sample.key Sample.key1)] [] [])
  = Returned (Some [])
  /\ satisfyMiniscript Sample.cap ("pk(" ++ Sample.K1 ++ ")") true [] []
       (Some {| c_nLockTime := None; c_nSequence := None |}) bitcoin
     = Err Unresolvable
  /\ satisfyMiniscript Sample.cap ("pk(" ++ Sample.K1 ++ ")") true [] []
       (Some {| c_nLockTime := None; c_nSequence := None |}) bitcoin
     <> Err ConstraintsUnmet.
Proof.
  split; [vm_compute; reflexivity|].
  assert (H : satisfyMiniscript Sample.cap ("pk(" ++ Sample.K1 ++ ")") true [] []
                (Some {| c_nLockTime := None; c_nSequence := None |}) bitcoin
              = Err Unresolvable) by (vm_compute; reflexivity).
  split; [exact H | rewrite H; discriminate].
Qed.

(** C5 on the sample: with the constraint [nSequence = 144] and a signature
    by [K1], the only satisfaction of [and_v(v:pk(K1),older(144))] meets
    the constraints and is the one materialized. *)
Lemma satisfyMiniscript_selection_witness :
  expandMiniscript Sample.cap ("and_v(v:pk(" ++ Sample.K1 ++ "),older(144))") true bitcoin
  = Ok ("and_v(v:pk(@0),older(144))", [("@0", Sample.key Sample.key1)])
  /\ satisfier Sample.cap "and_v(v:pk(@0),older(144))"
       (knowns_of [("@0", Sample.key Sample.key1)] [Sample.signature1] [])
     = Returned (Some [Sample.sat_of "<sig(@0)>" (Some 144%Z)])
  /\ satisfyMiniscript Sample.cap ("and_v(v:pk(" ++ Sample.K1 ++ "),older(144))") true
       [Sample.signature1] []
       (Some {| c_nLockTime := None; c_nSequence := Some 144%Z |}) bitcoin
     = materialize Sample.cap
         (expandedKnownsMap_of [("@0", Sample.key Sample.key1)] [Sample.signature1] [])
         [("@0", Sample.key Sample.key1)] (Sample.sat_of "<sig(@0)>" (Some 144%Z)).
Proof.
  assert (H1 : expandMiniscript Sample.cap
                 ("and_v(v:pk(" ++ Sample.K1 ++ "),older(144))") true bitcoin
               = Ok ("and_v(v:pk(@0),older(144))", [("@0", Sample.key Sample.key1)]))
    by (vm_compute; reflexivity).
  assert (H2 : satisfier Sample.cap "and_v(v:pk(@0),older(144))"
                 (knowns_of [("@0", Sample.key Sample.key1)] [Sample.signature1] [])
               = Returned (Some [Sample.sat_of "<sig(@0)>" (Some 144%Z)]))
    by (vm_compute; reflexivity).
  split; [exact H1 | split; [exact H2|]].
  apply (proj1 (proj2 (proj2
           (satisfyMiniscript_selection Sample.cap _ true [Sample.signature1] []
              (Some {| c_nLockTime := None; c_nSequence := Some 144%Z |})
              bitcoin _ _ _ H1 H2))) _ eq_refl).
  - discriminate.
  - exists [], []. repeat split. constructor.
Defined.

(** C6 on the sample: [wsh(and_v(v:pk(K1),older(144)))]. *)
Lemma constructor_resource_limits_witness :
  Descriptor.constructor Sample.cap Sample.wsh_older = Ok Sample.wsh_older_descriptor
  /\ exists isolatedExpression script chunks,
       isolate Sample.cap (Descriptor.expression Sample.wsh_older)
         (Descriptor.checksumRequired Sample.wsh_older)
         (Descriptor.index Sample.wsh_older) = Ok isolatedExpression
       /\ decompile Sample.cap script = Some chunks
       /\ non_push_ops chunks <= 201
       /\ match Descriptor.shape_of Sample.cap isolatedExpression with
          | Descriptor.ShWshShape | Descriptor.WshShape =>
              miniscript2Script Sample.cap
                ("and_v(v:pk(" ++ Sample.K1 ++ "),older(144))") true
                (Descriptor.network Sample.wsh_older) = Ok script
              /\ Descriptor.d_witnessScript Sample.wsh_older_descriptor = Some script
              /\ List.length script <= 3600
          | Descriptor.ShShape =>
              miniscript2Script Sample.cap
                ("and_v(v:pk(" ++ Sample.K1 ++ "),older(144))") false
                (Descriptor.network Sample.wsh_older) = Ok script
              /\ payments Sample.cap P2SH (FromRedeem (bare_output script))
                   (Descriptor.network Sample.wsh_older)
                 = Returned (Descriptor.d_payment Sample.wsh_older_descriptor)
              /\ List.length script <= 520
          | _ => False
          end.
Proof.
  assert (H : Descriptor.constructor Sample.cap Sample.wsh_older
              = Ok Sample.wsh_older_descriptor) by (vm_compute; reflexivity).
  split; [exact H|].
  apply (constructor_resource_limits Sample.cap Sample.wsh_older
           Sample.wsh_older_descriptor _ H).
  vm_compute; reflexivity.
Defined.

(** C7 on the sample: a ranged descriptor with its checksum, at index 5. *)
Lemma isolate_checksum_then_wildcards_witness :
  checksum_cleared Sample.cap Sample.ranged_with_checksum true Sample.ranged
  /\ has_star Sample.ranged_with_checksum = true
  /\ isolate Sample.cap Sample.ranged_with_checksum true (JsInteger 5)
     = Ok "pkh(xpub6ERApfZwUNrhLCkDtcHTcxd75RbzS1ed54G1LkBUHQVHQKqhMkhgbmJbZRkrgZw4koxb5JaHWkY4ALHY2grBGRjaDMzQLcgJvLJuZZvRcEL/1/5)".
Proof.
  assert (Hc : checksum_cleared Sample.cap Sample.ranged_with_checksum true
                 Sample.ranged).
  { left. exists "3au5tfmz". split; [|vm_compute; reflexivity].
    repeat split; reflexivity. }
  split; [exact Hc|]. split; [reflexivity|].
  destruct (isolate_checksum_then_wildcards Sample.cap Sample.ranged_with_checksum
              true (JsInteger 5)) as (_ & _ & _ & H).
  destruct (H _ Hc) as (_ & H5 & _).
  destruct (H5 5%Z eq_refl eq_refl) as [-> _]; [lia|].
  vm_compute; reflexivity.
Defined.

(** C8, disproved as stated: with [allowMiniscriptInP2SH] set, a miniscript
    that compiles to a sane script of 74 bytes is still refused in [sh()],
    here because the probe finds no satisfaction without the preimage. *)
Lemma compilable_miniscript_refused_in_sh :
  Descriptor.allowMiniscriptInP2SH Sample.sh_and_sha256 = true
  /\ Descriptor.expression Sample.sh_and_sha256 = "sh(" ++ Sample.and_sha256 ++ ")"
  /\ (exists script,
        miniscript2Script Sample.cap Sample.and_sha256 false bitcoin = Ok script
        /\ List.length script = 74)
  /\ Descriptor.constructor Sample.cap Sample.sh_and_sha256 = Err Unresolvable.
Proof.
  split; [reflexivity|]. split; [reflexivity|]. split.
  - eexists. split; [vm_compute; reflexivity | reflexivity].
  - vm_compute; reflexivity.
Qed.

(** C8 on the sample: with the flag set, [sh(and_v(v:pk(K1),older(144)))]
    passes the remaining steps and is built. *)
Lemma sh_template_gate_witness :
  isolate Sample.cap (Descriptor.expression Sample.sh_older)
    (Descriptor.checksumRequired Sample.sh_older) (Descriptor.index Sample.sh_older)
  = Ok ("sh(and_v(v:pk(" ++ Sample.K1 ++ "),older(144)))")
  /\ Descriptor.shape_of Sample.cap ("sh(and_v(v:pk(" ++ Sample.K1 ++ "),older(144)))")
     = Descriptor.ShShape
  /\ succeeded (Descriptor.constructor Sample.cap Sample.sh_older) = true.
Proof.
  assert (Hi : isolate Sample.cap (Descriptor.expression Sample.sh_older)
                 (Descriptor.checksumRequired Sample.sh_older)
                 (Descriptor.index Sample.sh_older)
               = Ok ("sh(and_v(v:pk(" ++ Sample.K1 ++ "),older(144)))"))
    by (vm_compute; reflexivity).
  assert (Hs : Descriptor.shape_of Sample.cap
                 ("sh(and_v(v:pk(" ++ Sample.K1 ++ "),older(144)))")
               = Descriptor.ShShape) by (vm_compute; reflexivity).
  split; [exact Hi | split; [exact Hs|]].
  rewrite (proj2 (proj2 (sh_template_gate Sample.cap Sample.sh_older _ Hi Hs))
             (or_introl eq_refl)); vm_compute; reflexivity.
Defined.

(** C9 on the sample: the descriptor of [wsh(and_v(v:pk(K1),older(144)))]
    adds output 1 of a transaction as input 0 with sequence 144, and finds
    no output 2; the same output a second time is refused by the Psbt. *)
Lemma updatePsbt_contract_witness :
  Transaction_fromHex Sample.cap "0200" = Sample.parse_tx "0200"
  /\ exists input,
       Descriptor.updatePsbt Sample.cap Sample.wsh_older_descriptor "0200" 1
         Sample.empty_psbt
       = Ok (0%Z, {| locktime := Some 0%Z; inputs := [input] |})
       /\ sequence input = Some 144%Z
       /\ Descriptor.updatePsbt Sample.cap Sample.wsh_older_descriptor "0200" 1
            {| locktime := Some 0%Z; inputs := [input] |}
          = Err (External "Psbt.addInput")
       /\ Descriptor.updatePsbt Sample.cap Sample.wsh_older_descriptor "0200" 2
            Sample.empty_psbt
          = Err NoSuchOutput.
Proof.
  split; [reflexivity|].
  assert (Htx : Transaction_fromHex Sample.cap "0200"
                = Returned
                    {| outs := [ {| out_script := Sample.bytes [81%N];
                                    out_value := 50000 |};
                                 {| out_script := Sample.bytes [82%N];
                                    out_value := 70000 |} ];
                       getHash := Sample.sha256 (Sample.bytes [2; 0]%N);
                       toBuffer := Sample.bytes [2; 0]%N |})
    by (vm_compute; reflexivity).
  destruct (updatePsbt_contract Sample.cap Sample.wsh_older_descriptor "0200" 2
              Sample.empty_psbt _ Htx) as [Hnone _].
  eexists. split; [vm_compute; reflexivity|].
  split; [reflexivity|]. split; [vm_compute; reflexivity|].
  apply Hnone. reflexivity.
Defined.


(** * Further properties of the code *)

(** ** [isolate] and the checksum *)

Lemma string_of_uint_no_star (d : Decimal.uint) :
  has_star (NilEmpty.string_of_uint d) = false.
Proof. induction d; simpl; auto. Qed.

Lemma decimal_no_star (n : N) : has_star (Js.decimal n) = false.
Proof. apply string_of_uint_no_star. Qed.

Lemma particularize_no_star (cap : Capabilities) (index : JsNumber) (body s : string) :
  particularize cap index body = Ok s ->
  (forall z, index = JsInteger z -> (z < 2 ^ 53)%Z) ->
  has_star s = false.
Proof.
  intros H Hz. destruct (particularize_spec cap index body) as (W1 & W2 & W3).
  destruct (has_star body) eqn:Eb.
  - destruct index as [z|]; [|rewrite W1 in H by reflexivity; discriminate].
    destruct (Z.leb_spec 0 z) as [Hle|Hlt].
    + rewrite (W2 z eq_refl eq_refl Hle) in H. injection H as <-.
      apply concat_no_star; [|apply split_star_pieces].
      rewrite Number_toString_decimal by (specialize (Hz z eq_refl); lia).
      apply decimal_no_star.
    + rewrite W1 in H; [discriminate | reflexivity |].
      simpl. apply Z.leb_gt. exact Hlt.
  - rewrite (W3 eq_refl) in H. now injection H as <-.
Qed.

(** X1. For an index that is a safe integer (below 2^53, where a number
    is printed by its decimal digits), what [isolate] returns holds no
    wildcard any more. *)
Theorem isolate_leaves_no_wildcard (cap : Capabilities) (expression : string)
    (checksumRequired : bool) (index : JsNumber) (isolatedExpression : string) :
  isolate cap expression checksumRequired index = Ok isolatedExpression ->
  (forall z, index = JsInteger z -> (z < 2 ^ 53)%Z) ->
  has_star isolatedExpression = false.
Proof.
  rewrite isolate_unfold. intros H Hz.
  destruct (match_checksum expression) as [m0|].
  - cbv zeta in H. destruct (_ =? _); [|discriminate].
    now apply particularize_no_star in H.
  - destruct checksumRequired; [discriminate|].
    now apply particularize_no_star in H.
Qed.

(** X2. An expression followed by [#] and the checksum [Descriptor.checksum]
    computes for it is accepted, whether a checksum is required or not, and
    isolated as the expression alone is (the checksum being 8 characters of
    the checksum alphabet, and the expression not ending in a checksum of
    its own). *)
Theorem isolate_accepts_own_checksum (cap : Capabilities) (expression : string)
    (checksumRequired : bool) (index : JsNumber) :
  (forall prefix c, ~ checksum_suffix expression prefix c) ->
  String.length (Descriptor.checksum cap expression) = 8 ->
  forallb in_charset (list_ascii_of_string (Descriptor.checksum cap expression)) = true ->
  isolate cap (expression ++ "#" ++ Descriptor.checksum cap expression)
    checksumRequired index
  = isolate cap expression false index.
Proof.
  intros Hno Hl Hc.
  assert (Hs : checksum_suffix (expression ++ "#" ++ Descriptor.checksum cap expression)
                 expression (Descriptor.checksum cap expression))
    by (repeat split; assumption).
  rewrite (isolate_suffix _ _ _ _ _ _ Hs), (isolate_no_suffix _ _ _ _ Hno).
  unfold Descriptor.checksum. now rewrite String.eqb_refl.
Qed.

(** ** The constructor reads the expression through [isolate] only *)

Lemma dispatch_same_options (cap : Capabilities) (p p' : Params) (iso : string) :
  allowMiniscriptInP2SH p = allowMiniscriptInP2SH p' ->
  network p = network p' ->
  preimages p = preimages p' ->
  dispatch cap p iso = dispatch cap p' iso.
Proof.
  intros Ha Hn Hp. unfold dispatch, addr_branch, key_branch, sh_wsh_branch, sh_branch,
    wsh_branch. now rewrite Ha, Hn, Hp.
Qed.

Lemma probe_same_options (cap : Capabilities) (p p' : Params) (this : t) :
  network p = network p' ->
  preimages p = preimages p' ->
  signersKeyExpressions p = signersKeyExpressions p' ->
  probe cap p this = probe cap p' this.
Proof.
  intros Hn Hp Hs. unfold probe, signers_of. now rewrite Hn, Hp, Hs.
Qed.

(** X3. The constructor reads [expression], [index] and [checksumRequired]
    through [isolate] only: two calls whose isolated expressions (or
    [isolate] errors) agree, and whose other parameters agree, build the
    same descriptor or fail alike. *)
Theorem constructor_reads_isolated_expression (cap : Capabilities)
    (p p' : Descriptor.Params) :
  isolate cap (Descriptor.expression p) (Descriptor.checksumRequired p)
    (Descriptor.index p)
  = isolate cap (Descriptor.expression p') (Descriptor.checksumRequired p')
      (Descriptor.index p') ->
  Descriptor.allowMiniscriptInP2SH p = Descriptor.allowMiniscriptInP2SH p' ->
  Descriptor.network p = Descriptor.network p' ->
  Descriptor.preimages p = Descriptor.preimages p' ->
  Descriptor.signersKeyExpressions p = Descriptor.signersKeyExpressions p' ->
  Descriptor.constructor cap p = Descriptor.constructor cap p'.
Proof.
  intros Hi Ha Hn Hp Hs. unfold constructor. rewrite Hi.
  destruct (isolate cap (expression p') _ _) as [iso|]; [|reflexivity].
  cbn [bind]. rewrite (dispatch_same_options cap p p' iso Ha Hn Hp).
  destruct (dispatch cap p' iso) as [this|]; [|reflexivity].
  cbn [bind]. apply probe_same_options; assumption.
Qed.

(** X4. Requiring a checksum only adds a way to fail: what the constructor
    builds with [checksumRequired] it builds without, from the same
    parameters. *)
Theorem checksumRequired_only_restricts (cap : Capabilities) (p : Descriptor.Params)
    (d : Descriptor.t) :
  Descriptor.constructor cap
    (Descriptor.with_expression p (Descriptor.expression p) (Descriptor.index p) true)
  = Ok d ->
  Descriptor.constructor cap
    (Descriptor.with_expression p (Descriptor.expression p) (Descriptor.index p) false)
  = Ok d.
Proof.
  unfold constructor. cbn [expression index checksumRequired with_expression].
  rewrite !isolate_unfold.
  destruct (match_checksum (expression p)); [|discriminate].
  cbv zeta. intros H. rewrite <- H.
  destruct (if _ =? _ then _ else _) as [iso|]; [|reflexivity].
  cbn [bind].
  rewrite (dispatch_same_options cap
             (with_expression p (expression p) (index p) false)
             (with_expression p (expression p) (index p) true) iso)
    by reflexivity.
  destruct (dispatch _ _ _); [|reflexivity]. cbn [bind].
  now apply probe_same_options.
Qed.

(** ** [expandMiniscript]: the variables *)

Lemma decimal_inj (n m : N) : Js.decimal n = Js.decimal m -> n = m.
Proof.
  unfold Js.decimal. intros H. apply DecimalN.Unsigned.to_uint_inj.
  apply (f_equal NilEmpty.uint_of_string) in H. rewrite !NilEmpty.usu in H.
  now injection H.
Qed.

Lemma variables_S (from count : nat) :
  variables from (S count) = (variables from count ++ [variable (from + count)])%list.
Proof. unfold variables. now rewrite seq_S, map_app. Qed.

Lemma variables_length (from count : nat) : List.length (variables from count) = count.
Proof. unfold variables. now rewrite length_map, length_seq. Qed.

Lemma variables_fresh (from count : nat) :
  ~ In (variable (from + count)) (variables from count).
Proof.
  unfold variables, variable. intros H. apply in_map_iff in H as (i & Hi & Hin).
  injection Hi as Hi. apply decimal_inj in Hi. apply in_seq in Hin. lia.
Qed.

Lemma variables_NoDup (from count : nat) : NoDup (variables from count).
Proof.
  induction count as [|count IH]; [constructor|].
  rewrite variables_S. apply NoDup_app; [exact IH | repeat constructor; intros [] |].
  intros k Hk [<-|[]]. now apply variables_fresh in Hk.
Qed.

Lemma obj_set_absent {V : Type} (o : JsObject V) (k : string) (v : V) :
  ~ In k (Object_keys o) -> obj_set o k v = (o ++ [(k, v)])%list.
Proof.
  unfold Object_keys. induction o as [|[k0 v0] o IH]; simpl; intros H; [reflexivity|].
  destruct (String.eqb_spec k0 k) as [->|Hne]; [tauto|].
  f_equal. apply IH. tauto.
Qed.

(** The run over the pieces, as a relation: the key expressions parsed so
    far, in order. *)
Lemma expand_segments_numbers (cap : Capabilities) (isSegwit : bool) (network : Network)
    (segments : list Segment) :
  forall allocs m expanded m',
    Object_keys m = variables 0 (List.length m) ->
    expand_segments cap isSegwit network segments allocs m = Ok (expanded, m') ->
    expanded = numbered segments (List.length m)
    /\ exists parsed,
         Forall2 (fun k e => parseKeyExpression cap k network isSegwit = Ok e)
           (key_expressions segments) parsed
         /\ Object_keys m' = variables 0 (List.length m + List.length parsed)
         /\ map obj (Object_values m') = (map obj (Object_values m) ++ parsed)%list.
Proof.
  induction segments as [|[t|keyExpression] rest IH]; simpl;
    intros allocs m expanded m' Hk H.
  - injection H as <- <-. split; [reflexivity|]. exists []. simpl.
    rewrite Nat.add_0_r, app_nil_r. repeat split; [constructor | exact Hk].
  - apply bind_Ok in H as ([tail m1] & H1 & H2). injection H2 as <- <-.
    destruct (IH _ _ _ _ Hk H1) as (-> & parsed & HF & Hkeys & Hvals).
    split; [reflexivity|]. now exists parsed.
  - apply bind_Ok in H as (e & He & H).
    apply bind_Ok in H as ([tail m1] & H1 & H2). injection H2 as <- <-.
    assert (Hlen : List.length (Object_keys m) = List.length m)
      by (unfold Object_keys; apply length_map).
    rewrite Hlen in H1 |- *.
    fold (variable (List.length m)) in H1.
    assert (Hfresh : ~ In (variable (List.length m)) (Object_keys m))
      by (rewrite Hk; apply (variables_fresh 0)).
    rewrite (obj_set_absent _ _ _ Hfresh) in H1.
    apply IH in H1 as (-> & parsed & HF & Hkeys & Hvals).
    + rewrite List.length_app in *. cbn [List.length] in *.
      replace (List.length m + 1) with (S (List.length m)) in * by lia.
      split; [reflexivity|].
      exists (e :: parsed). split; [now constructor|]. split.
      * rewrite Hkeys. f_equal. cbn [List.length]. lia.
      * rewrite Hvals. unfold Object_values. rewrite !map_app. simpl.
        now rewrite <- app_assoc.
    + unfold Object_keys in *. rewrite map_app, Hk, List.length_app.
      cbn [List.length map fst].
      replace (List.length m + 1) with (S (List.length m)) by lia.
      now rewrite variables_S.
Qed.

(** X5. [expandMiniscript] numbers the key expressions in the order they
    occur: the text it returns is the miniscript with the [i]-th key
    expression replaced by [@i], and the expansion map has the keys [@0],
    [@1], ..., one for each occurrence and no two the same, the value of
    [@i] being what [parseKeyExpression] made of the [i]-th key
    expression. *)
Theorem expandMiniscript_numbers_key_expressions (cap : Capabilities)
    (miniscript : string) (isSegwit : bool) (network : Network)
    (expandedMiniscript : string) (expansionMap : ExpansionMap) :
  expandMiniscript cap miniscript isSegwit network
  = Ok (expandedMiniscript, expansionMap) ->
  let segments := reKeyExp_scan cap miniscript in
  expandedMiniscript = numbered segments 0
  /\ Object_keys expansionMap
     = variables 0 (List.length (key_expressions segments))
  /\ NoDup (Object_keys expansionMap)
  /\ Forall2 (fun k e => parseKeyExpression cap k network isSegwit = Ok e)
       (key_expressions segments) (Object_values expansionMap).
Proof.
  rewrite expandMiniscript_is_expand_segments. intros H segments.
  apply bind_Ok in H as ([expanded m] & H & Hr). injection Hr as <- <-.
  apply expand_segments_numbers in H as (-> & parsed & HF & Hkeys & Hvals);
    [|reflexivity].
  simpl in Hkeys, Hvals.
  assert (Hk : Object_keys (map (fun kv => (fst kv, obj (snd kv))) m) = Object_keys m).
  { unfold Object_keys. rewrite map_map. reflexivity. }
  assert (Hv : Object_values (map (fun kv => (fst kv, obj (snd kv))) m) = parsed).
  { unfold Object_values in *. rewrite map_map. rewrite map_map in Hvals. exact Hvals. }
  subst segments. cbn [fst snd]. rewrite Hk, Hv, Hkeys.
  rewrite (Forall2_length HF).
  repeat split; [apply variables_NoDup | exact HF].
Qed.

Lemma first_failing_cons_Ok {A B : Type} (f : A -> result B) (x : A) (l : list A)
    (e : Error) (b : B) :
  f x = Ok b -> (first_failing f (x :: l) e <-> first_failing f l e).
Proof.
  intros Hx. split.
  - intros (before & y & after & H & HF & Hy).
    destruct before as [|z before]; simpl in H; injection H as <- H; [congruence|].
    inversion HF; subst. now exists before, y, after.
  - intros (before & y & after & -> & HF & Hy).
    exists (x :: before), y, after. repeat split; auto.
    constructor; [now rewrite Hx | assumption].
Qed.

Lemma first_failing_cons_Err {A B : Type} (f : A -> result B) (x : A) (l : list A)
    (e e' : Error) :
  f x = Err e' -> (first_failing f (x :: l) e <-> e' = e).
Proof.
  intros Hx. split.
  - intros (before & y & after & H & HF & Hy).
    destruct before as [|z before]; simpl in H; injection H as <- H; [congruence|].
    inversion HF as [|? ? Hz]; subst. rewrite Hx in Hz. discriminate.
  - intros <-. exists [], x, l. repeat split; auto.
Qed.

Lemma first_failing_nil {A B : Type} (f : A -> result B) (e : Error) :
  ~ first_failing f [] e.
Proof. intros (before & y & after & H & _). now destruct before. Qed.

Lemma expand_segments_error (cap : Capabilities) (isSegwit : bool) (network : Network)
    (segments : list Segment) (e : Error) :
  forall allocs m,
    expand_segments cap isSegwit network segments allocs m = Err e <->
    first_failing (fun k => parseKeyExpression cap k network isSegwit)
      (key_expressions segments) e.
Proof.
  induction segments as [|[t|keyExpression] rest IH]; simpl; intros allocs m.
  - split; [discriminate | intros H; now apply first_failing_nil in H].
  - rewrite <- (IH allocs m).
    destruct (expand_segments cap isSegwit network rest allocs m) as [[tail m1]|e'];
      simpl; split; congruence.
  - destruct (parseKeyExpression cap keyExpression network isSegwit) as [parsed|e']
      eqn:Ep; cbn [bind].
    + rewrite (first_failing_cons_Ok
                 (fun k => parseKeyExpression cap k network isSegwit) _ _ _ _ Ep).
      match goal with |- context [expand_segments _ _ _ rest ?a ?m'] =>
        rewrite <- (IH a m');
        destruct (expand_segments cap isSegwit network rest a m') as [[tail m1]|e'']
      end; simpl; split; congruence.
    + rewrite (first_failing_cons_Err
                 (fun k => parseKeyExpression cap k network isSegwit) _ _ _ _ Ep).
      split; congruence.
Qed.

(** X6. [expandMiniscript] fails exactly when a key expression fails to
    parse, and then with what [parseKeyExpression] threw on the first one
    that fails; nothing else in it throws. *)
Theorem expandMiniscript_fails_with_first_bad_key (cap : Capabilities)
    (miniscript : string) (isSegwit : bool) (network : Network) (e : Error) :
  expandMiniscript cap miniscript isSegwit network = Err e <->
  first_failing (fun k => parseKeyExpression cap k network isSegwit)
    (key_expressions (reKeyExp_scan cap miniscript)) e.
Proof.
  rewrite expandMiniscript_is_expand_segments.
  rewrite <- (expand_segments_error cap isSegwit network _ e 0 []).
  destruct (expand_segments _ _ _ _ _ _) as [[x m]|e']; simpl; split; intros H;
    (discriminate H || (injection H as ->; reflexivity)).
Qed.

(** ** The knowns of [satisfyMiniscript], entry by entry *)

Lemma string_app_assoc (a b c : string) : (a ++ b) ++ c = a ++ (b ++ c).
Proof. induction a as [|x a IH]; simpl; [reflexivity | now rewrite IH]. Qed.

Lemma replace_first_paren (rep fn payload : string) :
  ~ In "("%char (list_ascii_of_string fn) ->
  Js.replace "(" rep (fn ++ "(" ++ payload) = fn ++ rep ++ payload.
Proof.
  induction fn as [|c fn IH]; intros Hno.
  - cbn [append Js.replace]. rewrite prefix_single, Ascii.eqb_refl.
    f_equal. unfold Js.substring_from. cbn [String.length].
    change (String.substring 1 (S (String.length payload) - 1) (String "(" payload))
      with (String.substring 0 (S (String.length payload) - 1) payload).
    replace (S (String.length payload) - 1) with (String.length payload) by lia.
    apply substring_0_all.
  - cbn [append Js.replace]. rewrite prefix_single.
    destruct (Ascii.eqb_spec c "("%char) as [->|Hne]; [exfalso; apply Hno; now left|].
    f_equal. apply IH. intros Hin. apply Hno. now right.
Qed.

Lemma replace_no_paren (rep s : string) :
  ~ In "("%char (list_ascii_of_string s) -> Js.replace "(" rep s = s.
Proof.
  induction s as [|c s IH]; intros Hno; [reflexivity|].
  cbn [Js.replace]. rewrite prefix_single.
  destruct (Ascii.eqb_spec c "("%char) as [->|Hne]; [exfalso; apply Hno; now left|].
  f_equal. apply IH. intros Hin. apply Hno. now right.
Qed.



Lemma obj_get_NoDup {V : Type} (o : JsObject V) (k : string) (v : V) :
  NoDup (Object_keys o) -> In (k, v) o -> obj_get o k = Some v.
Proof.
  unfold Object_keys. induction o as [|[k0 v0] o IH]; simpl; intros Hnd Hin; [easy|].
  inversion Hnd as [|? ? Hnotin Hnd']; subst.
  destruct Hin as [[= -> ->]|Hin]; [now rewrite String.eqb_refl|].
  destruct (String.eqb_spec k0 k) as [->|Hne]; [|now apply IH].
  exfalso. apply Hnotin. apply in_map_iff. now exists (k, v).
Qed.

Lemma find_first {A : Type} (test : A -> bool) (before after : list A) (x : A) :
  Forall (fun y => test y = false) before -> test x = true ->
  find test (before ++ x :: after) = Some x.
Proof.
  intros Hb Hx. induction Hb as [|y before Hy Hb IH]; simpl;
    [now rewrite Hx | now rewrite Hy].
Qed.

Lemma obj_set_keys_list {V : Type} (o : JsObject V) (k : string) (v : V) :
  Object_keys (obj_set o k v)
  = if existsb (String.eqb k) (Object_keys o) then Object_keys o
    else (Object_keys o ++ [k])%list.
Proof.
  unfold Object_keys. induction o as [|[k0 v0] o IH]; simpl; [reflexivity|].
  rewrite (String.eqb_sym k k0).
  destruct (k0 =? k); simpl; [reflexivity|].
  rewrite IH. now destruct (existsb _ _).
Qed.

Lemma obj_set_NoDup {V : Type} (o : JsObject V) (k : string) (v : V) :
  NoDup (Object_keys o) -> NoDup (Object_keys (obj_set o k v)).
Proof.
  intros H. rewrite obj_set_keys_list.
  destruct (existsb (String.eqb k) (Object_keys o)) eqn:E; [exact H|].
  apply NoDup_app; [exact H | repeat constructor; intros [] |].
  intros k' Hk' [<-|[]].
  assert (existsb (String.eqb k) (Object_keys o) = true); [|congruence].
  apply existsb_exists. exists k. split; [exact Hk' | apply String.eqb_refl].
Qed.

Lemma fold_obj_set_NoDup {V X : Type} (key : X -> string) (val : X -> V)
    (l : list X) (o : JsObject V) :
  NoDup (Object_keys o) ->
  NoDup (Object_keys (fold_left (fun m x => obj_set m (key x) (val x)) l o)).
Proof.
  revert o; induction l as [|x l IH]; simpl; intros o H; [exact H|].
  apply IH. now apply obj_set_NoDup.
Qed.


(** ** [substituteAsm] *)

Lemma obj_get_key {V : Type} (o : JsObject V) (k : string) :
  In k (Object_keys o) -> exists v, obj_get o k = Some v.
Proof.
  unfold Object_keys. induction o as [|[k0 v0] o IH]; simpl; [easy|].
  intros [<-|Hin]; [rewrite String.eqb_refl; eauto|].
  destruct (k0 =? k); eauto.
Qed.

Lemma substituteAsm_keys (cap : Capabilities) (expansionMap : ExpansionMap)
    (keys : list string) :
  forall accAsm,
    (forall k, In k keys -> In k (Object_keys expansionMap)) ->
    fold_left
      (fun (accAsm : result string) (key : string) =>
         accAsm <- accAsm ;;
         match option_map pubkey (obj_get expansionMap key) with
         | None => Err InvalidExpansionMap
         | Some pubkey =>
             Ok (Js.replaceAll ("<HASH160(" ++ key ++ ")>")
                   ("<" ++ toHex (hash160 cap pubkey) ++ ">")
                   (Js.replaceAll ("<" ++ key ++ ">")
                      ("<" ++ toHex pubkey ++ ">") accAsm))
         end)
      keys (Ok accAsm)
    = Ok (fold_left (substituted_key cap expansionMap) keys accAsm).
Proof.
  induction keys as [|key keys IH]; simpl; intros accAsm Hin; [reflexivity|].
  destruct (obj_get_key expansionMap key (Hin key (or_introl eq_refl))) as (e & He).
  unfold substituted_key at 2. rewrite He. simpl. apply IH. auto.
Qed.

Lemma substituteAsm_unfold (cap : Capabilities) (expandedAsm : string)
    (expansionMap : ExpansionMap) :
  substituteAsm cap expandedAsm expansionMap
  = Ok (strip_angles
          (encode_numbers (numberEncodeAsm cap) None None
             (collapse_spaces false
                (trim (fold_left (substituted_key cap expansionMap)
                         (Object_keys expansionMap) expandedAsm))))).
Proof.
  unfold substituteAsm. now rewrite substituteAsm_keys by auto.
Qed.

Lemma strip_angles_clean (s : string) :
  forall c, In c (list_ascii_of_string (strip_angles s)) ->
            c <> "<"%char /\ c <> ">"%char.
Proof.
  induction s as [|a s IH]; simpl; intros c; [easy|].
  destruct (Ascii.eqb_spec a "<"%char) as [->|Hlt]; simpl; [apply IH|].
  destruct (Ascii.eqb_spec a ">"%char) as [->|Hgt]; simpl; [apply IH|].
  intros [<-|Hin]; [auto | now apply IH].
Qed.

(** X10. The ASM [substituteAsm] returns holds no [<] and no [>], and its
    check of the expansion map ("invalid expansionMap") never fires: the keys
    it goes through are those of the map itself. *)
Theorem substituteAsm_strips_brackets (cap : Capabilities) (expandedAsm : string)
    (expansionMap : ExpansionMap) :
  substituteAsm cap expandedAsm expansionMap <> Err InvalidExpansionMap
  /\ forall asm,
       substituteAsm cap expandedAsm expansionMap = Ok asm ->
       forall c, In c (list_ascii_of_string asm) -> c <> "<"%char /\ c <> ">"%char.
Proof.
  rewrite substituteAsm_unfold. split; [discriminate|].
  intros asm [= <-]. apply strip_angles_clean.
Qed.

(** *** Numbers are encoded, pushes are not *)

Lemma string_app_nil (s : string) : s ++ EmptyString = s.
Proof. induction s as [|c s IH]; simpl; [reflexivity | now rewrite IH]. Qed.

Lemma string_of_list_app (l1 l2 : list ascii) :
  string_of_list_ascii (l1 ++ l2)
  = string_of_list_ascii l1 ++ string_of_list_ascii l2.
Proof. induction l1 as [|c l1 IH]; simpl; [reflexivity | now rewrite IH]. Qed.

Lemma is_digit_word (c : ascii) : is_digit c = true -> is_word c = true.
Proof. unfold is_word. now intros ->. Qed.

(** With no run of digits under way, the character before matters only to
    a digit. *)
Lemma encode_numbers_prev (enc : Z -> string) (p q : option ascii) (rest : string) :
  match rest with
  | EmptyString => True
  | String x _ => is_digit x = false
  end ->
  encode_numbers enc p None rest = encode_numbers enc q None rest.
Proof. destruct rest as [|x r]; simpl; [reflexivity | now intros ->]. Qed.

(** Inside a word, after a word character or [<], no run of digits
    qualifies: the word is copied. *)
Lemma encode_numbers_word (enc : Z -> string) (rest : string) (q : option ascii) :
  match rest with
  | EmptyString => True
  | String x _ => is_digit x = false
  end ->
  forall w prev run,
    all_word w = true ->
    match run with
    | None => exists p, prev = Some p /\ (is_word p = true \/ p = "<"%char)
    | Some (left_ok, _) => left_ok = false
    end ->
    encode_numbers enc prev run (w ++ rest)
    = match run with
      | None => EmptyString
      | Some (_, acc) => string_of_list_ascii (rev acc)
      end ++ w ++ encode_numbers enc q None rest.
Proof.
  intros Hrest. unfold all_word.
  induction w as [|c w IH]; intros prev run Hw Hrun.
  - cbn [append]. destruct rest as [|x r]; simpl.
    + destruct run as [[lo acc]|]; [subst lo; simpl; now rewrite string_app_nil | reflexivity].
    + rewrite Hrest. destruct run as [[lo acc]|]; [subst lo; reflexivity | reflexivity].
  - simpl in Hw. apply andb_prop in Hw as [Hc Hw]. cbn [append encode_numbers].
    destruct (is_digit c) eqn:Ed.
    + destruct run as [[lo acc]|].
      * subst lo. rewrite IH by auto. cbn [rev]. rewrite string_of_list_app. simpl.
        now rewrite string_app_assoc.
      * destruct Hrun as (p & -> & Hp).
        assert (Hlo : negb (is_word p) && negb (Ascii.eqb p "<"%char) = false).
        { destruct Hp as [-> | ->]; [reflexivity | apply andb_false_r]. }
        rewrite Hlo, IH by auto. reflexivity.
    + rewrite Hc. cbn [negb andb].
      rewrite (IH (Some c) None) by eauto. cbn [append].
      destruct run as [[lo acc]|]; [subst lo|]; reflexivity.
Qed.

(** A word that is not a number is copied, wherever it stands. *)
Lemma encode_numbers_opcode (enc : Z -> string) (rest : string) (q : option ascii) :
  match rest with
  | EmptyString => True
  | String x _ => is_digit x = false
  end ->
  forall w prev run,
    all_word w = true -> all_digits w = false ->
    encode_numbers enc prev run (w ++ rest)
    = match run with
      | None => EmptyString
      | Some (_, acc) => string_of_list_ascii (rev acc)
      end ++ w ++ encode_numbers enc q None rest.
Proof.
  intros Hrest. unfold all_word, all_digits.
  induction w as [|c w IH]; intros prev run Hw Hd; [discriminate|].
  simpl in Hw, Hd. apply andb_prop in Hw as [Hc Hw]. cbn [append encode_numbers].
  destruct (is_digit c) eqn:Ed.
  - simpl in Hd. rewrite IH by auto.
    destruct run as [[lo acc]|]; cbn [rev]; [|reflexivity].
    rewrite string_of_list_app. simpl. now rewrite string_app_assoc.
  - rewrite Hc. cbn [negb andb].
    rewrite (encode_numbers_word enc rest q Hrest w (Some c) None) by eauto.
    cbn [append]. destruct run as [[[|] acc]|]; reflexivity.
Qed.

(** A number between word boundaries, with no [<] before and no [>] after,
    is replaced by its encoding. *)
Lemma encode_numbers_digits (enc : Z -> string) (rest : string) (q : option ascii) :
  match rest with
  | EmptyString => True
  | String x _ => is_digit x = false /\ is_word x = false /\ x <> ">"%char
  end ->
  forall ds prev acc,
    all_digits ds = true ->
    encode_numbers enc prev (Some (true, acc)) (ds ++ rest)
    = enc (Number_of_digits (rev acc ++ list_ascii_of_string ds))
      ++ encode_numbers enc q None rest.
Proof.
  intros Hrest. unfold all_digits.
  induction ds as [|c ds IH]; intros prev acc Hd.
  - cbn [append list_ascii_of_string]. rewrite app_nil_r.
    destruct rest as [|x r]; simpl; [now rewrite string_app_nil|].
    destruct Hrest as (-> & -> & Hx). apply Ascii.eqb_neq in Hx. now rewrite Hx.
  - simpl in Hd. apply andb_prop in Hd as [Hc Hd]. cbn [append encode_numbers].
    rewrite Hc, IH by auto. cbn [rev list_ascii_of_string].
    now rewrite <- app_assoc.
Qed.

Lemma strip_angles_app (a b : string) :
  strip_angles (a ++ b) = strip_angles a ++ strip_angles b.
Proof.
  induction a as [|c a IH]; simpl; [reflexivity|].
  destruct (Ascii.eqb c "<" || Ascii.eqb c ">"); simpl; now rewrite IH.
Qed.

Lemma is_word_not_angle (c : ascii) :
  is_word c = true -> Ascii.eqb c "<" || Ascii.eqb c ">" = false.
Proof.
  intros H. destruct (Ascii.eqb_spec c "<"%char) as [->|_]; [discriminate|].
  destruct (Ascii.eqb_spec c ">"%char) as [->|_]; [discriminate | reflexivity].
Qed.

Lemma strip_angles_word (w : string) : all_word w = true -> strip_angles w = w.
Proof.
  unfold all_word. induction w as [|c w IH]; simpl; [reflexivity|].
  intros H. apply andb_prop in H as [Hc Hw].
  now rewrite (is_word_not_angle c Hc), IH.
Qed.

Lemma concat_cons (sep x : string) (xs : list string) :
  String.concat sep (x :: xs)
  = x ++ match xs with
         | [] => EmptyString
         | _ :: _ => sep ++ String.concat sep xs
         end.
Proof. destruct xs; simpl; [now rewrite string_app_nil | reflexivity]. Qed.

(** The rest of a line of tokens after one of them: nothing, or a space
    and more tokens. *)
Lemma after_token (sep_tokens : list string) :
  match match sep_tokens with
        | [] => EmptyString
        | _ :: _ => " " ++ String.concat " " sep_tokens
        end with
  | EmptyString => True
  | String x _ => is_digit x = false /\ is_word x = false /\ x <> ">"%char
  end.
Proof. destruct sep_tokens; simpl; [exact I | repeat split; discriminate]. Qed.

Lemma encode_numbers_tokens (cap : Capabilities) (expansionMap : ExpansionMap)
    (ts : list AsmToken) :
  forall prev,
    prev = None \/ prev = Some " "%char ->
    Forall (well_formed []) ts ->
    strip_angles
      (encode_numbers (numberEncodeAsm cap) prev None
         (String.concat " " (map written ts)))
    = String.concat " " (map (assembled cap expansionMap) ts).
Proof.
  induction ts as [|t ts IH]; intros prev Hprev Hwf; [reflexivity|].
  inversion Hwf as [|? ? Ht Hts]; subst.
  cbn [map]. rewrite !concat_cons.
  set (rest := match map written ts with
               | [] => EmptyString
               | _ :: _ => " " ++ String.concat " " (map written ts)
               end).
  pose proof (after_token (map written ts)) as Hrest. fold rest in Hrest.
  assert (Hweak : match rest with
                  | EmptyString => True
                  | String x _ => is_digit x = false
                  end) by (destruct rest; [exact I | apply Hrest]).
  assert (Htail : strip_angles (encode_numbers (numberEncodeAsm cap) (Some " "%char) None rest)
                  = match map (assembled cap expansionMap) ts with
                    | [] => EmptyString
                    | _ :: _ =>
                        " " ++ String.concat " " (map (assembled cap expansionMap) ts)
                    end).
  { subst rest. destruct ts as [|t' ts']; [reflexivity|].
    cbn [map]. cbn [map] in IH. cbn [append encode_numbers is_digit].
    change (is_digit " ") with false. cbv iota. cbn [flush_run append strip_angles].
    change (Ascii.eqb " " "<" || Ascii.eqb " " ">") with false. cbv iota.
    now rewrite (IH (Some " "%char)) by auto. }
  destruct t as [w|h|k|k]; cbn [written assembled well_formed] in *.
  - destruct Ht as (Hne & Hw & Hnum).
    destruct (all_digits w) eqn:Ed.
    + destruct w as [|c w]; [contradiction|].
      unfold all_digits in Ed. simpl in Ed. apply andb_prop in Ed as [Hc Ed].
      cbn [append encode_numbers]. rewrite Hc.
      assert (Hlo : match prev with
                    | Some p => negb (is_word p) && negb (Ascii.eqb p "<")
                    | None => true
                    end = true) by (destruct Hprev as [-> | ->]; reflexivity).
      rewrite Hlo.
      rewrite (encode_numbers_digits _ rest (Some " "%char) Hrest w (Some c) [c] Ed).
      now rewrite strip_angles_app, Htail.
    + rewrite (encode_numbers_opcode _ rest (Some " "%char) Hweak w prev None Hw Ed).
      cbn [append]. now rewrite strip_angles_app, Htail, strip_angles_word.
  - cbn [append encode_numbers]. change (is_digit "<") with false. cbv iota.
    cbn [flush_run append]. rewrite string_app_assoc.
    rewrite (encode_numbers_word _ (">" ++ rest) (Some "<"%char) eq_refl h (Some "<"%char) None Ht)
      by eauto.
    cbn [append encode_numbers]. change (is_digit ">") with false. cbv iota.
    cbn [flush_run append strip_angles].
    change (Ascii.eqb "<" "<" || Ascii.eqb "<" ">") with true. cbv iota.
    rewrite strip_angles_app, strip_angles_word by assumption.
    cbn [strip_angles]. change (Ascii.eqb ">" "<" || Ascii.eqb ">" ">") with true.
    cbv iota. now rewrite (encode_numbers_prev _ (Some ">"%char) (Some " "%char) rest Hweak), Htail.
  - destruct Ht.
  - destruct Ht.
Qed.

(** *** A line of tokens is already trimmed, with single spaces *)

Lemma is_word_not_space (c : ascii) : is_word c = true -> is_space c = false.
Proof.
  destruct c as [[] [] [] [] [] [] [] []]; intros H; try reflexivity; discriminate H.
Qed.

Lemma written_shape (t : AsmToken) :
  well_formed [] t ->
  exists c s, written t = String c s
              /\ forallb (fun x => negb (is_space x)) (list_ascii_of_string (String c s))
                 = true.
Proof.
  assert (Hw : forall w, all_word w = true ->
               forallb (fun x => negb (is_space x)) (list_ascii_of_string w) = true).
  { unfold all_word. induction w as [|c w IH]; simpl; [reflexivity|].
    intros H. apply andb_prop in H as [Hc H].
    now rewrite (is_word_not_space c Hc), IH. }
  destruct t as [w|h|k|k]; simpl; try contradiction.
  - intros (Hne & Hword & _). destruct w as [|c w]; [contradiction|].
    exists c, w. split; [reflexivity | exact (Hw (String c w) Hword)].
  - intros Hh. exists "<"%char, (h ++ ">"). split; [reflexivity|].
    simpl. induction h as [|c h IH]; [reflexivity|].
    unfold all_word in Hh. simpl in Hh. apply andb_prop in Hh as [Hc Hh].
    simpl. now rewrite (is_word_not_space c Hc), IH.
Qed.

Lemma collapse_spaces_token (t rest : string) :
  forallb (fun x => negb (is_space x)) (list_ascii_of_string t) = true ->
  forall in_run,
    t <> EmptyString ->
    collapse_spaces in_run (t ++ rest) = t ++ collapse_spaces false rest.
Proof.
  induction t as [|c t IH]; simpl; intros H in_run Hne; [contradiction|].
  apply andb_prop in H as [Hc H]. apply negb_true_iff in Hc. rewrite Hc.
  f_equal. destruct t as [|c' t]; [reflexivity|]. now apply IH.
Qed.

Lemma collapse_spaces_tokens (ts : list AsmToken) :
  Forall (well_formed []) ts ->
  collapse_spaces false (String.concat " " (map written ts))
  = String.concat " " (map written ts).
Proof.
  induction 1 as [|t ts Ht Hts IH]; [reflexivity|].
  cbn [map]. rewrite concat_cons.
  destruct (written_shape t Ht) as (c & s & -> & Hfree).
  rewrite collapse_spaces_token by (assumption || discriminate). f_equal.
  destruct ts as [|t' ts']; [reflexivity|].
  inversion Hts as [|? ? Ht' _]; subst.
  cbn [map] in *. cbn [append collapse_spaces]. change (is_space " ") with true.
  cbv iota. f_equal. rewrite concat_cons in *.
  destruct (written_shape t' Ht') as (c' & s' & E' & Hfree').
  rewrite E' in *. rewrite collapse_spaces_token by (assumption || discriminate).
  rewrite collapse_spaces_token in IH by (assumption || discriminate).
  exact IH.
Qed.

Lemma trim_end_token (t : string) :
  forallb (fun x => negb (is_space x)) (list_ascii_of_string t) = true ->
  t <> EmptyString ->
  forall s, trim_end (s ++ t) = s ++ t.
Proof.
  intros Hfree Hne.
  assert (Ht : trim_end t = t).
  { clear Hne. induction t as [|c t IH]; [reflexivity|].
    simpl in Hfree. apply andb_prop in Hfree as [Hc Hfree].
    apply negb_true_iff in Hc. cbn [trim_end]. rewrite (IH Hfree), Hc.
    now destruct t. }
  induction s as [|a s IH]; [exact Ht|].
  cbn [append trim_end]. rewrite IH.
  destruct (s ++ t) eqn:E; [|reflexivity].
  destruct s; [simpl in E; contradiction | discriminate].
Qed.

Lemma concat_last (sep : string) (xs : list string) (x : string) :
  exists s, String.concat sep (xs ++ [x]) = s ++ x.
Proof.
  induction xs as [|y xs IH]; [now exists EmptyString|].
  destruct IH as (s & IH). cbn [List.app]. rewrite concat_cons.
  destruct (xs ++ [x])%list eqn:E; [now destruct xs|].
  rewrite IH. exists (y ++ sep ++ s). now rewrite !string_app_assoc.
Qed.

Lemma trim_tokens (ts : list AsmToken) :
  Forall (well_formed []) ts ->
  trim (String.concat " " (map written ts)) = String.concat " " (map written ts).
Proof.
  intros Hwf. unfold trim.
  assert (Hstart : trim_start (String.concat " " (map written ts))
                   = String.concat " " (map written ts)).
  { destruct Hwf as [|t ts Ht _]; [reflexivity|].
    cbn [map]. rewrite concat_cons.
    destruct (written_shape t Ht) as (c & s & -> & Hfree).
    simpl in Hfree. apply andb_prop in Hfree as [Hc _]. apply negb_true_iff in Hc.
    cbn [append trim_start]. now rewrite Hc. }
  rewrite Hstart. clear Hstart.
  destruct ts as [|t0 ts0]; [reflexivity|].
  destruct (exists_last (l := t0 :: ts0)) as (ts' & t & E); [discriminate|].
  rewrite E in *. clear E. apply Forall_app in Hwf as [_ Ht].
  inversion Ht as [|? ? Ht' _]; subst.
  rewrite map_app. cbn [map].
  destruct (concat_last " " (map written ts') (written t)) as (s & ->).
  destruct (written_shape t Ht') as (c & r & -> & Hfree).
  apply trim_end_token; [assumption | discriminate].
Qed.

(** *** Replacing a bracketed pattern in a line of tokens *)

Lemma prefix_app (p r : string) : String.prefix p (p ++ r) = true.
Proof.
  induction p as [|c p IH]; [now destruct r|]. simpl.
  destruct (ascii_dec c c); [exact IH | contradiction].
Qed.

Lemma prefix_cons (a c : ascii) (p s : string) :
  String.prefix (String a p) (String c s) = true -> a = c /\ String.prefix p s = true.
Proof. simpl. destruct (ascii_dec a c); [auto | discriminate]. Qed.

Lemma replaceAll_from_skip (pat rep u rest : string) :
  Js.replaceAll_from pat rep (String.length u) (u ++ rest)
  = Js.replaceAll_from pat rep 0 rest.
Proof. induction u as [|c u IH]; [reflexivity | exact IH]. Qed.

Lemma replaceAll_from_plain (q rep t rest : string) :
  ~ In "<"%char (list_ascii_of_string t) ->
  Js.replaceAll_from (String "<" q) rep 0 (t ++ rest)
  = t ++ Js.replaceAll_from (String "<" q) rep 0 rest.
Proof.
  induction t as [|c t IH]; intros Hno; [reflexivity|].
  cbn [append Js.replaceAll_from].
  destruct (String.prefix (String "<" q) (String c (t ++ rest))) eqn:E.
  - apply prefix_cons in E as [<- _]. exfalso. apply Hno. now left.
  - f_equal. apply IH. intros Hin. apply Hno. now right.
Qed.

Lemma prefix_bracket (body b rest : string) :
  ~ In ">"%char (list_ascii_of_string body) ->
  ~ In ">"%char (list_ascii_of_string b) ->
  String.prefix (body ++ ">") (b ++ ">" ++ rest) = true -> body = b.
Proof.
  revert b. induction body as [|x body IH]; intros [|c b] Hbody Hb H.
  - reflexivity.
  - apply prefix_cons in H as [<- _]. exfalso. apply Hb. now left.
  - apply prefix_cons in H as [-> _]. exfalso. apply Hbody. now left.
  - cbn [append] in H. apply prefix_cons in H as [-> H]. f_equal.
    apply IH; [| |exact H]; intros Hin; [apply Hbody | apply Hb]; now right.
Qed.

Lemma prefix_same_head (a : ascii) (p s : string) :
  String.prefix (String a p) (String a s) = String.prefix p s.
Proof. simpl. destruct (ascii_dec a a); [reflexivity | contradiction]. Qed.

Lemma replaceAll_from_step (pat rep : string) (c : ascii) (s : string) :
  Js.replaceAll_from pat rep 0 (String c s)
  = if String.prefix pat (String c s)
    then rep ++ Js.replaceAll_from pat rep (String.length pat - 1) s
    else String c (Js.replaceAll_from pat rep 0 s).
Proof. reflexivity. Qed.

Lemma not_in_app_char (x c : ascii) (b : string) :
  x <> c -> ~ In x (list_ascii_of_string b) ->
  ~ In x (list_ascii_of_string (b ++ String c EmptyString)).
Proof.
  intros Hx. induction b as [|a b IH]; simpl; intros Hno.
  - intros [H|[]]. congruence.
  - intros [H|H]; [apply Hno; now left | apply IH; [|exact H]].
    intros H'. apply Hno. now right.
Qed.

Lemma replaceAll_from_bracket (body rep b rest : string) :
  ~ In ">"%char (list_ascii_of_string body) ->
  ~ In "<"%char (list_ascii_of_string b) ->
  ~ In ">"%char (list_ascii_of_string b) ->
  Js.replaceAll_from ("<" ++ body ++ ">") rep 0 (("<" ++ b ++ ">") ++ rest)
  = (if b =? body then rep else "<" ++ b ++ ">")
    ++ Js.replaceAll_from ("<" ++ body ++ ">") rep 0 rest.
Proof.
  intros Hbody Hlt Hgt.
  change ("<" ++ body ++ ">") with (String "<" (body ++ ">")).
  change (("<" ++ b ++ ">") ++ rest) with (String "<" ((b ++ ">") ++ rest)).
  rewrite replaceAll_from_step, prefix_same_head.
  destruct (String.eqb_spec b body) as [->|Hne].
  - rewrite prefix_app. f_equal.
    cbn [String.length Nat.sub]. rewrite Nat.sub_0_r.
    apply replaceAll_from_skip.
  - rewrite string_app_assoc.
    destruct (String.prefix (body ++ ">") (b ++ ">" ++ rest)) eqn:E.
    + apply prefix_bracket in E; [congruence | assumption | assumption].
    + change (("<" ++ b ++ ">") ++ Js.replaceAll_from (String "<" (body ++ ">")) rep 0 rest)
        with (String "<" ((b ++ ">")
                          ++ Js.replaceAll_from (String "<" (body ++ ">")) rep 0 rest)).
      f_equal. rewrite <- string_app_assoc.
      apply replaceAll_from_plain.
      apply not_in_app_char; [discriminate | assumption].
Qed.

(** *** The variables and the hex of a buffer, as characters *)

Lemma string_of_uint_digits (d : Decimal.uint) :
  all_digits (NilEmpty.string_of_uint d) = true.
Proof. unfold all_digits. induction d; simpl; auto. Qed.

Lemma decimal_digits (n : N) : all_digits (Js.decimal n) = true.
Proof. apply string_of_uint_digits. Qed.

Lemma all_digits_word (s : string) : all_digits s = true -> all_word s = true.
Proof.
  unfold all_digits, all_word. induction s as [|c s IH]; simpl; [reflexivity|].
  intros H. apply andb_prop in H as [Hc H]. now rewrite (is_digit_word c Hc), IH.
Qed.

Lemma all_word_free (x : ascii) (s : string) :
  is_word x = false -> all_word s = true -> ~ In x (list_ascii_of_string s).
Proof.
  unfold all_word. intros Hx. induction s as [|c s IH]; simpl; [tauto|].
  intros H. apply andb_prop in H as [Hc H]. intros [->|Hin]; [congruence | now apply IH].
Qed.

Lemma variable_free (x : ascii) (i : nat) :
  is_word x = false -> x <> "@"%char -> ~ In x (list_ascii_of_string (variable i)).
Proof.
  intros Hx Hat. unfold variable. simpl. intros [H|H]; [congruence|].
  revert H. apply all_word_free; [exact Hx|]. apply all_digits_word, decimal_digits.
Qed.

Lemma hex_digit_word (n : N) : is_word (hex_digit n) = true.
Proof.
  destruct n as [|p]; [reflexivity|].
  do 4 (destruct p as [p|p|]; try reflexivity).
Qed.

Lemma toHex_word (b : Buffer) : all_word (toHex b) = true.
Proof.
  unfold all_word. induction b as [|x b IH]; [reflexivity|].
  simpl. now rewrite !hex_digit_word, IH.
Qed.

Lemma eqb_bracket (b body : string) :
  ("<" ++ b ++ ">" =? "<" ++ body ++ ">") = (b =? body).
Proof.
  destruct (String.eqb_spec b body) as [->|Hne]; [apply String.eqb_refl|].
  apply String.eqb_neq. intros H. injection H as H.
  apply app_inv_tail_length in H as [H _]; [contradiction | reflexivity].
Qed.

(** *** One replacement over a line of tokens *)

Lemma replaceAll_tokens (expansionMap : ExpansionMap) (body rep : string)
    (f : AsmToken -> AsmToken) (ts : list AsmToken) :
  (forall k, In k (Object_keys expansionMap) -> exists i, k = variable i) ->
  ~ In ">"%char (list_ascii_of_string body) ->
  (forall t, well_formed expansionMap t ->
             written (f t)
             = if written t =? "<" ++ body ++ ">" then rep else written t) ->
  Forall (well_formed expansionMap) ts ->
  Js.replaceAll ("<" ++ body ++ ">") rep (String.concat " " (map written ts))
  = String.concat " " (map written (map f ts)).
Proof.
  intros Hkeys Hbody Hf Hwf.
  change (Js.replaceAll ("<" ++ body ++ ">") rep (String.concat " " (map written ts)))
    with (Js.replaceAll_from ("<" ++ body ++ ">") rep 0
            (String.concat " " (map written ts))).
  induction Hwf as [|t ts Ht Hts IH]; [reflexivity|].
  cbn [map]. rewrite !concat_cons.
  assert (Hrest : Js.replaceAll_from ("<" ++ body ++ ">") rep 0
                    match map written ts with
                    | [] => EmptyString
                    | _ :: _ => " " ++ String.concat " " (map written ts)
                    end
                  = match map written (map f ts) with
                    | [] => EmptyString
                    | _ :: _ => " " ++ String.concat " " (map written (map f ts))
                    end).
  { destruct ts as [|t' ts']; [reflexivity|]. cbn [map] in *.
    rewrite <- IH.
    apply (replaceAll_from_plain (body ++ ">") rep " ").
    simpl. intros [H|[]]. discriminate. }
  rewrite (Hf t Ht).
  assert (Hbracket : forall b,
             written t = "<" ++ b ++ ">" ->
             ~ In "<"%char (list_ascii_of_string b) ->
             ~ In ">"%char (list_ascii_of_string b) ->
             Js.replaceAll_from ("<" ++ body ++ ">") rep 0
               (written t ++ match map written ts with
                             | [] => EmptyString
                             | _ :: _ => " " ++ String.concat " " (map written ts)
                             end)
             = (if written t =? "<" ++ body ++ ">" then rep else written t)
               ++ match map written (map f ts) with
                  | [] => EmptyString
                  | _ :: _ => " " ++ String.concat " " (map written (map f ts))
                  end).
  { intros b -> Hlt Hgt. rewrite eqb_bracket, <- Hrest.
    now apply replaceAll_from_bracket. }
  destruct t as [w|h|k|k]; cbn [well_formed] in Ht.
  - destruct Ht as (_ & Hw & _). cbn [written].
    assert (Hfree : ~ In "<"%char (list_ascii_of_string w))
      by (apply all_word_free; [reflexivity | exact Hw]).
    assert (E : (w =? "<" ++ body ++ ">") = false).
    { apply String.eqb_neq. intros ->. apply Hfree. now left. }
    rewrite E, <- Hrest. now apply (replaceAll_from_plain (body ++ ">")).
  - apply (Hbracket h eq_refl); apply all_word_free; (reflexivity || assumption).
  - destruct (Hkeys k Ht) as (i & ->).
    apply (Hbracket (variable i) eq_refl); apply variable_free; (reflexivity || discriminate).
  - destruct (Hkeys k Ht) as (i & ->).
    assert (Hfree : forall x, is_word x = false -> x <> "@"%char -> x <> "("%char ->
                              x <> ")"%char ->
                              ~ In x (list_ascii_of_string ("HASH160(" ++ variable i ++ ")"))).
    { intros x Hx Hat Ho Hc. simpl.
      intros [H|[H|[H|[H|[H|[H|[H|[H|[H|H]]]]]]]]];
        try (subst x; discriminate Hx); try congruence.
      revert H. apply not_in_app_char; [exact Hc|].
      apply all_word_free; [exact Hx | apply all_digits_word, decimal_digits]. }
    apply (Hbracket ("HASH160(" ++ variable i ++ ")")).
    + cbn [written]. now rewrite !string_app_assoc.
    + apply Hfree; (reflexivity || discriminate).
    + apply Hfree; (reflexivity || discriminate).
Qed.

(** *** The [reduce] over the keys, on a line of tokens *)

Lemma hash_pattern (key : string) :
  "<HASH160(" ++ key ++ ")>" = "<" ++ ("HASH160(" ++ key ++ ")") ++ ">".
Proof. cbn [append]. now rewrite string_app_assoc. Qed.

Lemma resolve_key_well_formed (cap : Capabilities) (expansionMap : ExpansionMap)
    (key : string) (t : AsmToken) :
  well_formed expansionMap t -> well_formed expansionMap (resolve_key cap expansionMap key t).
Proof.
  unfold resolve_key. destruct (obj_get expansionMap key) as [e|]; [|auto].
  destruct t as [w|h|k|k]; auto; destruct (k =? key); auto; intros _; apply toHex_word.
Qed.

Lemma written_bracket (expansionMap : ExpansionMap) (t : AsmToken) :
  well_formed expansionMap t ->
  match t with
  | Plain w => all_word w = true
  | Push h => written t = "<" ++ h ++ ">"
  | KeyVar k => written t = "<" ++ k ++ ">"
  | KeyHashVar k => written t = "<" ++ ("HASH160(" ++ k ++ ")") ++ ">"
  end.
Proof.
  destruct t as [w|h|k|k]; cbn [written well_formed]; try reflexivity.
  - now intros (_ & Hw & _).
  - intros _. apply hash_pattern.
Qed.

Lemma plain_not_bracket (w body : string) :
  all_word w = true -> (w =? "<" ++ body ++ ">") = false.
Proof. intros Hw. apply String.eqb_neq. intros ->. discriminate Hw. Qed.

Lemma substituted_key_tokens (cap : Capabilities) (expansionMap : ExpansionMap)
    (key : string) (ts : list AsmToken) :
  (forall k, In k (Object_keys expansionMap) -> exists i, k = variable i) ->
  In key (Object_keys expansionMap) ->
  Forall (well_formed expansionMap) ts ->
  substituted_key cap expansionMap (String.concat " " (map written ts)) key
  = String.concat " " (map written (map (resolve_key cap expansionMap key) ts)).
Proof.
  intros Hkeys Hkey Hwf. unfold substituted_key.
  destruct (obj_get_key expansionMap key Hkey) as (e & He). rewrite He.
  destruct (Hkeys key Hkey) as (i & Hi).
  set (first_pass := fun t => match t with
                              | KeyVar k => if k =? key then Push (toHex (pubkey e)) else t
                              | _ => t
                              end).
  assert (Hword_key : forall h, all_word h = true -> (h =? key) = false).
  { intros h Hh. apply String.eqb_neq. intros ->. rewrite Hi in Hh. discriminate Hh. }
  assert (Hword_hash : forall h, all_word h = true ->
                                 (h =? "HASH160(" ++ key ++ ")") = false).
  { intros h Hh. apply String.eqb_neq. intros ->. discriminate Hh. }
  assert (Hvar_hash : forall k k', In k (Object_keys expansionMap) ->
                                   (k =? "HASH160(" ++ k' ++ ")") = false
                                   /\ ("HASH160(" ++ k' ++ ")" =? k) = false).
  { intros k k' Hk. destruct (Hkeys _ Hk) as (j & ->).
    split; apply String.eqb_neq; discriminate. }
  assert (Hhash_hash : forall k, ("HASH160(" ++ k ++ ")" =? "HASH160(" ++ key ++ ")")
                                 = (k =? key)).
  { intros k. destruct (String.eqb_spec k key) as [->|Hne]; [apply String.eqb_refl|].
    apply String.eqb_neq. intros H. injection H as H.
    apply app_inv_tail_length in H as [H _]; [contradiction | reflexivity]. }
  set (second_pass := fun t => match t with
                               | KeyHashVar k =>
                                   if k =? key
                                   then Push (toHex (hash160 cap (pubkey e)))
                                   else t
                               | _ => t
                               end).
  rewrite (replaceAll_tokens expansionMap key _ first_pass ts Hkeys).
  - rewrite (hash_pattern key).
    rewrite (replaceAll_tokens expansionMap ("HASH160(" ++ key ++ ")") _
               second_pass (map first_pass ts) Hkeys).
    + do 2 f_equal. rewrite map_map. apply map_ext_in. intros t Ht.
      unfold resolve_key, first_pass, second_pass. rewrite He.
      destruct t as [w|h|k|k]; try reflexivity.
      destruct (k =? key); reflexivity.
    + rewrite Hi. simpl. intros [H|[H|[H|[H|[H|[H|[H|[H|[H|H]]]]]]]]];
        try discriminate H.
      revert H. apply not_in_app_char; [discriminate|].
      apply all_word_free; [reflexivity | apply all_digits_word, decimal_digits].
    + intros t Ht. pose proof (written_bracket expansionMap t Ht) as Hb.
      subst second_pass. cbv beta.
      destruct t as [w|h|k|k]; cbn [well_formed] in Ht.
      * cbn [written]. now rewrite plain_not_bracket.
      * rewrite Hb, eqb_bracket. now rewrite Hword_hash.
      * rewrite Hb, eqb_bracket. now rewrite (proj1 (Hvar_hash k key Ht)).
      * rewrite Hb, eqb_bracket, Hhash_hash. rewrite <- Hb.
        destruct (k =? key); reflexivity.
    + apply Forall_map. eapply Forall_impl; [|exact Hwf].
      intros t Ht. subst first_pass. cbv beta.
      destruct t as [w|h|k|k]; auto. destruct (k =? key); auto. apply toHex_word.
  - rewrite Hi. apply variable_free; [reflexivity | discriminate].
  - intros t Ht. pose proof (written_bracket expansionMap t Ht) as Hb.
    subst first_pass. cbv beta.
    destruct t as [w|h|k|k]; cbn [well_formed] in Ht.
    + cbn [written]. now rewrite plain_not_bracket.
    + rewrite Hb, eqb_bracket. now rewrite Hword_key.
    + rewrite Hb, eqb_bracket. destruct (k =? key); reflexivity.
    + rewrite Hb, eqb_bracket. now rewrite (proj2 (Hvar_hash key k Hkey)).
  - exact Hwf.
Qed.

Lemma substituted_keys_tokens (cap : Capabilities) (expansionMap : ExpansionMap)
    (keys : list string) :
  (forall k, In k (Object_keys expansionMap) -> exists i, k = variable i) ->
  (forall k, In k keys -> In k (Object_keys expansionMap)) ->
  forall ts,
    Forall (well_formed expansionMap) ts ->
    fold_left (substituted_key cap expansionMap) keys
      (String.concat " " (map written ts))
    = String.concat " "
        (map written
           (map (fun t => fold_left (fun t k => resolve_key cap expansionMap k t) keys t)
              ts)).
Proof.
  intros Hkeys. induction keys as [|key keys IH]; intros Hin ts Hwf.
  - simpl. now rewrite map_id.
  - cbn [fold_left].
    rewrite (substituted_key_tokens cap expansionMap key ts Hkeys
               (Hin key (or_introl eq_refl)) Hwf).
    rewrite IH.
    + do 2 f_equal. now rewrite map_map.
    + intros k Hk. apply Hin. now right.
    + apply Forall_map. eapply Forall_impl; [|exact Hwf].
      intros t. apply resolve_key_well_formed.
Qed.

Lemma resolve_keys_token (cap : Capabilities) (expansionMap : ExpansionMap)
    (keys : list string) (t : AsmToken) :
  (forall k, In k keys -> In k (Object_keys expansionMap)) ->
  match t with
  | KeyVar k | KeyHashVar k => In k keys
  | _ => well_formed [] t
  end ->
  well_formed []
    (fold_left (fun t k => resolve_key cap expansionMap k t) keys t)
  /\ assembled cap expansionMap
       (fold_left (fun t k => resolve_key cap expansionMap k t) keys t)
     = assembled cap expansionMap t.
Proof.
  assert (Hstable : forall keys' t',
             match t' with Plain _ | Push _ => True | _ => False end ->
             fold_left (fun t k => resolve_key cap expansionMap k t) keys' t' = t').
  { induction keys' as [|k' keys' IH]; intros t' Ht'; [reflexivity|].
    cbn [fold_left]. unfold resolve_key at 2.
    destruct (obj_get expansionMap k'), t'; try contradiction; now apply IH. }
  destruct t as [w|h|k|k]; intros Hin Ht.
  - rewrite Hstable by exact I. auto.
  - rewrite Hstable by exact I. auto.
  - induction keys as [|key keys IH]; [contradiction|]. cbn [fold_left].
    destruct (obj_get_key expansionMap key (Hin key (or_introl eq_refl))) as (e & He).
    assert (Hstep : resolve_key cap expansionMap key (KeyVar k)
                    = if k =? key then Push (toHex (pubkey e)) else KeyVar k)
      by (unfold resolve_key; now rewrite He).
    rewrite Hstep. destruct (String.eqb_spec k key) as [->|Hne].
    + rewrite Hstable by exact I. cbn [assembled well_formed]. rewrite He.
      split; [apply toHex_word | reflexivity].
    + apply IH; [intros k' Hk'; apply Hin; now right|].
      destruct Ht as [Ht|Ht]; [congruence | exact Ht].
  - induction keys as [|key keys IH]; [contradiction|]. cbn [fold_left].
    destruct (obj_get_key expansionMap key (Hin key (or_introl eq_refl))) as (e & He).
    assert (Hstep : resolve_key cap expansionMap key (KeyHashVar k)
                    = if k =? key then Push (toHex (hash160 cap (pubkey e)))
                      else KeyHashVar k)
      by (unfold resolve_key; now rewrite He).
    rewrite Hstep. destruct (String.eqb_spec k key) as [->|Hne].
    + rewrite Hstable by exact I. cbn [assembled well_formed]. rewrite He.
      split; [apply toHex_word | reflexivity].
    + apply IH; [intros k' Hk'; apply Hin; now right|].
      destruct Ht as [Ht|Ht]; [congruence | exact Ht].
Qed.

Lemma substituteAsm_tokens_spec (cap : Capabilities)
    (expansionMap : ExpansionMap) (tokens : list AsmToken) :
  Object_keys expansionMap = variables 0 (List.length expansionMap) ->
  Forall (well_formed expansionMap) tokens ->
  substituteAsm cap (String.concat " " (map written tokens)) expansionMap
  = Ok (String.concat " " (map (assembled cap expansionMap) tokens)).
Proof.
  intros Hvars Hwf. rewrite substituteAsm_unfold. f_equal.
  assert (Hkeys : forall k, In k (Object_keys expansionMap) -> exists i, k = variable i).
  { intros k Hk. rewrite Hvars in Hk. unfold variables in Hk.
    apply in_map_iff in Hk as (i & <- & _). now exists i. }
  rewrite (substituted_keys_tokens cap expansionMap (Object_keys expansionMap) Hkeys)
    by auto.
  set (resolved := map _ tokens).
  assert (Hres : Forall (well_formed []) resolved
                 /\ map (assembled cap expansionMap) resolved
                    = map (assembled cap expansionMap) tokens).
  { subst resolved. clear Hvars. induction Hwf as [|t ts Ht Hts IH]; [now split|].
    destruct IH as [IH1 IH2]. cbn [map].
    destruct (resolve_keys_token cap expansionMap (Object_keys expansionMap) t)
      as [H1 H2]; [auto | |].
    - destruct t as [w|h|k|k]; exact Ht.
    - split; [now constructor | now rewrite H2, IH2]. }
  destruct Hres as [Hres1 Hres2].
  rewrite trim_tokens, collapse_spaces_tokens by assumption.
  now rewrite (encode_numbers_tokens cap expansionMap resolved None), Hres2 by auto.
Qed.

(** X11. On an ASM of well-formed tokens separated by single spaces, and
    with the expansion map of a miniscript (keys [@0], [@1], ...),
    [substituteAsm] works token by token: a key variable [<@i>] becomes the
    hex of the pubkey of [@i] and [<HASH160(@i)>] the hex of its hash160,
    a push [<hex>] loses its brackets and is not touched otherwise, a
    decimal number is replaced by [numberEncodeAsm] of it, and an opcode
    name stays as it is. *)
Theorem substituteAsm_token_by_token (cap : Capabilities)
    (expansionMap : ExpansionMap) (tokens : list AsmToken) :
  Object_keys expansionMap = variables 0 (List.length expansionMap) ->
  Forall (well_formed expansionMap) tokens ->
  substituteAsm cap (String.concat " " (map written tokens)) expansionMap
  = Ok (String.concat " " (map (assembled cap expansionMap) tokens)).
Proof. apply substituteAsm_tokens_spec. Qed.

(** ** What [satisfyMiniscript] throws *)

Lemma expandMiniscript_error (cap : Capabilities) (miniscript : string)
    (isSegwit : bool) (network : Network) (e : Error) :
  expandMiniscript cap miniscript isSegwit network = Err e ->
  exists who, e = External who.
Proof.
  rewrite expandMiniscript_is_expand_segments. intros H.
  apply bind_Err in H as [H|(r & _ & H)]; [|discriminate].
  apply expand_segments_error in H as (before & k & after & _ & _ & H).
  now apply call_not_own in H.
Qed.

Lemma substitute_knowns_Err (table : JsObject string) :
  forall asm0 e,
    substitute_knowns table asm0 = Err e ->
    exists k v, In (k, v) table /\ (v = EmptyString \/ v = "<>").
Proof.
  unfold substitute_knowns.
  induction table as [|[search replace] table IH]; simpl; intros asm0 e H;
    [discriminate|].
  destruct ((replace =? "") || (replace =? "<>")) eqn:E.
  - exists search, replace. split; [now left|].
    apply orb_prop in E as [E|E]; apply String.eqb_eq in E; auto.
  - apply IH in H as (k & v & Hin & Hv). eauto.
Qed.

Lemma obj_set_entries {V : Type} (o : JsObject V) (k : string) (v : V) (k' : string)
    (v' : V) :
  In (k', v') (obj_set o k v) -> (k' = k /\ v' = v) \/ In (k', v') o.
Proof.
  induction o as [|[k0 v0] o IH]; simpl.
  - intros [[= <- <-]|[]]. auto.
  - destruct (String.eqb_spec k0 k) as [->|Hne]; simpl.
    + intros [[= <- <-]|H]; auto.
    + intros [H|H]; [auto|]. apply IH in H as [H|H]; auto.
Qed.

Lemma fold_obj_set_entries {V X : Type} (key : X -> string) (val : X -> V)
    (l : list X) (o : JsObject V) (k : string) (v : V) :
  In (k, v) (fold_left (fun m x => obj_set m (key x) (val x)) l o) ->
  In (k, v) o \/ exists x, In x l /\ key x = k /\ val x = v.
Proof.
  revert o; induction l as [|x l IH]; simpl; intros o H; [auto|].
  apply IH in H as [H|(y & Hy & Hk & Hv)]; [|eauto 6].
  apply obj_set_entries in H as [[-> ->]|H]; eauto 6.
Qed.

Lemma toHex_empty (b : Buffer) : toHex b = EmptyString -> b = [].
Proof. destruct b; [reflexivity | discriminate]. Qed.

Lemma bracket_empty (s : string) : "<" ++ s ++ ">" = "<>" -> s = EmptyString.
Proof. destruct s as [|c [|c' s]]; [reflexivity | discriminate | discriminate]. Qed.

Lemma knowns_table_entries (expansionMap : ExpansionMap)
    (signatures : list PartialSig) (preimages : list Preimage) (k v : string) :
  In (k, v) (expandedKnownsMap_of expansionMap signatures preimages) ->
  (exists p, In p preimages /\ v = "<" ++ preimage p ++ ">")
  \/ (exists s, In s signatures /\ v = "<" ++ toHex (sig_signature s) ++ ">").
Proof.
  unfold expandedKnownsMap_of, obj_spread. intros H.
  apply (fold_obj_set_entries (fun kv : string * string => fst kv) (fun kv => snd kv))
    in H as [H|([k' v'] & H & Hk & Hv)]; simpl in *.
  - unfold preimageMap_of in H.
    apply fold_obj_set_entries in H as [[]|(p & Hp & _ & <-)]. left. eauto.
  - subst k' v'. unfold expandedSignatureMap_of in H.
    apply fold_obj_set_entries in H as [[]|(s & Hs & _ & <-)]. right. eauto.
Qed.

Lemma materialize_failures (cap : Capabilities) (table : JsObject string)
    (expansionMap : ExpansionMap) (sat : Sat) (e : Error) :
  materialize cap table expansionMap sat = Err e ->
  (e = InvalidKnownsMap
   /\ exists k v, In (k, v) table /\ (v = EmptyString \/ v = "<>"))
  \/ exists who, e = External who.
Proof.
  unfold materialize. intros H.
  apply bind_Err in H as [H|(a & _ & H)].
  - left. split; [eapply substitute_knowns_error; eauto|].
    eapply substitute_knowns_Err; eauto.
  - rewrite substituteAsm_unfold in H. cbn [bind] in H.
    apply bind_Err in H as [H|(c & _ & H)]; [|discriminate].
    right. eapply call_not_own; eauto.
Qed.

Lemma satisfyMiniscript_failures (cap : Capabilities) (miniscript : string)
    (isSegwit : bool) (signatures : list PartialSig) (preimages : list Preimage)
    (constraints : option Constraints) (network : Network) (e : Error) :
  satisfyMiniscript cap miniscript isSegwit signatures preimages constraints network
  = Err e ->
  e = Unresolvable
  \/ (e = ConstraintsUnmet /\ constraints <> None)
  \/ (e = InvalidKnownsMap
      /\ ((exists s, In s signatures /\ sig_signature s = [])
          \/ exists p, In p preimages /\ preimage p = EmptyString))
  \/ exists who, e = External who.
Proof.
  unfold satisfyMiniscript. intros H.
  apply bind_Err in H as [H|([expanded m] & _ & H)];
    [apply expandMiniscript_error in H; auto|].
  apply bind_Err in H as [H|(sats & _ & H)];
    [apply call_not_own in H; auto|].
  destruct sats as [[|first others]|]; try (injection H as <-; auto).
  apply bind_Err in H as [H|(sat & _ & H)].
  - destruct constraints as [c|]; [|discriminate].
    destruct (find (meets c) (first :: others)); [discriminate|].
    injection H as <-. right; left. split; [reflexivity | discriminate].
  - apply materialize_failures in H as [(-> & k & v & Hin & Hv)|H]; [|auto].
    right; right; left. split; [reflexivity|].
    apply knowns_table_entries in Hin as [(p & Hp & ->)|(s & Hs & ->)].
    + right. exists p. split; [exact Hp|].
      destruct Hv as [Hv|Hv]; [discriminate | now apply bracket_empty].
    + left. exists s. split; [exact Hs|]. apply toHex_empty.
      destruct Hv as [Hv|Hv]; [discriminate | now apply bracket_empty].
Qed.

(** X12. [satisfyMiniscript] throws four things only: [Unresolvable],
    [ConstraintsUnmet] (and this only when constraints are given),
    [InvalidKnownsMap] (and this only when a signature is an empty buffer
    or a preimage an empty string), and what a collaborator throws; the
    checks for duplicate public keys and for an invalid expansion map never
    fire. *)
Theorem satisfyMiniscript_throws (cap : Capabilities) (miniscript : string)
    (isSegwit : bool) (signatures : list PartialSig) (preimages : list Preimage)
    (constraints : option Constraints) (network : Network) (e : Error) :
  satisfyMiniscript cap miniscript isSegwit signatures preimages constraints network
  = Err e ->
  e = Unresolvable
  \/ (e = ConstraintsUnmet /\ constraints <> None)
  \/ (e = InvalidKnownsMap
      /\ ((exists s, In s signatures /\ sig_signature s = [])
          \/ exists p, In p preimages /\ preimage p = EmptyString))
  \/ exists who, e = External who.
Proof. apply satisfyMiniscript_failures. Qed.

(** ** The key-only forms *)

Lemma key_branch_Ok (cap : Capabilities) (p : Params) (iso : string)
    (keyExpression : option string) (render : string -> string) (isSegwit : bool)
    (expandedExpression : string) (pay : Buffer -> result Payment) (this : t) :
  key_branch cap p iso keyExpression render isSegwit expandedExpression pay = Ok this ->
  exists k parsed payment,
    keyExpression = Some k /\ iso = render k
    /\ parseKeyExpression cap k (network p) isSegwit = Ok parsed
    /\ pay (pubkey parsed) = Ok payment
    /\ this = fields (network p) (preimages p) payment None None (Some isSegwit)
                (Some expandedExpression) None (Some [("@0", parsed)]).
Proof.
  unfold key_branch. intros H. steps H.
  destruct keyExpression as [k|]; [|discriminate]. steps H.
  apply negb_false_iff, String.eqb_eq in E. simpl in E.
  exists k, a, a0. repeat split; auto.
Qed.

Lemma probe_no_miniscript (cap : Capabilities) (p : Params) (this : t) :
  d_miniscript this = None -> probe cap p this = Ok this.
Proof. intros H. unfold probe. now rewrite H. Qed.

Lemma call_Returned {A : Type} (o : outcome A) (a : A) : call o = Ok a -> o = Returned a.
Proof. destruct o; simpl; [now intros [= ->] | discriminate]. Qed.

(** X13. A descriptor built from [pk(KEY)], [pkh(KEY)], [sh(wpkh(KEY))] or
    [wpkh(KEY)]: the isolated expression is exactly the form around the first
    key expression found in it; [expand()] gives the form over [@0] and a
    map with the one entry [@0], the parsed key expression, and no
    miniscript; [isSegwit()] is false for the first two and true for the
    other two; the payment is the form's payment of the pubkey; and there is
    no witness script, lock time or sequence. *)
Theorem key_only_descriptor (cap : Capabilities) (p : Descriptor.Params)
    (isolatedExpression : string) (d : Descriptor.t)
    (before after : string) (segwit : bool) (expandedExpression : string) :
  isolate cap (Descriptor.expression p) (Descriptor.checksumRequired p)
    (Descriptor.index p) = Ok isolatedExpression ->
  key_only (Descriptor.shape_of cap isolatedExpression)
  = Some (before, after, segwit, expandedExpression) ->
  Descriptor.constructor cap p = Ok d ->
  exists keyExpression parsed,
    Descriptor.group cap reKeyExp 0 isolatedExpression = Some keyExpression
    /\ isolatedExpression = before ++ keyExpression ++ after
    /\ parseKeyExpression cap keyExpression (Descriptor.network p) segwit = Ok parsed
    /\ Descriptor.expand d
       = {| Descriptor.x_expandedExpression := Some expandedExpression;
            Descriptor.x_miniscript := None;
            Descriptor.x_expandedMiniscript := None;
            Descriptor.x_expansionMap := Some [("@0", parsed)] |}
    /\ Descriptor.isSegwit d = Some segwit
    /\ Descriptor.getWitnessScript d = None
    /\ Descriptor.getLockTime d = None
    /\ Descriptor.getSequence d = None
    /\ let pays kind := payments cap kind (FromPubkey (pubkey parsed))
                          (Descriptor.network p) in
       match Descriptor.shape_of cap isolatedExpression with
       | Descriptor.PkShape => pays P2PK = Returned (Descriptor.getPayment d)
       | Descriptor.PkhShape => pays P2PKH = Returned (Descriptor.getPayment d)
       | Descriptor.WpkhShape => pays P2WPKH = Returned (Descriptor.getPayment d)
       | Descriptor.ShWpkhShape =>
           exists redeem,
             pays P2WPKH = Returned redeem
             /\ payments cap P2SH (FromRedeem redeem) (Descriptor.network p)
                = Returned (Descriptor.getPayment d)
       | _ => False
       end.
Proof.
  intros Hi Hk Hc. unfold constructor in Hc. rewrite Hi in Hc. cbn [bind] in Hc.
  apply bind_Ok in Hc as (this & Hd & Hp). unfold dispatch in Hd.
  destruct (shape_of cap isolatedExpression); try discriminate Hk;
    injection Hk as <- <- <- <-;
    apply key_branch_Ok in Hd as (k & parsed & payment & Hg & Hiso & Hparse & Hpay & ->);
    rewrite probe_no_miniscript in Hp by reflexivity; injection Hp as <-;
    exists k, parsed; cbn;
    (repeat split; try assumption; try reflexivity).
  - now apply call_Returned.
  - now apply call_Returned.
  - apply bind_Ok in Hpay as (redeem & H1 & H2). exists redeem.
    split; now apply call_Returned.
  - now apply call_Returned.
Qed.

(** X14. On the key-only forms the constructor throws three things:
    [InvalidExpression] when the isolated expression is not the form around
    the key expression found, what [parseKeyExpression] or [payments] throw,
    and [KeyExpressionNotExtracted], which needs the isolated expression to
    be the form around the text [undefined] or around nothing. *)
Theorem key_only_throws (cap : Capabilities) (p : Descriptor.Params)
    (isolatedExpression : string) (e : Error)
    (before after : string) (segwit : bool) (expandedExpression : string) :
  isolate cap (Descriptor.expression p) (Descriptor.checksumRequired p)
    (Descriptor.index p) = Ok isolatedExpression ->
  key_only (Descriptor.shape_of cap isolatedExpression)
  = Some (before, after, segwit, expandedExpression) ->
  Descriptor.constructor cap p = Err e ->
  let keyExpression := Descriptor.group cap reKeyExp 0 isolatedExpression in
  (e = InvalidExpression
   /\ isolatedExpression <> before ++ Js.str_of_opt keyExpression ++ after)
  \/ (e = KeyExpressionNotExtracted
      /\ (isolatedExpression = before ++ "undefined" ++ after
          \/ isolatedExpression = before ++ after))
  \/ exists who, e = External who.
Proof.
  intros Hi Hk Hc keyExpression. unfold constructor in Hc. rewrite Hi in Hc.
  cbn [bind] in Hc.
  assert (Hbranch : forall render pay,
             (forall k, render k = before ++ k ++ after) ->
             (forall pk e', pay pk = Err e' -> exists who, e' = External who) ->
             key_branch cap p isolatedExpression keyExpression render segwit
               expandedExpression pay = Err e ->
             (e = InvalidExpression
              /\ isolatedExpression <> before ++ Js.str_of_opt keyExpression ++ after)
             \/ (e = KeyExpressionNotExtracted
                 /\ (isolatedExpression = before ++ "undefined" ++ after
                     \/ isolatedExpression = before ++ after))
             \/ exists who, e = External who).
  { intros render pay Hrender Hpay H. unfold key_branch in H. rewrite Hrender in H.
    destruct (String.eqb_spec isolatedExpression
                (before ++ Js.str_of_opt keyExpression ++ after)) as [Heq|Hne];
      cbn [negb] in H; [|injection H as <-; auto].
    destruct keyExpression as [k|]; [|injection H as <-; simpl in Heq; auto].
    destruct (String.eqb_spec k "") as [->|Hk'];
      [injection H as <-; simpl in Heq; auto|].
    apply bind_Err in H as [H|(parsed & _ & H)];
      [apply call_not_own in H; auto|].
    apply bind_Err in H as [H|(payment & _ & H)]; [|discriminate].
    apply Hpay in H. auto. }
  assert (Hcall : forall kind pk e',
             call (payments cap kind (FromPubkey pk) (network p)) = Err e' ->
             exists who, e' = External who)
    by (intros kind pk e'; apply call_not_own).
  apply bind_Err in Hc as [Hd|(this & Hd & Hp)].
  - unfold dispatch in Hd.
    destruct (shape_of cap isolatedExpression); try discriminate Hk;
      injection Hk as <- <- <- <-;
      (eapply Hbranch; [| |exact Hd]; [reflexivity|]); try (intros pk e'; apply Hcall).
    intros pk e' H. apply bind_Err in H as [H|(r & _ & H)];
      eapply call_not_own; eauto.
  - exfalso. unfold dispatch in Hd.
    destruct (shape_of cap isolatedExpression); try discriminate Hk;
      apply key_branch_inv in Hd as [Hd _];
      rewrite probe_no_miniscript in Hp by assumption; discriminate.
Qed.

(** ** [addr(ADDR)] *)

Lemma try_payments_last (cap : Capabilities) (out : Buffer) (net : Network)
    (kinds : list PaymentKind) :
  forall payment0,
    match fold_left (fun payment kind => try_payment cap kind out net payment)
            kinds payment0 with
    | Some payment =>
        (exists before kind after,
            kinds = (before ++ kind :: after)%list
            /\ payments cap kind (FromOutput out) net = Returned payment
            /\ Forall (fun k => exists who,
                           payments cap k (FromOutput out) net = Thrown who) after)
        \/ (payment0 = Some payment
            /\ Forall (fun k => exists who,
                           payments cap k (FromOutput out) net = Thrown who) kinds)
    | None =>
        payment0 = None
        /\ Forall (fun k => exists who,
                       payments cap k (FromOutput out) net = Thrown who) kinds
    end.
Proof.
  induction kinds as [|kind kinds IH]; intros payment0; cbn [fold_left].
  - destruct payment0; [right|]; split; (reflexivity || constructor).
  - specialize (IH (try_payment cap kind out net payment0)).
    destruct (fold_left _ kinds _) as [payment|].
    + destruct IH as [(before & k & after & -> & Hk & Hafter)|[Hp Hall]].
      * left. exists (kind :: before), k, after. auto.
      * unfold try_payment in Hp.
        destruct (payments cap kind (FromOutput out) net) as [pm|who] eqn:E.
        -- injection Hp as ->. left. exists [], kind, kinds. auto.
        -- right. split; [exact Hp|]. constructor; eauto.
    + destruct IH as [Hp Hall]. unfold try_payment in Hp.
      destruct (payments cap kind (FromOutput out) net) as [pm|who] eqn:E;
        [discriminate|].
      split; [exact Hp|]. constructor; eauto.
Qed.

(** X15. A descriptor built from [addr(ADDR)]: the address has an output
    script, the payment is the one of the last of p2pkh, p2sh, p2wpkh, p2wsh,
    p2tr that accepts this output script, and nothing else is known of it:
    [expand()] is empty, [isSegwit()] is undefined whatever the address,
    there is no witness script, lock time or sequence. The only error of its
    own the form throws is [InvalidAddress]. *)
Theorem addr_descriptor (cap : Capabilities) (p : Descriptor.Params)
    (isolatedExpression : string) :
  isolate cap (Descriptor.expression p) (Descriptor.checksumRequired p)
    (Descriptor.index p) = Ok isolatedExpression ->
  Descriptor.shape_of cap isolatedExpression = Descriptor.AddrShape ->
  let net := Descriptor.network p in
  (forall d,
      Descriptor.constructor cap p = Ok d ->
      exists matchedAddress out before kind after,
        Descriptor.group cap reAddrAnchored 1 isolatedExpression = Some matchedAddress
        /\ toOutputScript cap matchedAddress net = Returned out
        /\ address_kinds = (before ++ kind :: after)%list
        /\ payments cap kind (FromOutput out) net = Returned (Descriptor.getPayment d)
        /\ Forall (fun k => exists who, payments cap k (FromOutput out) net = Thrown who)
             after
        /\ Descriptor.expand d
           = {| Descriptor.x_expandedExpression := None;
                Descriptor.x_miniscript := None;
                Descriptor.x_expandedMiniscript := None;
                Descriptor.x_expansionMap := None |}
        /\ Descriptor.isSegwit d = None
        /\ Descriptor.getWitnessScript d = None
        /\ Descriptor.getLockTime d = None
        /\ Descriptor.getSequence d = None)
  /\ (forall e, Descriptor.constructor cap p = Err e -> e = InvalidAddress).
Proof.
  intros Hi Hs net.
  assert (Hc : constructor cap p
               = (this <- addr_branch cap p
                            (Js.str_of_opt (group cap reAddrAnchored 1 isolatedExpression)) ;;
                  probe cap p this)).
  { unfold constructor. rewrite Hi. cbn [bind]. unfold dispatch. now rewrite Hs. }
  assert (Ha : exists a, group cap reAddrAnchored 1 isolatedExpression = Some a).
  { unfold shape_of in Hs.
    destruct (Js.truthy (group cap reAddrAnchored 1 isolatedExpression)) eqn:E.
    - apply truthy_Some in E as (a & E & _). eauto.
    - repeat match type of Hs with
             | (if ?c then _ else _) = _ => destruct c; try discriminate Hs
             end. }
  destruct Ha as (a & Ha). rewrite Ha in Hc. cbn [Js.str_of_opt] in Hc.
  unfold addr_branch in Hc. fold net in Hc.
  destruct (toOutputScript cap a net) as [out|who] eqn:Eout.
  - pose proof (try_payments_last cap out net address_kinds None) as Hlast.
    cbn [fold_left address_kinds] in Hlast.
    destruct (try_payment cap P2TR out net _) as [payment|].
    + split; [|intros e He; rewrite Hc in He; discriminate He].
      intros d Hd. rewrite Hc in Hd. cbn [bind] in Hd.
      rewrite probe_no_miniscript in Hd by reflexivity. injection Hd as <-.
      destruct Hlast as [(before & kind & after & Hk & Hpay & Hafter)|[Hp _]];
        [|discriminate].
      exists a, out, before, kind, after. repeat split; auto.
    + split; [intros d Hd; rewrite Hc in Hd; discriminate Hd|].
      intros e He. rewrite Hc in He. now injection He as <-.
  - split; [intros d Hd; rewrite Hc in Hd; discriminate Hd|].
    intros e He. rewrite Hc in He. now injection He as <-.
Qed.

(** ** The miniscript forms *)

Lemma miniscript_branch_Ok (cap : Capabilities) (p : Params) (iso : string) (this : t)
    (pat : Pattern) (before after : string) (segwit : bool) :
  with_miniscript (shape_of cap iso) = Some (pat, before, after, segwit) ->
  dispatch cap p iso = Ok this ->
  exists miniscript expanded expansionMap script payment,
    group cap pat 1 iso = Some miniscript
    /\ miniscript <> EmptyString
    /\ expandMiniscript cap miniscript segwit (network p) = Ok (expanded, expansionMap)
    /\ miniscript2Script cap miniscript segwit (network p) = Ok script
    /\ match shape_of cap iso with
       | ShWshShape =>
           exists inner,
             payments cap P2WSH (FromRedeem (bare_output script)) (network p)
             = Returned inner
             /\ payments cap P2SH (FromRedeem inner) (network p) = Returned payment
       | ShShape =>
           payments cap P2SH (FromRedeem (bare_output script)) (network p)
           = Returned payment
       | WshShape =>
           payments cap P2WSH (FromRedeem (bare_output script)) (network p)
           = Returned payment
       | _ => False
       end
    /\ this = fields (network p) (preimages p) payment (Some miniscript)
                (if segwit then Some script else None) (Some segwit)
                (Some (before ++ expanded ++ after)) (Some expanded)
                (Some expansionMap).
Proof.
  intros Hf Hd. unfold dispatch in Hd.
  destruct (shape_of cap iso); try discriminate Hf; injection Hf as <- <- <- <-.
  - unfold sh_wsh_branch in Hd. steps Hd.
    apply negb_false_iff, truthy_Some in E as (ms & Hg & Hne & Hs).
    rewrite Hs in *.
    repeat match goal with H : call _ = Ok _ |- _ => apply call_Returned in H end.
    subst this. exists ms. do 4 eexists.
    split; [exact Hg|]. split; [exact Hne|]. split; [eassumption|].
    split; [eassumption|]. split; [eauto | reflexivity].
  - unfold sh_branch in Hd. steps Hd.
    apply negb_false_iff, truthy_Some in E as (ms & Hg & Hne & Hs).
    rewrite Hs in *.
    repeat match goal with H : call _ = Ok _ |- _ => apply call_Returned in H end.
    subst this. exists ms. do 4 eexists.
    split; [exact Hg|]. split; [exact Hne|]. split; [eassumption|].
    split; [eassumption|]. split; [eauto | reflexivity].
  - unfold wsh_branch in Hd. steps Hd.
    apply negb_false_iff, truthy_Some in E as (ms & Hg & Hne & Hs).
    rewrite Hs in *.
    repeat match goal with H : call _ = Ok _ |- _ => apply call_Returned in H end.
    subst this. exists ms. do 4 eexists.
    split; [exact Hg|]. split; [exact Hne|]. split; [eassumption|].
    split; [eassumption|]. split; [eauto | reflexivity].
Qed.

Lemma probe_Ok (cap : Capabilities) (p : Params) (this d : t) (miniscript : string)
    (segwit : bool) :
  d_miniscript this = Some miniscript -> miniscript <> EmptyString ->
  d_isSegwit this = Some segwit ->
  probe cap p this = Ok d ->
  exists signers fakeSignatures sat,
    signers_of cap p miniscript segwit = Ok signers
    /\ fakeSignatures_of cap (network p) segwit signers = Ok fakeSignatures
    /\ satisfyMiniscript cap miniscript segwit fakeSignatures (preimages p) None
         (network p) = Ok sat
    /\ d = set_constraints this sat.
Proof.
  intros Hm Hne Hs H. unfold probe in H. rewrite Hm, Hs in H. simpl in H.
  apply String.eqb_neq in Hne. rewrite Hne in H. simpl in H.
  steps H. subst d. eauto 8.
Qed.

Lemma satisfyMiniscript_Ok (cap : Capabilities) (miniscript : string)
    (isSegwit : bool) (signatures : list PartialSig) (preimages : list Preimage)
    (network : Network) (sat : Satisfaction) :
  satisfyMiniscript cap miniscript isSegwit signatures preimages None network = Ok sat ->
  exists expanded expansionMap first others,
    expandMiniscript cap miniscript isSegwit network = Ok (expanded, expansionMap)
    /\ satisfier cap expanded (knowns_of expansionMap signatures preimages)
       = Returned (Some (first :: others))
    /\ nLockTime sat = sat_nLockTime first
    /\ nSequence sat = sat_nSequence first.
Proof.
  unfold satisfyMiniscript. intros H.
  apply bind_Ok in H as ([expanded m] & He & H).
  apply bind_Ok in H as (sats & Hs & H). apply call_Returned in Hs.
  destruct sats as [[|first others]|]; try discriminate H.
  cbn [bind] in H. apply materialize_fields in H as [H1 H2].
  exists expanded, m, first, others. auto.
Qed.

(** X16. A descriptor built from [sh(wsh(MS))], [sh(MS)] or [wsh(MS)]:
    [expand()] gives the miniscript, its expansion with the key expressions
    replaced by [@i], the form written around that expansion, and the
    expansion map; the payment is p2sh over p2wsh, p2sh or p2wsh of the
    script compiled from the miniscript, which is also the witness script
    of the two segwit forms (the bare [sh] form has none). *)
Theorem miniscript_descriptor (cap : Capabilities) (p : Descriptor.Params)
    (isolatedExpression : string) (d : Descriptor.t)
    (pat : Pattern) (before after : string) (segwit : bool) :
  isolate cap (Descriptor.expression p) (Descriptor.checksumRequired p)
    (Descriptor.index p) = Ok isolatedExpression ->
  with_miniscript (Descriptor.shape_of cap isolatedExpression)
  = Some (pat, before, after, segwit) ->
  Descriptor.constructor cap p = Ok d ->
  let net := Descriptor.network p in
  exists miniscript expanded expansionMap script,
    Descriptor.group cap pat 1 isolatedExpression = Some miniscript
    /\ expandMiniscript cap miniscript segwit net = Ok (expanded, expansionMap)
    /\ miniscript2Script cap miniscript segwit net = Ok script
    /\ Descriptor.expand d
       = {| Descriptor.x_expandedExpression := Some (before ++ expanded ++ after);
            Descriptor.x_miniscript := Some miniscript;
            Descriptor.x_expandedMiniscript := Some expanded;
            Descriptor.x_expansionMap := Some expansionMap |}
    /\ Descriptor.isSegwit d = Some segwit
    /\ Descriptor.getWitnessScript d = (if segwit then Some script else None)
    /\ match Descriptor.shape_of cap isolatedExpression with
       | Descriptor.ShWshShape =>
           exists inner,
             payments cap P2WSH (FromRedeem (bare_output script)) net = Returned inner
             /\ payments cap P2SH (FromRedeem inner) net
                = Returned (Descriptor.getPayment d)
       | Descriptor.ShShape =>
           payments cap P2SH (FromRedeem (bare_output script)) net
           = Returned (Descriptor.getPayment d)
       | Descriptor.WshShape =>
           payments cap P2WSH (FromRedeem (bare_output script)) net
           = Returned (Descriptor.getPayment d)
       | _ => False
       end.
Proof.
  intros Hi Hf Hc net. apply constructor_inv in Hc as (iso & this & Hi' & Hd & Hp).
  assert (iso = isolatedExpression) by congruence. subst iso.
  destruct (miniscript_branch_Ok _ _ _ _ _ _ _ _ Hf Hd)
    as (ms & expanded & m & script & payment & Hg & Hne & He & Hscript & Hpay & ->).
  apply (probe_Ok cap p _ d ms segwit) in Hp as (signers & fakes & sat & _ & _ & _ & ->);
    try reflexivity; try assumption.
  exists ms, expanded, m, script. repeat split; auto.
Qed.

(** X17. The lock time and the sequence of a descriptor with a miniscript
    are those of the first satisfaction the engine offers for the expanded
    miniscript, given the preimages passed to the constructor and one fake
    signature for each signer. *)
Theorem constructor_caches_first_satisfaction (cap : Capabilities)
    (p : Descriptor.Params) (d : Descriptor.t) (miniscript : string) (segwit : bool) :
  Descriptor.constructor cap p = Ok d ->
  Descriptor.d_miniscript d = Some miniscript ->
  Descriptor.isSegwit d = Some segwit ->
  exists signers fakeSignatures expanded expansionMap first others,
    Descriptor.signers_of cap p miniscript segwit = Ok signers
    /\ Descriptor.fakeSignatures_of cap (Descriptor.network p) segwit signers
       = Ok fakeSignatures
    /\ expandMiniscript cap miniscript segwit (Descriptor.network p)
       = Ok (expanded, expansionMap)
    /\ satisfier cap expanded
         (knowns_of expansionMap fakeSignatures (Descriptor.preimages p))
       = Returned (Some (first :: others))
    /\ Descriptor.getLockTime d = sat_nLockTime first
    /\ Descriptor.getSequence d = sat_nSequence first.
Proof.
  intros Hc Hm Hs. apply constructor_inv in Hc as (iso & this & Hi & Hd & Hp).
  pose proof (probe_inv _ _ _ _ Hp) as (_ & _ & Hms & _ & Hseg & _).
  rewrite Hm in Hms. unfold Descriptor.isSegwit in Hs. rewrite Hs in Hseg.
  destruct (dispatch_miniscript _ _ _ _ _ Hd (eq_sym Hms)) as (script & HB).
  assert (Hne : miniscript <> EmptyString).
  { destruct (shape_of cap iso); try contradiction;
      [ | destruct HB as [HB _] | ]; apply (built_miniscript _ _ _ _ _ _ _ HB). }
  apply (probe_Ok cap p this d miniscript segwit) in Hp
    as (signers & fakes & sat & H1 & H2 & H3 & ->); auto.
  apply satisfyMiniscript_Ok in H3 as (expanded & m & first & others & He & Hsat & Hl & Hq).
  exists signers, fakes, expanded, m, first, others. repeat split; auto.
Qed.

(** ** What the constructor throws *)

Lemma isolate_failures (cap : Capabilities) (expression : string)
    (checksumRequired : bool) (index : JsNumber) (e : Error) :
  isolate cap expression checksumRequired index = Err e ->
  e = MissingChecksum \/ e = BadChecksum \/ e = InvalidIndex.
Proof.
  rewrite isolate_unfold. unfold particularize.
  destruct (match_checksum expression) as [m0|]; cbv zeta.
  - destruct (_ =? _); [|intros [= <-]; auto].
    destruct (Js.match_stars _); [|discriminate].
    destruct (0 <? _)%nat; [|discriminate].
    destruct (negb _ || _); [intros [= <-]; auto | discriminate].
  - destruct checksumRequired; [intros [= <-]; auto|].
    destruct (Js.match_stars _); [|discriminate].
    destruct (0 <? _)%nat; [|discriminate].
    destruct (negb _ || _); [intros [= <-]; auto | discriminate].
Qed.

Lemma gate_failures (cap : Capabilities) (script : Buffer) (max_size : nat) (e : Error) :
  gate cap script max_size = Err e ->
  e = ScriptTooLarge \/ e = CouldNotDecompile \/ e = TooManyOps.
Proof.
  unfold gate, countNonPushOnlyOPs.
  destruct (max_size <? _)%nat; [intros [= <-]; auto|].
  destruct (decompile cap script); cbn [bind]; [|intros [= <-]; auto].
  destruct (MAX_OPS_PER_SCRIPT <? _)%nat; [intros [= <-]; auto | discriminate].
Qed.

Lemma miniscript2Script_failures (cap : Capabilities) (miniscript : string)
    (isSegwit : bool) (network : Network) (e : Error) :
  miniscript2Script cap miniscript isSegwit network = Err e ->
  e = InsaneMiniscript \/ exists who, e = External who.
Proof.
  unfold miniscript2Script. intros H.
  apply bind_Err in H as [H|([expanded m] & _ & H)];
    [apply expandMiniscript_error in H; auto|].
  apply bind_Err in H as [H|(compiled & _ & H)]; [apply call_not_own in H; auto|].
  destruct (negb (snd compiled)); [injection H as <-; auto|].
  rewrite substituteAsm_unfold in H. cbn [bind] in H.
  apply call_not_own in H. auto.
Qed.

Lemma mapM_failure {A B : Type} (f : A -> result B) (l : list A) (e : Error) :
  mapM f l = Err e -> exists x, In x l /\ f x = Err e.
Proof.
  induction l as [|x l IH]; simpl; [discriminate|]. intros H.
  apply bind_Err in H as [H|(y & _ & H)]; [eauto|].
  apply bind_Err in H as [H|(ys & _ & H)]; [|discriminate].
  apply IH in H as (x' & Hin & Hx). eauto.
Qed.

Lemma dispatch_failures (cap : Capabilities) (p : Params) (iso : string) (e : Error) :
  dispatch cap p iso = Err e ->
  (In e constructor_throws /\ e <> Unresolvable /\ e <> InvalidKnownsMap
   /\ (e = CouldNotParse <-> shape_of cap iso = NoShape))
  \/ exists who, e = External who.
Proof.
  assert (Hbranch : forall (r : result t) (shape : Shape),
             shape <> NoShape ->
             r = Err e ->
             (r = Err e ->
              In e [InvalidAddress; InvalidExpression; KeyExpressionNotExtracted;
                    MiniscriptNotExtracted; MiniscriptInP2SHDisallowed;
                    InsaneMiniscript; ScriptTooLarge; CouldNotDecompile; TooManyOps]
              \/ exists who, e = External who) ->
             (In e constructor_throws /\ e <> Unresolvable /\ e <> InvalidKnownsMap
              /\ (e = CouldNotParse <-> shape = NoShape))
             \/ exists who, e = External who).
  { intros r shape Hshape Hr Hin. destruct (Hin Hr) as [H|H]; [left | now right].
    simpl in H. unfold constructor_throws.
    repeat (destruct H as [<-|H];
            [repeat split; simpl; try tauto; try discriminate; intros; congruence|]).
    contradiction. }
  assert (Hkey : forall keyExpression render isSegwit expanded pay,
             (forall pk e', pay pk = Err e' -> exists who, e' = External who) ->
             key_branch cap p iso keyExpression render isSegwit expanded pay = Err e ->
             In e [InvalidAddress; InvalidExpression; KeyExpressionNotExtracted;
                   MiniscriptNotExtracted; MiniscriptInP2SHDisallowed;
                   InsaneMiniscript; ScriptTooLarge; CouldNotDecompile; TooManyOps]
             \/ exists who, e = External who).
  { intros keyExpression render isSegwit expanded pay Hpay H. unfold key_branch in H.
    destruct (negb _); [injection H as <-; simpl; tauto|].
    destruct keyExpression as [k|]; [|injection H as <-; simpl; tauto].
    destruct (k =? ""); [injection H as <-; simpl; tauto|].
    apply bind_Err in H as [H|(parsed & _ & H)]; [apply call_not_own in H; auto|].
    apply bind_Err in H as [H|(payment & _ & H)]; [|discriminate].
    apply Hpay in H. auto. }
  assert (Hms : forall (mo : option string) (check : result unit) isSegwit limit
                       (finish : string -> ExpansionMap -> Buffer -> result t),
             (check = Err e -> e = MiniscriptInP2SHDisallowed) ->
             (forall x m s, finish x m s = Err e -> exists who, e = External who) ->
             (throw_if negb (Js.truthy mo) then MiniscriptNotExtracted ;;
              _ <- check ;;
              ' (expandedMiniscript, expansionMap) <-
                expandMiniscript cap (Js.str_of_opt mo) isSegwit (network p) ;;
              script <- miniscript2Script cap (Js.str_of_opt mo) isSegwit (network p) ;;
              _ <- gate cap script limit ;;
              finish expandedMiniscript expansionMap script) = Err e ->
             In e [InvalidAddress; InvalidExpression; KeyExpressionNotExtracted;
                   MiniscriptNotExtracted; MiniscriptInP2SHDisallowed;
                   InsaneMiniscript; ScriptTooLarge; CouldNotDecompile; TooManyOps]
             \/ exists who, e = External who).
  { intros mo check isSegwit limit finish Hcheck Hfinish H.
    destruct (negb _); [injection H as <-; simpl; tauto|].
    apply bind_Err in H as [H|(u & _ & H)]; [apply Hcheck in H as ->; simpl; tauto|].
    apply bind_Err in H as [H|([x m] & _ & H)];
      [apply expandMiniscript_error in H; auto|].
    apply bind_Err in H as [H|(script & _ & H)].
    { apply miniscript2Script_failures in H as [->|H]; [simpl; tauto | auto]. }
    apply bind_Err in H as [H|(u' & _ & H)].
    { apply gate_failures in H as [->|[->| ->]]; simpl; tauto. }
    apply Hfinish in H. auto. }
  assert (Hcall : forall kind arg e',
             call (payments cap kind arg (network p)) = Err e' ->
             exists who, e' = External who)
    by (intros kind arg e'; apply call_not_own).
  unfold dispatch. intros H.
  destruct (shape_of cap iso) eqn:Es.
  - apply (Hbranch _ AddrShape ltac:(discriminate) H). intros H'.
    unfold addr_branch in H'.
    destruct (toOutputScript cap _ _); [|injection H' as <-; simpl; tauto].
    destruct (try_payment _ _ _ _ _); [discriminate | injection H' as <-; simpl; tauto].
  - apply (Hbranch _ PkShape ltac:(discriminate) H). apply Hkey.
    intros pk e'. apply Hcall.
  - apply (Hbranch _ PkhShape ltac:(discriminate) H). apply Hkey.
    intros pk e'. apply Hcall.
  - apply (Hbranch _ ShWpkhShape ltac:(discriminate) H). apply Hkey.
    intros pk e' H'. apply bind_Err in H' as [H'|(r & _ & H')]; eapply Hcall; eauto.
  - apply (Hbranch _ WpkhShape ltac:(discriminate) H). apply Hkey.
    intros pk e'. apply Hcall.
  - apply (Hbranch _ ShWshShape ltac:(discriminate) H). intros H'.
    apply (Hms (group cap reShWshMiniscriptAnchored 1 iso) (Ok tt) true
             MAX_STANDARD_P2WSH_SCRIPT_SIZE
             (fun x m s =>
                inner <- call (payments cap P2WSH (FromRedeem (bare_output s)) (network p)) ;;
                payment <- call (payments cap P2SH (FromRedeem inner) (network p)) ;;
                Ok (fields (network p) (preimages p) payment
                      (Some (Js.str_of_opt (group cap reShWshMiniscriptAnchored 1 iso)))
                      (Some s) (Some true) (Some ("sh(wsh(" ++ x ++ "))")) (Some x)
                      (Some m)))).
    + discriminate.
    + intros x m s Hf. apply bind_Err in Hf as [Hf|(inner & _ & Hf)];
        [eapply Hcall; eauto|].
      apply bind_Err in Hf as [Hf|(payment & _ & Hf)]; [eapply Hcall; eauto|discriminate].
    + exact H'.
  - apply (Hbranch _ ShShape ltac:(discriminate) H). intros H'.
    apply (Hms (group cap reShMiniscriptAnchored 1 iso)
             (throw_if negb (allowMiniscriptInP2SH p)
                       && negb (search_template
                                  (Js.str_of_opt (group cap reShMiniscriptAnchored 1 iso))
                                =? 0)%Z
              then MiniscriptInP2SHDisallowed ;; Ok tt)
             false MAX_SCRIPT_ELEMENT_SIZE
             (fun x m s =>
                payment <- call (payments cap P2SH (FromRedeem (bare_output s)) (network p)) ;;
                Ok (fields (network p) (preimages p) payment
                      (Some (Js.str_of_opt (group cap reShMiniscriptAnchored 1 iso)))
                      None (Some false) (Some ("sh(" ++ x ++ ")")) (Some x) (Some m)))).
    + destruct (_ && _); [now intros [= <-] | discriminate].
    + intros x m s Hf. apply bind_Err in Hf as [Hf|(payment & _ & Hf)];
        [eapply Hcall; eauto | discriminate].
    + unfold sh_branch in H'. destruct (negb (Js.truthy _)); [exact H'|].
      destruct (_ && _); exact H'.
  - apply (Hbranch _ WshShape ltac:(discriminate) H). intros H'.
    apply (Hms (group cap reWshMiniscriptAnchored 1 iso) (Ok tt) true
             MAX_STANDARD_P2WSH_SCRIPT_SIZE
             (fun x m s =>
                payment <- call (payments cap P2WSH (FromRedeem (bare_output s)) (network p)) ;;
                Ok (fields (network p) (preimages p) payment
                      (Some (Js.str_of_opt (group cap reWshMiniscriptAnchored 1 iso)))
                      (Some s) (Some true) (Some ("wsh(" ++ x ++ ")")) (Some x)
                      (Some m)))).
    + discriminate.
    + intros x m s Hf. apply bind_Err in Hf as [Hf|(payment & _ & Hf)];
        [eapply Hcall; eauto | discriminate].
    + exact H'.
  - injection H as <-. left. unfold constructor_throws.
    repeat split; simpl; try tauto; discriminate.
Qed.

Lemma dispatch_isSegwit (cap : Capabilities) (p : Params) (iso : string) (this : t) :
  dispatch cap p iso = Ok this ->
  Js.truthy (d_miniscript this) = true -> d_isSegwit this <> None.
Proof.
  intros Hd Hm. apply truthy_Some in Hm as (ms & Hms & _ & _).
  destruct (dispatch_miniscript _ _ _ _ _ Hd Hms) as (script & HB).
  destruct (shape_of cap iso); try contradiction;
    [ | destruct HB as [HB _] | ];
    rewrite (built_isSegwit _ _ _ _ _ _ _ HB); discriminate.
Qed.

Lemma probe_failures (cap : Capabilities) (p : Params) (this : t) (e : Error) :
  d_isSegwit this <> None \/ Js.truthy (d_miniscript this) = false ->
  probe cap p this = Err e ->
  e = Unresolvable \/ e = InvalidKnownsMap \/ exists who, e = External who.
Proof.
  intros Hseg H. unfold probe in H.
  destruct (Js.truthy (d_miniscript this)); [|discriminate].
  destruct (d_isSegwit this) as [isSegwit|]; [|destruct Hseg; congruence].
  apply bind_Err in H as [H|(signers & _ & H)].
  { unfold signers_of in H. destruct (signersKeyExpressions p); [discriminate|].
    apply bind_Err in H as [H|([x m] & _ & H)]; [|discriminate].
    apply expandMiniscript_error in H. auto. }
  apply bind_Err in H as [H|(fakes & _ & H)].
  { unfold fakeSignatures_of in H. apply mapM_failure in H as (k & _ & H).
    apply bind_Err in H as [H|(parsed & _ & H)]; [|discriminate].
    apply call_not_own in H. auto. }
  apply bind_Err in H as [H|(sat & _ & H)]; [|discriminate].
  apply satisfyMiniscript_failures in H as [->|[[_ Hc]|[[-> _]|H]]]; auto.
  now destruct Hc.
Qed.

(** X18. Whatever the parameters, the constructor throws one of fifteen
    errors of its own or what a collaborator throws. Three more [throw]
    statements lie on its way and never fire: duplicate public keys, an
    invalid expansion map, and an undetermined segwit flag. It throws
    "Could not parse descriptor" exactly when the isolated expression
    matches none of the eight forms. *)
Theorem constructor_throws_these (cap : Capabilities) (p : Descriptor.Params) (e : Error) :
  (Descriptor.constructor cap p = Err e ->
   (In e constructor_throws \/ exists who, e = External who)
   /\ e <> DuplicatePubkey /\ e <> InvalidExpansionMap /\ e <> SegwitUndetermined)
  /\ (Descriptor.constructor cap p = Err CouldNotParse <->
      exists isolatedExpression,
        isolate cap (Descriptor.expression p) (Descriptor.checksumRequired p)
          (Descriptor.index p) = Ok isolatedExpression
        /\ Descriptor.shape_of cap isolatedExpression = Descriptor.NoShape).
Proof.
  assert (Hclass : forall e',
             constructor cap p = Err e' ->
             (In e' constructor_throws
              /\ (e' = CouldNotParse ->
                  exists iso,
                    isolate cap (expression p) (checksumRequired p) (index p) = Ok iso
                    /\ shape_of cap iso = NoShape))
             \/ exists who, e' = External who).
  { intros e' H. unfold constructor in H.
    apply bind_Err in H as [H|(iso & Hi & H)].
    { apply isolate_failures in H as [->|[->| ->]]; left;
        (split; [simpl; tauto | discriminate]). }
    apply bind_Err in H as [H|(this & Hd & H)].
    { apply dispatch_failures in H as [(Hin & _ & _ & Hcp)|H]; [left | now right].
      split; [exact Hin|]. intros ->. exists iso. split; [exact Hi | now apply Hcp]. }
    assert (Hseg : d_isSegwit this <> None \/ Js.truthy (d_miniscript this) = false).
    { destruct (Js.truthy (d_miniscript this)) eqn:Em; [left | now right].
      now apply (dispatch_isSegwit cap p iso). }
    apply (probe_failures cap p this e' Hseg) in H as [->|[->|H]];
      [left; split; [simpl; tauto | discriminate]
      |left; split; [simpl; tauto | discriminate]
      |now right]. }
  split.
  - intros H. destruct (Hclass e H) as [[Hin _]|(who & ->)].
    + split; [now left|]. unfold constructor_throws in Hin. simpl in Hin.
      repeat (destruct Hin as [<-|Hin]; [repeat split; discriminate|]).
      contradiction.
    + split; [right; eauto | repeat split; discriminate].
  - split.
    + intros H. destruct (Hclass _ H) as [[_ Hcp]|(who & [=])]. now apply Hcp.
    + intros (iso & Hi & Hs). unfold constructor. rewrite Hi. cbn [bind].
      unfold dispatch. now rewrite Hs.
Qed.

(** ** [getScriptSatisfaction] and [finalizePsbtInput] on a built descriptor *)

Lemma constructor_isSegwit (cap : Capabilities) (p : Params) (d : t) :
  constructor cap p = Ok d ->
  Js.truthy (d_miniscript d) = true -> d_isSegwit d <> None.
Proof.
  intros Hc Hm. apply constructor_inv in Hc as (iso & this & _ & Hd & Hp).
  apply probe_inv in Hp as (_ & _ & Hms & _ & Hseg & _).
  rewrite Hms in Hm. rewrite Hseg. now apply (dispatch_isSegwit cap p iso).
Qed.

Lemma getScriptSatisfaction_failures (cap : Capabilities) (this : t)
    (signatures : list PartialSig) (e : Error) :
  d_isSegwit this <> None \/ Js.truthy (d_miniscript this) = false ->
  getScriptSatisfaction cap this signatures = Err e ->
  (e = NoMiniscript /\ Js.truthy (d_miniscript this) = false)
  \/ e = Unresolvable \/ e = ConstraintsUnmet
  \/ (e = InvalidKnownsMap
      /\ ((exists s, In s signatures /\ sig_signature s = [])
          \/ exists p, In p (d_preimages this) /\ preimage p = EmptyString))
  \/ exists who, e = External who.
Proof.
  intros Hseg H. unfold getScriptSatisfaction in H.
  destruct (Js.truthy (d_miniscript this)) eqn:Em; cbn [negb] in H;
    [|injection H as <-; auto].
  destruct (d_isSegwit this) as [isSegwit|]; [|destruct Hseg; congruence].
  apply bind_Err in H as [H|(sat & _ & H)]; [|discriminate].
  apply satisfyMiniscript_failures in H as [->|[[-> _]|[[-> Hk]|H]]]; auto 6.
Qed.

(** X19. On a descriptor built by the constructor, [getScriptSatisfaction]
    throws "does not have a miniscript expression" exactly when the
    descriptor has none (the [addr] and key-only forms); otherwise it throws
    only what [satisfyMiniscript] throws; its two other [throw] statements
    (undetermined segwit flag, no valid satisfaction) never fire. *)
Theorem getScriptSatisfaction_throws (cap : Capabilities) (p : Descriptor.Params)
    (d : Descriptor.t) (signatures : list PartialSig) :
  Descriptor.constructor cap p = Ok d ->
  (Descriptor.getScriptSatisfaction cap d signatures = Err NoMiniscript <->
   Descriptor.d_miniscript d = None)
  /\ forall e,
       Descriptor.getScriptSatisfaction cap d signatures = Err e ->
       e = NoMiniscript \/ e = Unresolvable \/ e = ConstraintsUnmet
       \/ (e = InvalidKnownsMap
           /\ ((exists s, In s signatures /\ sig_signature s = [])
               \/ exists pre, In pre (Descriptor.preimages p)
                              /\ preimage pre = EmptyString))
       \/ exists who, e = External who.
Proof.
  intros Hc.
  assert (Hseg : d_isSegwit d <> None \/ Js.truthy (d_miniscript d) = false).
  { destruct (Js.truthy (d_miniscript d)) eqn:Em; [left | now right].
    now apply (constructor_isSegwit cap p). }
  assert (Hpre : d_preimages d = preimages p).
  { apply constructor_inv in Hc as (iso & this & _ & Hd & Hp).
    apply probe_inv in Hp as (_ & -> & _).
    unfold dispatch in Hd.
    destruct (shape_of cap iso); try discriminate;
      try (now apply key_branch_inv in Hd as [_ Hd]).
    - now apply addr_branch_inv in Hd as [_ Hd].
    - apply sh_wsh_branch_inv in Hd as (ms & script & B & _).
      apply (built_preimages _ _ _ _ _ _ _ B).
    - apply sh_branch_inv in Hd as (ms & script & B & _).
      apply (built_preimages _ _ _ _ _ _ _ B).
    - apply wsh_branch_inv in Hd as (ms & script & B & _).
      apply (built_preimages _ _ _ _ _ _ _ B). }
  assert (Hnone : Js.truthy (d_miniscript d) = false <-> d_miniscript d = None).
  { split; [|now intros ->]. intros Ht.
    destruct (d_miniscript d) as [ms|] eqn:Em; [exfalso | reflexivity].
    apply constructor_inv in Hc as (iso & this & _ & Hd & Hp).
    apply probe_inv in Hp as (_ & _ & Hms & _). rewrite Em in Hms.
    destruct (dispatch_miniscript _ _ _ _ _ Hd (eq_sym Hms)) as (script & HB).
    assert (Hne : ms <> EmptyString).
    { destruct (shape_of cap iso); try contradiction;
        [ | destruct HB as [HB _] | ]; apply (built_miniscript _ _ _ _ _ _ _ HB). }
    simpl in Ht. apply negb_false_iff, String.eqb_eq in Ht. contradiction. }
  split.
  - split.
    + intros H. apply (getScriptSatisfaction_failures cap d signatures _ Hseg) in H
        as [[_ H]|[H|[H|[[H _]|(who & H)]]]]; try discriminate H.
      now apply Hnone.
    + intros H. apply getScriptSatisfaction_no_miniscript. now apply Hnone.
  - intros e H. apply (getScriptSatisfaction_failures cap d signatures _ Hseg) in H
      as [[-> _]|[->|[->|[[-> H]|H]]]]; auto.
    rewrite Hpre in H. auto 6.
Qed.

Lemma finalizeInput_failure (psbt : Psbt) (index : Z) (f : Finalizer) (e : Error) :
  finalizeInput psbt index f = Err e -> e = External "finalizeInput".
Proof.
  unfold finalizeInput. destruct (array_get _ _); [discriminate | now intros [= <-]].
Qed.

(** X20. [finalizePsbtInput] throws "cannot finalize without signatures"
    exactly when the Psbt has no input at [index] or that input has no
    [partialSig]; the check comes before any look at the descriptor. *)
Theorem finalizePsbtInput_without_signatures (cap : Capabilities)
    (this : Descriptor.t) (index : Z) (psbt : Psbt) :
  Descriptor.finalizePsbtInput cap this index psbt = Err NoSignatures <->
  match array_get (inputs psbt) index with
  | Some input => partialSig input = None
  | None => True
  end.
Proof.
  unfold finalizePsbtInput. split.
  - destruct (array_get (inputs psbt) index) as [input|]; [|trivial].
    destruct (partialSig input) as [signatures|]; [|trivial]. intros H. exfalso.
    apply bind_Err in H as [H|(s & _ & H)].
    + unfold getScriptSatisfaction in H.
      destruct (negb _); [discriminate|].
      destruct (d_isSegwit this); [|discriminate].
      apply bind_Err in H as [H|(sat & _ & H)]; [|discriminate].
      apply satisfyMiniscript_failures in H as [H|[[H _]|[[H _]|(who & H)]]];
        discriminate H.
    + cbn in H. apply finalizeInput_failure in H. discriminate.
  - destruct (array_get (inputs psbt) index) as [input|]; [|reflexivity].
    now intros ->.
Qed.

(** ** The input [updatePsbt] adds *)

Lemma bip32Derivation_of_In (expansionMap : ExpansionMap) (b : Bip32Derivation) :
  In b (bip32Derivation_of expansionMap) <->
  exists keyExpression,
    In keyExpression (Object_values expansionMap)
    /\ masterFingerprint keyExpression = Some (bip_masterFingerprint b)
    /\ path keyExpression = Some (bip_path b)
    /\ bip_path b <> EmptyString
    /\ pubkey keyExpression = bip_pubkey b.
Proof.
  unfold bip32Derivation_of. rewrite in_flat_map. split.
  - intros (e & He & Hb). exists e. split; [exact He|].
    destruct (masterFingerprint e) as [fp|]; [|contradiction].
    destruct (path e) as [pth|]; [|contradiction].
    destruct (String.eqb_spec pth "") as [Heq|Hne]; [contradiction|].
    destruct Hb as [<-|[]]. simpl. auto.
  - intros (e & He & Hfp & Hpath & Hne & Hpk). exists e. split; [exact He|].
    rewrite Hfp, Hpath. apply String.eqb_neq in Hne. rewrite Hne. left.
    destruct b; simpl in *. now subst.
Qed.

(** X21. The input [updatePsbt] adds holds the hash of the transaction, the
    output index and the whole transaction as [nonWitnessUtxo]; a
    [witnessUtxo], made of the descriptor's output script and the value of
    the output spent, exactly when [isSegwit()] is true; the descriptor's
    witness script if it has one; and as [bip32Derivation] the key
    expressions of the expansion map that have both a master fingerprint
    and a path, the field being left out when there is none. It has no
    signature yet. *)
Theorem updatePsbt_input (cap : Capabilities) (this : Descriptor.t)
    (txHex : string) (vout : Z) (psbt psbt' : Psbt) (tx : Transaction)
    (out : TxOutput) (index : Z) :
  Transaction_fromHex cap txHex = Returned tx ->
  array_get (outs tx) vout = Some out ->
  Descriptor.updatePsbt cap this txHex vout psbt = Ok (index, psbt') ->
  exists input,
    array_get (inputs psbt') index = Some input
    /\ in_hash input = getHash tx
    /\ in_index input = vout
    /\ nonWitnessUtxo input = toBuffer tx
    /\ match Descriptor.isSegwit this with
       | Some true =>
           exists script,
             Descriptor.getScriptPubKey this = Ok script
             /\ witnessUtxo input = Some (script, out_value out)
       | _ => witnessUtxo input = None
       end
    /\ in_witnessScript input = Descriptor.getWitnessScript this
    /\ match bip32Derivation input with
       | Some derivations =>
           derivations <> []
           /\ exists expansionMap,
                Descriptor.d_expansionMap this = Some expansionMap
                /\ forall b,
                     In b derivations <->
                     exists keyExpression,
                       In keyExpression (Object_values expansionMap)
                       /\ masterFingerprint keyExpression = Some (bip_masterFingerprint b)
                       /\ path keyExpression = Some (bip_path b)
                       /\ bip_path b <> EmptyString
                       /\ pubkey keyExpression = bip_pubkey b
       | None =>
           forall expansionMap keyExpression,
             Descriptor.d_expansionMap this = Some expansionMap ->
             In keyExpression (Object_values expansionMap) ->
             masterFingerprint keyExpression = None
             \/ path keyExpression = None \/ path keyExpression = Some EmptyString
       end
    /\ partialSig input = None
    /\ finalizedWith input = None.
Proof.
  intros Htx Hout H. unfold updatePsbt in H. rewrite Htx in H. cbn [call bind] in H.
  rewrite Hout in H.
  apply bind_Ok in H as (psbt1 & Hlock & H).
  apply bind_Ok in H as (witness & Hw & H).
  apply bind_Ok in H as (psbt2 & Hadd & H). injection H as <- <-.
  unfold addInput in Hadd.
  destruct (addInput_rejects cap psbt1 _); [discriminate Hadd|].
  cbn [call] in Hadd. injection Hadd as <-.
  eexists. split.
  { cbn [inputs]. rewrite List.length_app. cbn [List.length].
    replace (Z.of_nat (List.length (inputs psbt1) + 1) - 1)%Z
      with (Z.of_nat (List.length (inputs psbt1))) by lia.
    apply array_get_last. }
  cbn [in_hash in_index nonWitnessUtxo witnessUtxo in_witnessScript bip32Derivation
         partialSig finalizedWith].
  repeat split.
  - destruct (Descriptor.isSegwit this) as [[|]|].
    + apply bind_Ok in Hw as (script & Hs & Hw). injection Hw as <-. eauto.
    + now injection Hw as <-.
    + now injection Hw as <-.
  - destruct (d_expansionMap this) as [m|].
    + destruct (bip32Derivation_of m) as [|b0 l] eqn:E.
      * intros m' e [= <-] He.
        destruct (masterFingerprint e) as [fp|] eqn:Efp; [|auto].
        destruct (path e) as [pth|] eqn:Ep; [|auto].
        destruct (String.eqb_spec pth "") as [->|Hne]; [auto|]. exfalso.
        assert (Hin : In {| bip_masterFingerprint := fp; bip_pubkey := pubkey e;
                            bip_path := pth |} (bip32Derivation_of m))
          by (apply bip32Derivation_of_In; exists e; simpl; auto).
        rewrite E in Hin. contradiction.
      * split; [discriminate|]. exists m. split; [reflexivity|].
        intros b. rewrite <- E. apply bip32Derivation_of_In.
    + intros m' e [=].
Qed.

(** ** From the miniscript to the script *)

Lemma expandMiniscript_keys (cap : Capabilities) (miniscript : string)
    (isSegwit : bool) (network : Network) (expanded : string)
    (expansionMap : ExpansionMap) :
  expandMiniscript cap miniscript isSegwit network = Ok (expanded, expansionMap) ->
  Object_keys expansionMap = variables 0 (List.length expansionMap).
Proof.
  rewrite expandMiniscript_is_expand_segments. intros He.
  apply bind_Ok in He as ([x m] & He & Hr). injection Hr as <- <-.
  apply expand_segments_numbers in He as (_ & parsed & _ & Hk & _); [|reflexivity].
  cbn [fst snd List.length Nat.add] in *.
  assert (Hkeys : Object_keys (map (fun kv => (fst kv, obj (snd kv))) m) = Object_keys m)
    by (unfold Object_keys; now rewrite map_map).
  rewrite Hkeys, Hk. f_equal. rewrite length_map.
  rewrite <- (length_map fst m). fold (Object_keys m).
  now rewrite Hk, variables_length.
Qed.

(** X22. [miniscript2Script], end to end: when the engine compiles the
    expanded miniscript to a sane ASM of well-formed tokens, the script is
    what [fromASM] makes of these tokens with the key variables replaced by
    the hex of the pubkeys (or of their hash160), the numbers encoded and
    the brackets of the pushes removed. *)
Theorem miniscript2Script_assembles (cap : Capabilities) (miniscript : string)
    (isSegwit : bool) (network : Network) (expanded : string)
    (expansionMap : ExpansionMap) (tokens : list AsmToken) :
  expandMiniscript cap miniscript isSegwit network = Ok (expanded, expansionMap) ->
  compileMiniscript cap expanded
  = Returned (String.concat " " (map written tokens), true) ->
  Forall (well_formed expansionMap) tokens ->
  miniscript2Script cap miniscript isSegwit network
  = call (fromASM cap (String.concat " " (map (assembled cap expansionMap) tokens))).
Proof.
  intros He Hc Hwf. unfold miniscript2Script. rewrite He. cbn [bind].
  rewrite Hc. cbn [call bind snd fst negb].
  pose proof (expandMiniscript_keys _ _ _ _ _ _ He) as Hkeys.
  rewrite (substituteAsm_tokens_spec cap expansionMap tokens Hkeys Hwf).
  reflexivity.
Qed.

(** ** An input just added *)

(** X23. The input [updatePsbt] has just added cannot be finalized, by this
    descriptor or any other: it has no signatures yet, and
    [finalizePsbtInput] throws "cannot finalize without signatures". *)
Theorem added_input_awaits_signatures (cap : Capabilities)
    (this other : Descriptor.t) (txHex : string) (vout : Z) (psbt psbt' : Psbt)
    (index : Z) :
  Descriptor.updatePsbt cap this txHex vout psbt = Ok (index, psbt') ->
  Descriptor.finalizePsbtInput cap other index psbt' = Err NoSignatures.
Proof.
  unfold updatePsbt. intros H.
  apply bind_Ok in H as (tx & _ & H).
  destruct (array_get (outs tx) vout) as [out|]; [|discriminate].
  apply bind_Ok in H as (psbt1 & _ & H).
  apply bind_Ok in H as (witness & _ & H).
  apply bind_Ok in H as (psbt2 & Hadd & H). injection H as <- <-.
  unfold addInput in Hadd.
  destruct (addInput_rejects cap psbt1 _); [discriminate Hadd|].
  cbn [call] in Hadd. injection Hadd as <-.
  unfold finalizePsbtInput. cbn [inputs].
  rewrite List.length_app. cbn [List.length].
  replace (Z.of_nat (List.length (inputs psbt1) + 1) - 1)%Z
    with (Z.of_nat (List.length (inputs psbt1))) by lia.
  now rewrite array_get_last.
Qed.

(** ** The satisfaction, token by token *)

Lemma replaceAll_pieces (body rep : string) (pieces : list string) :
  ~ In ">"%char (list_ascii_of_string body) ->
  Forall (fun s => ~ In "<"%char (list_ascii_of_string s)
                   \/ exists b, s = "<" ++ b ++ ">"
                                /\ ~ In "<"%char (list_ascii_of_string b)
                                /\ ~ In ">"%char (list_ascii_of_string b)) pieces ->
  Js.replaceAll ("<" ++ body ++ ">") rep (String.concat " " pieces)
  = String.concat " "
      (map (fun s => if s =? "<" ++ body ++ ">" then rep else s) pieces).
Proof.
  intros Hbody Hok.
  change (Js.replaceAll ("<" ++ body ++ ">") rep (String.concat " " pieces))
    with (Js.replaceAll_from ("<" ++ body ++ ">") rep 0 (String.concat " " pieces)).
  induction Hok as [|s pieces Hs Hpieces IH]; [reflexivity|].
  cbn [map]. rewrite !concat_cons.
  set (f := fun s => if s =? "<" ++ body ++ ">" then rep else s) in *.
  assert (Hrest : Js.replaceAll_from ("<" ++ body ++ ">") rep 0
                    match pieces with
                    | [] => EmptyString
                    | _ :: _ => " " ++ String.concat " " pieces
                    end
                  = match map f pieces with
                    | [] => EmptyString
                    | _ :: _ => " " ++ String.concat " " (map f pieces)
                    end).
  { destruct pieces as [|s' pieces']; [reflexivity|]. cbn [map] in *.
    rewrite <- IH. apply (replaceAll_from_plain (body ++ ">") rep " ").
    simpl. intros [H|[]]. discriminate. }
  rewrite <- Hrest. destruct Hs as [Hplain|(b & -> & Hlt & Hgt)].
  - assert (E : (s =? "<" ++ body ++ ">") = false).
    { apply String.eqb_neq. intros ->. apply Hplain. now left. }
    rewrite E. now apply (replaceAll_from_plain (body ++ ">")).
  - rewrite eqb_bracket. now apply replaceAll_from_bracket.
Qed.

Lemma substitute_knowns_cons (search replace : string) (entries : JsObject string)
    (asm0 : string) :
  (replace =? "") || (replace =? "<>") = false ->
  substitute_knowns ((search, replace) :: entries) asm0
  = substitute_knowns entries (Js.replaceAll search replace asm0).
Proof. intros H. unfold substitute_knowns. simpl. now rewrite H. Qed.

Lemma substitute_knowns_pieces (entries : JsObject string) :
  Forall (fun kv => exists body h,
              fst kv = "<" ++ body ++ ">"
              /\ ~ In ">"%char (list_ascii_of_string body)
              /\ snd kv = "<" ++ h ++ ">"
              /\ h <> EmptyString /\ all_word h = true) entries ->
  forall pieces,
    Forall (fun s => ~ In "<"%char (list_ascii_of_string s)
                     \/ exists b, s = "<" ++ b ++ ">"
                                  /\ ~ In "<"%char (list_ascii_of_string b)
                                  /\ ~ In ">"%char (list_ascii_of_string b)) pieces ->
    substitute_knowns entries (String.concat " " pieces)
    = Ok (String.concat " "
            (map (fun s => fold_left (fun s kv => if s =? fst kv then snd kv else s)
                             entries s) pieces)).
Proof.
  induction 1 as [|[search replace] entries (body & h & Hk & Hbody & Hv & Hne & Hw) _ IH];
    intros pieces Hok.
  - unfold substitute_knowns. simpl. now rewrite map_id.
  - cbn [fst snd] in *. subst search replace.
    rewrite substitute_knowns_cons.
    + rewrite replaceAll_pieces by assumption. rewrite IH.
      * now rewrite map_map.
      * apply Forall_map. eapply Forall_impl; [|exact Hok]. intros s Hs. cbv beta.
        destruct (s =? "<" ++ body ++ ">"); [|exact Hs].
        right. exists h. repeat split; apply all_word_free; (reflexivity || assumption).
    + destruct h as [|c h]; [contradiction|]. simpl.
      destruct (Ascii.eqb_spec c ">"%char) as [->|_]; [discriminate Hw | reflexivity].
Qed.

Lemma fold_lookup (entries : JsObject string) :
  (forall k v k' v', In (k, v) entries -> In (k', v') entries -> v <> k') ->
  forall s,
    fold_left (fun s kv => if s =? fst kv then snd kv else s) entries s
    = match obj_get entries s with
      | Some v => v
      | None => s
      end.
Proof.
  assert (Hstable : forall entries' s,
             (forall kv, In kv entries' -> s <> fst kv) ->
             fold_left (fun s kv => if s =? fst kv then snd kv else s) entries' s = s).
  { induction entries' as [|kv entries' IH]; intros s Hs; [reflexivity|].
    cbn [fold_left]. rewrite (proj2 (String.eqb_neq _ _) (Hs kv (or_introl eq_refl))).
    apply IH. intros kv' Hin. apply Hs. now right. }
  induction entries as [|[k v] entries IH]; intros Hvk s; [reflexivity|].
  cbn [fold_left obj_get fst snd]. rewrite (String.eqb_sym k s).
  destruct (String.eqb_spec s k) as [->|Hne].
  - apply Hstable. intros [k' v'] Hin. simpl.
    apply (Hvk k v k' v'); [now left | now right].
  - apply IH. intros k0 v0 k' v' H0 H'. apply (Hvk k0 v0 k' v'); now right.
Qed.

Lemma first_paren_unique (a a' b b' : string) :
  ~ In "("%char (list_ascii_of_string a) ->
  ~ In "("%char (list_ascii_of_string a') ->
  a ++ "(" ++ b = a' ++ "(" ++ b' -> a = a'.
Proof.
  revert a'. induction a as [|c a IH]; intros [|c' a'] Ha Ha' H; simpl in *.
  - reflexivity.
  - injection H as <- _. exfalso. apply Ha'. now left.
  - injection H as -> _. exfalso. apply Ha. now left.
  - injection H as -> H. f_equal. apply IH; auto.
Qed.

Lemma in_chars_app (x : ascii) (a b : string) :
  In x (list_ascii_of_string (a ++ b))
  <-> In x (list_ascii_of_string a) \/ In x (list_ascii_of_string b).
Proof.
  induction a as [|c a IH]; simpl; [tauto|]. rewrite IH. tauto.
Qed.

Lemma knowns_table_shape (expansionMap : ExpansionMap)
    (signatures : list PartialSig) (preimages : list Preimage) (k v : string) :
  Object_keys expansionMap = variables 0 (List.length expansionMap) ->
  Forall (fun s => sig_signature s <> []) signatures ->
  Forall usable preimages ->
  In (k, v) (expandedKnownsMap_of expansionMap signatures preimages) ->
  exists body h,
    k = "<" ++ body ++ ">"
    /\ ~ In "<"%char (list_ascii_of_string body)
    /\ ~ In ">"%char (list_ascii_of_string body)
    /\ In "("%char (list_ascii_of_string body)
    /\ (forall key, body <> "HASH160(" ++ key ++ ")")
    /\ v = "<" ++ h ++ ">" /\ h <> EmptyString /\ all_word h = true.
Proof.
  intros Hvars Hsigs Hpre H. unfold expandedKnownsMap_of, obj_spread in H.
  apply (fold_obj_set_entries (fun kv : string * string => fst kv) (fun kv => snd kv))
    in H as [H|([k' v'] & H & Hk & Hv)]; simpl in *.
  - unfold preimageMap_of in H.
    apply fold_obj_set_entries in H as [[]|(p & Hp & <- & <-)].
    rewrite Forall_forall in Hpre.
    destruct (Hpre p Hp) as (Hne & Hw & fn & payload & Hd & Hfn & Hlt & Hgt).
    assert (Hparen : ~ In "("%char (list_ascii_of_string fn))
      by (apply all_word_free; [reflexivity | exact Hfn]).
    rewrite Hd, (replace_first_paren _ _ _ Hparen).
    exists (fn ++ "_preimage(" ++ payload), (preimage p).
    repeat split; try assumption.
    + rewrite in_chars_app. intros [Hin|Hin].
      * revert Hin. apply all_word_free; [reflexivity | exact Hfn].
      * simpl in Hin. repeat (destruct Hin as [Hin|Hin]; [discriminate|]). auto.
    + rewrite in_chars_app. intros [Hin|Hin].
      * revert Hin. apply all_word_free; [reflexivity | exact Hfn].
      * simpl in Hin. repeat (destruct Hin as [Hin|Hin]; [discriminate|]). auto.
    + rewrite in_chars_app. right. simpl. tauto.
    + intros key Heq.
      change (fn ++ "_preimage(" ++ payload)
        with (fn ++ "_preimage" ++ "(" ++ payload) in Heq.
      rewrite <- string_app_assoc in Heq.
      apply (first_paren_unique (fn ++ "_preimage") "HASH160" payload (key ++ ")"))
        in Heq.
      * apply (f_equal String.length) in Heq. rewrite string_length_app in Heq.
        simpl in Heq. lia.
      * rewrite in_chars_app. intros [Hin|Hin]; [now apply Hparen|].
        simpl in Hin. repeat (destruct Hin as [Hin|Hin]; [discriminate|]). auto.
      * simpl. intros Hin. repeat (destruct Hin as [Hin|Hin]; [discriminate|]). auto.
  - subst k' v'. unfold expandedSignatureMap_of in H.
    apply fold_obj_set_entries in H as [[]|(s & Hs & <- & <-)].
    rewrite Forall_forall in Hsigs.
    set (found := find _ (Object_keys expansionMap)).
    assert (Hfree : forall x, is_word x = false -> x <> "@"%char ->
                              ~ In x (list_ascii_of_string (Js.str_of_opt found))).
    { intros x Hx Hat. destruct found as [key|] eqn:E.
      - apply find_some in E as [E _]. rewrite Hvars in E. unfold variables in E.
        apply in_map_iff in E as (i & <- & _). now apply variable_free.
      - apply all_word_free; [exact Hx | reflexivity]. }
    exists ("sig(" ++ Js.str_of_opt found ++ ")"), (toHex (sig_signature s)).
    split; [cbn [append]; now rewrite string_app_assoc|].
    repeat split.
    + intros Hin. simpl in Hin. repeat (destruct Hin as [Hin|Hin]; [discriminate|]).
      apply in_chars_app in Hin as [Hin|Hin].
      * revert Hin. apply Hfree; (reflexivity || discriminate).
      * simpl in Hin. repeat (destruct Hin as [Hin|Hin]; [discriminate|]). auto.
    + intros Hin. simpl in Hin. repeat (destruct Hin as [Hin|Hin]; [discriminate|]).
      apply in_chars_app in Hin as [Hin|Hin].
      * revert Hin. apply Hfree; (reflexivity || discriminate).
      * simpl in Hin. repeat (destruct Hin as [Hin|Hin]; [discriminate|]). auto.
    + simpl. tauto.
    + intros key Heq. discriminate Heq.
    + intros Hempty. apply toHex_empty in Hempty. now apply (Hsigs s Hs).
    + apply toHex_word.
Qed.

Lemma strip_angles_bracket (h : string) :
  all_word h = true -> strip_angles ("<" ++ h ++ ">") = h.
Proof.
  intros Hw. change (strip_angles ("<" ++ h ++ ">")) with (strip_angles (h ++ ">")).
  rewrite strip_angles_app, (strip_angles_word h Hw). apply string_app_nil.
Qed.

Lemma bracket_inj (a b : string) : "<" ++ a ++ ">" = "<" ++ b ++ ">" -> a = b.
Proof.
  intros H. apply String.eqb_eq. rewrite <- eqb_bracket. now apply String.eqb_eq.
Qed.

Lemma written_sat_piece (expansionMap : ExpansionMap) (table : JsObject string)
    (t : SatToken) :
  (forall k, In k (Object_keys expansionMap) -> exists i, k = variable i) ->
  (forall k v, In (k, v) table ->
     exists body, k = "<" ++ body ++ ">"
                  /\ ~ In "<"%char (list_ascii_of_string body)
                  /\ ~ In ">"%char (list_ascii_of_string body)) ->
  sat_well_formed expansionMap table t ->
  ~ In "<"%char (list_ascii_of_string (written_sat t))
  \/ exists b, written_sat t = "<" ++ b ++ ">"
               /\ ~ In "<"%char (list_ascii_of_string b)
               /\ ~ In ">"%char (list_ascii_of_string b).
Proof.
  intros Hkeys Htable Ht. destruct t as [[w|h|k|k]|body]; cbn [written_sat written].
  - left. destruct Ht as (_ & Hw & _). now apply all_word_free.
  - right. exists h. repeat split; apply all_word_free; (reflexivity || exact Ht).
  - right. exists k. destruct (Hkeys k Ht) as [i ->].
    repeat split; apply variable_free; (reflexivity || discriminate).
  - right. exists ("HASH160(" ++ k ++ ")"). destruct (Hkeys k Ht) as [i ->].
    split; [apply hash_pattern|].
    split; intros Hin;
      apply in_chars_app in Hin as [Hin|Hin];
      [ | apply in_chars_app in Hin as [Hin|Hin] | | apply in_chars_app in Hin as [Hin|Hin] ];
      try (revert Hin; apply variable_free; (reflexivity || discriminate));
      simpl in Hin; repeat (destruct Hin as [Hin|Hin]; [discriminate|]); auto.
  - right. cbn [sat_well_formed] in Ht. unfold Object_keys in Ht.
    apply in_map_iff in Ht as ([k v] & Hk & Hin). simpl in Hk. subst k.
    destruct (Htable _ _ Hin) as (b & Hb & Hlt & Hgt). exists b. auto.
Qed.

Lemma known_token (cap : Capabilities) (expansionMap : ExpansionMap)
    (table : JsObject string) (t : SatToken) :
  (forall k, In k (Object_keys expansionMap) -> exists i, k = variable i) ->
  (forall k v, In (k, v) table ->
     exists body h,
       k = "<" ++ body ++ ">"
       /\ ~ In "<"%char (list_ascii_of_string body)
       /\ ~ In ">"%char (list_ascii_of_string body)
       /\ In "("%char (list_ascii_of_string body)
       /\ (forall key, body <> "HASH160(" ++ key ++ ")")
       /\ v = "<" ++ h ++ ">" /\ h <> EmptyString /\ all_word h = true) ->
  sat_well_formed expansionMap table t ->
  exists t',
    fold_left (fun s kv => if s =? fst kv then snd kv else s) table (written_sat t)
    = written t'
    /\ well_formed expansionMap t'
    /\ assembled cap expansionMap t' = sat_assembled cap expansionMap table t.
Proof.
  intros Hkeys Htable Ht. rewrite fold_lookup.
  2:{ intros k v k' v' Hin Hin' ->.
      destruct (Htable _ _ Hin) as (_ & h & _ & _ & _ & _ & _ & -> & _ & Hw).
      destruct (Htable _ _ Hin') as (body & _ & Hb & _ & _ & Hparen & _).
      apply bracket_inj in Hb as ->.
      revert Hparen. apply all_word_free; [reflexivity | exact Hw]. }
  destruct t as [t|body].
  - exists t. cbn [written_sat sat_assembled sat_well_formed] in *.
    split; [|now split].
    destruct (obj_get table (written t)) as [v|] eqn:E; [exfalso | reflexivity].
    apply obj_get_In in E.
    destruct (Htable _ _ E) as (body & _ & Hb & _ & _ & Hparen & Hhash & _).
    destruct t as [w|h|k|k]; cbn [written well_formed] in *.
    + destruct Ht as (_ & Hw & _). rewrite Hb in Hw. discriminate Hw.
    + apply bracket_inj in Hb as ->.
      revert Hparen. apply all_word_free; [reflexivity | exact Ht].
    + apply bracket_inj in Hb as ->.
      destruct (Hkeys _ Ht) as [i ->].
      revert Hparen. apply variable_free; (reflexivity || discriminate).
    + rewrite hash_pattern in Hb. apply bracket_inj in Hb.
      now apply (Hhash k).
  - cbn [written_sat sat_assembled sat_well_formed] in *.
    apply obj_get_key in Ht as [v Hv]. rewrite Hv. apply obj_get_In in Hv.
    destruct (Htable _ _ Hv) as (_ & h & _ & _ & _ & _ & _ & -> & _ & Hw).
    exists (Push h). cbn [written well_formed assembled].
    rewrite (strip_angles_bracket h Hw). auto.
Qed.

Lemma materialize_tokens (cap : Capabilities) (expansionMap : ExpansionMap)
    (signatures : list PartialSig) (preimages : list Preimage) (sat : Sat)
    (tokens : list SatToken) :
  Object_keys expansionMap = variables 0 (List.length expansionMap) ->
  Forall (fun s => sig_signature s <> []) signatures ->
  Forall usable preimages ->
  asm sat = String.concat " " (map written_sat tokens) ->
  Forall (sat_well_formed expansionMap
            (expandedKnownsMap_of expansionMap signatures preimages)) tokens ->
  materialize cap (expandedKnownsMap_of expansionMap signatures preimages)
    expansionMap sat
  = (script <-
       call (fromASM cap
               (String.concat " "
                  (map (sat_assembled cap expansionMap
                          (expandedKnownsMap_of expansionMap signatures preimages))
                     tokens))) ;;
     Ok {| scriptSatisfaction := script;
           nLockTime := sat_nLockTime sat;
           nSequence := sat_nSequence sat |}).
Proof.
  intros Hvars Hsigs Hpre Hasm Hwf.
  set (table := expandedKnownsMap_of expansionMap signatures preimages) in *.
  assert (Hkeys : forall k, In k (Object_keys expansionMap) -> exists i, k = variable i).
  { intros k Hk. rewrite Hvars in Hk. unfold variables in Hk.
    apply in_map_iff in Hk as (i & <- & _). now exists i. }
  pose proof (fun k v => knowns_table_shape expansionMap signatures preimages k v
                           Hvars Hsigs Hpre) as Htable.
  fold table in Htable.
  unfold materialize. rewrite Hasm, substitute_knowns_pieces.
  - cbn [bind].
    assert (Hts : exists ts,
               map (fun s => fold_left (fun s kv => if s =? fst kv then snd kv else s)
                               table s) (map written_sat tokens)
               = map written ts
               /\ Forall (well_formed expansionMap) ts
               /\ map (assembled cap expansionMap) ts
                  = map (sat_assembled cap expansionMap table) tokens).
    { clear Hasm. induction Hwf as [|t tokens Ht _ (ts & H1 & H2 & H3)].
      - exists []. repeat split. constructor.
      - destruct (known_token cap expansionMap table t Hkeys Htable Ht)
          as (t' & E1 & E2 & E3).
        exists (t' :: ts). cbn [map]. rewrite E1, H1, E3, H3.
        repeat split. now constructor. }
    destruct Hts as (ts & -> & Hok & <-).
    now rewrite (substituteAsm_tokens_spec cap expansionMap ts Hvars Hok).
  - apply Forall_forall. intros [k v] Hin. cbn [fst snd].
    destruct (Htable _ _ Hin) as (body & h & -> & _ & Hgt & _ & _ & -> & Hne & Hw).
    exists body, h. auto.
  - apply Forall_map. eapply Forall_impl; [|exact Hwf]. intros t Ht.
    apply (written_sat_piece expansionMap table t Hkeys); [|exact Ht].
    intros k v Hin.
    destruct (Htable _ _ Hin) as (body & _ & -> & Hlt & Hgt & _). exists body. auto.
Qed.

(** X24. What [satisfyMiniscript] returns without constraints, token by
    token. When the first satisfaction of the engine is a line of
    well-formed tokens and of placeholders of the knowns, no signature is
    an empty buffer and each preimage is a non-empty word with a digest
    written [fn(...)], the script is [fromASM] of that line with each
    placeholder replaced by what the knowns table holds for it, brackets
    removed, and every other token assembled as [substituteAsm] does; the
    locktime and the sequence are those of that satisfaction. *)
Theorem satisfaction_token_by_token (cap : Capabilities) (miniscript : string)
    (isSegwit : bool) (signatures : list PartialSig) (preimages : list Preimage)
    (network : Network) (expanded : string) (expansionMap : ExpansionMap)
    (first : Sat) (others : list Sat) (tokens : list SatToken) :
  expandMiniscript cap miniscript isSegwit network = Ok (expanded, expansionMap) ->
  satisfier cap expanded (knowns_of expansionMap signatures preimages)
  = Returned (Some (first :: others)) ->
  asm first = String.concat " " (map written_sat tokens) ->
  Forall (sat_well_formed expansionMap
            (expandedKnownsMap_of expansionMap signatures preimages)) tokens ->
  Forall (fun s => sig_signature s <> []) signatures ->
  Forall usable preimages ->
  satisfyMiniscript cap miniscript isSegwit signatures preimages None network
  = (script <-
       call (fromASM cap
               (String.concat " "
                  (map (sat_assembled cap expansionMap
                          (expandedKnownsMap_of expansionMap signatures preimages))
                     tokens))) ;;
     Ok {| scriptSatisfaction := script;
           nLockTime := sat_nLockTime first;
           nSequence := sat_nSequence first |}).
Proof.
  intros He Hs Hasm Hwf Hsigs Hpre. unfold satisfyMiniscript. rewrite He. cbn [bind].
  unfold knowns_of in Hs. rewrite Hs. cbn [call bind].
  apply materialize_tokens; try assumption.
  eapply expandMiniscript_keys; eauto.
Qed.

(** ** What the knowns table holds *)

Lemma obj_get_set {V : Type} (o : JsObject V) (k : string) (v : V) (k' : string) :
  obj_get (obj_set o k v) k' = if k =? k' then Some v else obj_get o k'.
Proof.
  induction o as [|[k0 v0] o IH]; simpl.
  - reflexivity.
  - destruct (String.eqb_spec k0 k) as [->|Hne]; simpl.
    + now destruct (k =? k').
    + rewrite IH. destruct (String.eqb_spec k0 k') as [->|Hne'].
      * now rewrite (proj2 (String.eqb_neq _ _) (not_eq_sym Hne)).
      * reflexivity.
Qed.

Lemma obj_get_fold_last {V X : Type} (key : X -> string) (val : X -> V)
    (before after : list X) (x : X) (o : JsObject V) :
  Forall (fun y => key y <> key x) after ->
  obj_get (fold_left (fun m y => obj_set m (key y) (val y)) (before ++ x :: after) o)
    (key x)
  = Some (val x).
Proof.
  intros Hafter. rewrite fold_left_app. cbn [fold_left].
  set (o1 := fold_left _ before o).
  assert (H1 : obj_get (obj_set o1 (key x) (val x)) (key x) = Some (val x))
    by (now rewrite obj_get_set, String.eqb_refl).
  revert H1. generalize (obj_set o1 (key x) (val x)) as o2.
  induction Hafter as [|y after Hy _ IH]; intros o2 H2; [exact H2|].
  cbn [fold_left]. apply IH.
  now rewrite obj_get_set, (proj2 (String.eqb_neq _ _) Hy).
Qed.

Lemma obj_get_fold_other {V X : Type} (key : X -> string) (val : X -> V)
    (l : list X) (o : JsObject V) (k : string) :
  Forall (fun y => key y <> k) l ->
  obj_get (fold_left (fun m y => obj_set m (key y) (val y)) l o) k = obj_get o k.
Proof.
  intros Hl. revert o. induction Hl as [|y l Hy _ IH]; intros o; [reflexivity|].
  cbn [fold_left]. now rewrite IH, obj_get_set, (proj2 (String.eqb_neq _ _) Hy).
Qed.

Lemma obj_get_spread {V : Type} (a b : JsObject V) (k : string) :
  NoDup (Object_keys b) ->
  obj_get (obj_spread a b) k
  = match obj_get b k with
    | Some v => Some v
    | None => obj_get a k
    end.
Proof.
  intros Hnd. unfold obj_spread. destruct (obj_get b k) as [v|] eqn:E.
  - apply obj_get_In in E. apply in_split in E as (b1 & b2 & ->).
    apply (obj_get_fold_last (fun kv : string * V => fst kv) (fun kv => snd kv)
             b1 b2 (k, v) a).
    unfold Object_keys in Hnd. rewrite map_app in Hnd. apply NoDup_remove_2 in Hnd.
    apply Forall_forall. intros [k' v'] Hin Heq. simpl in *. subst k'.
    apply Hnd. apply in_or_app. right. apply in_map_iff. now exists (k, v').
  - apply (obj_get_fold_other (fun kv : string * V => fst kv) (fun kv => snd kv)).
    apply Forall_forall. intros [k' v'] Hin Heq. simpl in Heq. subst k'.
    assert (Hk : In k (Object_keys b)) by (apply in_map_iff; now exists (k, v')).
    apply obj_get_key in Hk as [v Hv]. congruence.
Qed.

Lemma signature_key_found (expansionMap before after : ExpansionMap)
    (signature : PartialSig) (k : string) (e : KeyExpression) :
  NoDup (Object_keys expansionMap) ->
  expansionMap = (before ++ (k, e) :: after)%list ->
  pubkey e = sig_pubkey signature ->
  Forall (fun kv => pubkey (snd kv) <> sig_pubkey signature) before ->
  find (fun k => match obj_get expansionMap k with
                 | Some e => toHex (pubkey e) =? toHex (sig_pubkey signature)
                 | None => false
                 end) (Object_keys expansionMap) = Some k.
Proof.
  intros Hnd Hm He Hb.
  unfold Object_keys at 1. rewrite Hm at 1. rewrite map_app. simpl.
  apply find_first.
  - apply Forall_forall. intros k' Hk'. apply in_map_iff in Hk' as ([k0 e0] & <- & H0).
    simpl. rewrite (obj_get_NoDup expansionMap k0 e0 Hnd)
      by (rewrite Hm; apply in_or_app; now left).
    apply String.eqb_neq. intros Heq. apply toHex_inj in Heq.
    rewrite Forall_forall in Hb. now apply (Hb _ H0).
  - rewrite (obj_get_NoDup expansionMap k e Hnd)
      by (rewrite Hm; apply in_or_app; right; now left).
    rewrite He. apply String.eqb_refl.
Qed.

Lemma sig_key_inj (a b : string) : "<sig(" ++ a ++ ")>" = "<sig(" ++ b ++ ")>" -> a = b.
Proof.
  intros H. injection H as H.
  apply app_inv_tail_length in H as [H _]; [exact H | reflexivity].
Qed.

Lemma last_signature_held (expansionMap : ExpansionMap)
    (earlier later : list PartialSig) (signature : PartialSig)
    (preimages : list Preimage) (before after : ExpansionMap) (k : string)
    (e : KeyExpression) :
  Object_keys expansionMap = variables 0 (List.length expansionMap) ->
  expansionMap = (before ++ (k, e) :: after)%list ->
  pubkey e = sig_pubkey signature ->
  Forall (fun kv => pubkey (snd kv) <> sig_pubkey signature) before ->
  Forall (fun s => sig_pubkey s <> sig_pubkey signature) later ->
  obj_get (expandedKnownsMap_of expansionMap (earlier ++ signature :: later) preimages)
    ("<sig(" ++ k ++ ")>")
  = Some ("<" ++ toHex (sig_signature signature) ++ ">").
Proof.
  intros Hvars Hm He Hb Hlater.
  assert (Hnd : NoDup (Object_keys expansionMap))
    by (rewrite Hvars; apply variables_NoDup).
  pose proof (signature_key_found expansionMap before after signature k e Hnd Hm He Hb)
    as Hfound.
  unfold expandedKnownsMap_of. rewrite obj_get_spread.
  2:{ unfold expandedSignatureMap_of. apply fold_obj_set_NoDup. constructor. }
  unfold expandedSignatureMap_of.
  set (key := fun s : PartialSig =>
                "<sig(" ++ Js.str_of_opt
                  (find (fun k => match obj_get expansionMap k with
                                  | Some e => toHex (pubkey e) =? toHex (sig_pubkey s)
                                  | None => false
                                  end) (Object_keys expansionMap)) ++ ")>").
  set (val := fun s : PartialSig => "<" ++ toHex (sig_signature s) ++ ">").
  assert (Hk : "<sig(" ++ k ++ ")>" = key signature)
    by (unfold key; now rewrite Hfound).
  rewrite Hk.
  change (fold_left _ (earlier ++ signature :: later) [])
    with (fold_left (fun m s => obj_set m (key s) (val s))
            (earlier ++ signature :: later) []).
  rewrite (obj_get_fold_last key val earlier later signature []); [reflexivity|].
  eapply Forall_impl; [|exact Hlater]. intros s Hs Heq. cbv beta in Hs.
  rewrite <- Hk in Heq. unfold key in Heq. apply sig_key_inj in Heq.
  clear Hfound Hk.
  destruct (find _ (Object_keys expansionMap)) as [k'|] eqn:E; simpl in Heq.
  - subst k'. apply find_some in E as [_ E].
    rewrite (obj_get_NoDup expansionMap k e Hnd) in E
      by (rewrite Hm; apply in_or_app; right; now left).
    apply String.eqb_eq, toHex_inj in E. congruence.
  - assert (Hin : In k (Object_keys expansionMap))
      by (unfold Object_keys; rewrite Hm, map_app; apply in_or_app; right; now left).
    rewrite Hvars in Hin. unfold variables in Hin.
    apply in_map_iff in Hin as (i & Hi & _). rewrite <- Heq in Hi. discriminate Hi.
Qed.

Lemma paren_split (d : string) :
  ~ In "("%char (list_ascii_of_string d)
  \/ exists fn payload,
       d = fn ++ "(" ++ payload /\ ~ In "("%char (list_ascii_of_string fn).
Proof.
  induction d as [|c d IH]; [left; simpl; tauto|].
  destruct (Ascii.eqb_spec c "("%char) as [->|Hne].
  - right. exists EmptyString, d. simpl. tauto.
  - destruct IH as [IH|(fn & payload & -> & Hfn)].
    + left. simpl. intros [H|H]; auto.
    + right. exists (String c fn), payload. split; [reflexivity|].
      simpl. intros [H|H]; auto.
Qed.

Lemma string_app_inv_head (a b c : string) : a ++ b = a ++ c -> b = c.
Proof. induction a as [|x a IH]; simpl; [auto|]. intros H. injection H as H. auto. Qed.

Lemma replace_paren_inj (d d' : string) :
  Js.replace "(" "_preimage(" d = Js.replace "(" "_preimage(" d' -> d = d'.
Proof.
  destruct (paren_split d) as [Hd|(fn & payload & -> & Hfn)];
    destruct (paren_split d') as [Hd'|(fn' & payload' & -> & Hfn')];
    [ rewrite (replace_no_paren _ d Hd), (replace_no_paren _ d' Hd')
    | rewrite (replace_no_paren _ d Hd), (replace_first_paren _ fn' payload' Hfn')
    | rewrite (replace_first_paren _ fn payload Hfn), (replace_no_paren _ d' Hd')
    | rewrite (replace_first_paren _ fn payload Hfn),
        (replace_first_paren _ fn' payload' Hfn') ];
    intros H.
  - exact H.
  - exfalso. apply Hd. rewrite H, in_chars_app. right. simpl. tauto.
  - exfalso. apply Hd'. rewrite <- H, in_chars_app. right. simpl. tauto.
  - assert (Hsame : fn ++ "_preimage" = fn' ++ "_preimage").
    { apply (first_paren_unique _ _ payload payload').
      - rewrite in_chars_app. intros [Hin|Hin]; [now apply Hfn|].
        simpl in Hin. repeat (destruct Hin as [Hin|Hin]; [discriminate|]). auto.
      - rewrite in_chars_app. intros [Hin|Hin]; [now apply Hfn'|].
        simpl in Hin. repeat (destruct Hin as [Hin|Hin]; [discriminate|]). auto.
      - rewrite !string_app_assoc. exact H. }
    apply app_inv_tail_length in Hsame as [-> _]; [|reflexivity].
    apply string_app_inv_head in H. injection H as ->. reflexivity.
Qed.

Lemma preimage_key_not_sig (d x : string) :
  "<" ++ Js.replace "(" "_preimage(" d ++ ">" <> "<sig(" ++ x ++ ")>".
Proof.
  intros Hk.
  change ("<sig(" ++ x ++ ")>") with ("<" ++ "sig(" ++ x ++ ")>") in Hk.
  replace ("sig(" ++ x ++ ")>") with (("sig(" ++ x ++ ")") ++ ">") in Hk
    by (cbn [append]; now rewrite string_app_assoc).
  apply bracket_inj in Hk.
  destruct (paren_split d) as [Hd|(fn & payload & -> & Hfn)].
  - rewrite replace_no_paren in Hk by assumption. apply Hd. rewrite Hk.
    simpl. tauto.
  - rewrite replace_first_paren in Hk by assumption.
    assert (Hs : fn ++ "_preimage" = "sig").
    { apply (first_paren_unique (fn ++ "_preimage") "sig" payload (x ++ ")")).
      - rewrite in_chars_app. intros [Hin|Hin]; [now apply Hfn|].
        simpl in Hin. repeat (destruct Hin as [Hin|Hin]; [discriminate|]). auto.
      - simpl. intros Hin. repeat (destruct Hin as [Hin|Hin]; [discriminate|]). auto.
      - rewrite string_app_assoc. exact Hk. }
    apply (f_equal String.length) in Hs. rewrite string_length_app in Hs.
    simpl in Hs. lia.
Qed.

Lemma signature_key_no_preimage (expansionMap : ExpansionMap)
    (signatures : list PartialSig) (d : string) :
  obj_get (expandedSignatureMap_of expansionMap signatures)
    ("<" ++ Js.replace "(" "_preimage(" d ++ ">") = None.
Proof.
  destruct (obj_get _ _) as [v|] eqn:E; [exfalso | reflexivity].
  apply obj_get_In in E. unfold expandedSignatureMap_of in E.
  apply fold_obj_set_entries in E as [[]|(s & _ & Hk & _)].
  symmetry in Hk. now apply preimage_key_not_sig in Hk.
Qed.

Lemma last_preimage_held (expansionMap : ExpansionMap) (signatures : list PartialSig)
    (earlier later : list Preimage) (p : Preimage) :
  Forall (fun p' => digest p' <> digest p) later ->
  obj_get (expandedKnownsMap_of expansionMap signatures (earlier ++ p :: later))
    ("<" ++ Js.replace "(" "_preimage(" (digest p) ++ ">")
  = Some ("<" ++ preimage p ++ ">").
Proof.
  intros Hlater. unfold expandedKnownsMap_of. rewrite obj_get_spread.
  2:{ unfold expandedSignatureMap_of. apply fold_obj_set_NoDup. constructor. }
  rewrite signature_key_no_preimage. unfold preimageMap_of.
  apply (obj_get_fold_last
           (fun p => "<" ++ Js.replace "(" "_preimage(" (digest p) ++ ">")
           (fun p => "<" ++ preimage p ++ ">") earlier later p []).
  eapply Forall_impl; [|exact Hlater]. intros p' Hp' Heq. cbv beta in *.
  apply bracket_inj, replace_paren_inj in Heq. contradiction.
Qed.




(** X25. Of several signatures by the same public key of the expansion
    map, the table of knowns that [satisfyMiniscript] builds holds the
    last one passed: under [<sig(@i)>], [@i] being the first variable of
    that public key, stands the hex of its signature between [<] and
    [>]. *)
Theorem knowns_hold_last_signature (expansionMap : ExpansionMap)
    (earlier later : list PartialSig) (signature : PartialSig)
    (preimages : list Preimage) (before after : ExpansionMap) (k : string)
    (e : KeyExpression) :
  Object_keys expansionMap = variables 0 (List.length expansionMap) ->
  expansionMap = (before ++ (k, e) :: after)%list ->
  pubkey e = sig_pubkey signature ->
  Forall (fun kv => pubkey (snd kv) <> sig_pubkey signature) before ->
  Forall (fun s => sig_pubkey s <> sig_pubkey signature) later ->
  obj_get (expandedKnownsMap_of expansionMap (earlier ++ signature :: later) preimages)
    ("<sig(" ++ k ++ ")>")
  = Some ("<" ++ toHex (sig_signature signature) ++ ">").
Proof. apply last_signature_held. Qed.

(** X26. Of several preimages given for the same digest, the table of
    knowns that [satisfyMiniscript] builds holds the last one passed, and
    no signature takes its place: under the key made from the digest (its
    first [(] replaced by [_preimage(], between [<] and [>]) stands that
    preimage between [<] and [>]. *)
Theorem knowns_hold_last_preimage (expansionMap : ExpansionMap)
    (signatures : list PartialSig) (earlier later : list Preimage) (p : Preimage) :
  Forall (fun p' => digest p' <> digest p) later ->
  obj_get (expandedKnownsMap_of expansionMap signatures (earlier ++ p :: later))
    ("<" ++ Js.replace "(" "_preimage(" (digest p) ++ ">")
  = Some ("<" ++ preimage p ++ ">").
Proof. apply last_preimage_held. Qed.

(** * The further properties, on the sample *)

(** X1 on the sample: the ranged descriptor at index 5. *)
Lemma isolate_leaves_no_wildcard_witness :
  has_star Sample.ranged_with_checksum = true
  /\ has_star "pkh(xpub6ERApfZwUNrhLCkDtcHTcxd75RbzS1ed54G1LkBUHQVHQKqhMkhgbmJbZRkrgZw4koxb5JaHWkY4ALHY2grBGRjaDMzQLcgJvLJuZZvRcEL/1/5)"
     = false.
Proof.
  split; [reflexivity|].
  apply (isolate_leaves_no_wildcard Sample.cap Sample.ranged_with_checksum true
           (JsInteger 5)).
  - vm_compute; reflexivity.
  - intros z H. injection H as <-. reflexivity.
Defined.

(** X2 on the sample: the ranged descriptor and the checksum computed for
    it. *)
Lemma isolate_accepts_own_checksum_witness :
  Descriptor.checksum Sample.cap Sample.ranged = "3au5tfmz"
  /\ isolate Sample.cap (Sample.ranged ++ "#" ++ Descriptor.checksum Sample.cap Sample.ranged)
       true (JsInteger 5)
     = isolate Sample.cap Sample.ranged false (JsInteger 5).
Proof.
  split; [vm_compute; reflexivity|].
  apply isolate_accepts_own_checksum.
  - apply match_checksum_none. vm_compute; reflexivity.
  - vm_compute; reflexivity.
  - vm_compute; reflexivity.
Defined.

(** X3 on the sample: [pkh(K1)] with its checksum and an index that is no
    number builds what [pkh(K1)] builds. *)
Lemma constructor_reads_isolated_expression_witness :
  Descriptor.constructor Sample.cap Sample.pkh_K1_checked
  = Descriptor.constructor Sample.cap Sample.pkh_K1.
Proof.
  apply constructor_reads_isolated_expression; vm_compute; reflexivity.
Defined.

(** X4 on the sample: [pkh(K1)] with its checksum, required or not. *)
Lemma checksumRequired_only_restricts_witness :
  Descriptor.constructor Sample.cap
    (Descriptor.with_expression Sample.pkh_K1_checked
       (Descriptor.expression Sample.pkh_K1_checked)
       (Descriptor.index Sample.pkh_K1_checked) false)
  = Ok Sample.pkh_descriptor.
Proof.
  apply checksumRequired_only_restricts. vm_compute; reflexivity.
Defined.

(** X5 on the sample: a miniscript over two keys. *)
Lemma expandMiniscript_numbers_key_expressions_witness :
  key_expressions (reKeyExp_scan Sample.cap Sample.two_keys) = [Sample.K1; Sample.K2]
  /\ exists expansionMap,
       expandMiniscript Sample.cap Sample.two_keys true bitcoin
       = Ok ("and_v(v:pk(@0),pk(@1))", expansionMap)
       /\ Object_keys expansionMap = ["@0"; "@1"].
Proof.
  split; [vm_compute; reflexivity|].
  eexists. split; [vm_compute; reflexivity|].
  apply (expandMiniscript_numbers_key_expressions Sample.cap Sample.two_keys true bitcoin
           "and_v(v:pk(@0),pk(@1))").
  vm_compute; reflexivity.
Defined.


(** X11 on the sample: the ASM of [and_v(v:pk(@0),older(144))]. *)
Lemma substituteAsm_token_by_token_witness :
  String.concat " " (map written Sample.older_asm)
  = "<@0> OP_CHECKSIGVERIFY 144 OP_CHECKSEQUENCEVERIFY"
  /\ substituteAsm Sample.cap "<@0> OP_CHECKSIGVERIFY 144 OP_CHECKSEQUENCEVERIFY"
       [("@0", Sample.key Sample.key1)]
     = Ok (Sample.K1 ++ " OP_CHECKSIGVERIFY 9000 OP_CHECKSEQUENCEVERIFY").
Proof.
  split; [reflexivity|].
  apply (substituteAsm_token_by_token Sample.cap [("@0", Sample.key Sample.key1)]
           Sample.older_asm).
  - reflexivity.
  - repeat constructor; simpl; try tauto; try discriminate.
Defined.

(** X12 on the sample: a signature with no bytes in it. *)
Lemma satisfyMiniscript_throws_witness :
  satisfyMiniscript Sample.cap ("pk(" ++ Sample.K1 ++ ")") true
    [Sample.signature1; Sample.empty_signature] [] None bitcoin
  = Err InvalidKnownsMap
  /\ exists s,
       In s [Sample.signature1; Sample.empty_signature] /\ sig_signature s = [].
Proof.
  assert (H : satisfyMiniscript Sample.cap ("pk(" ++ Sample.K1 ++ ")") true
                [Sample.signature1; Sample.empty_signature] [] None bitcoin
              = Err InvalidKnownsMap) by (vm_compute; reflexivity).
  split; [exact H|].
  destruct (satisfyMiniscript_throws Sample.cap _ _ _ _ _ _ _ H)
    as [H'|[[H' _]|[[_ [H'|(p & [] & _)]]|(who & H')]]];
    try discriminate H'. exact H'.
Defined.

(** X13 on the sample: [pkh(K1)]. *)
Lemma key_only_descriptor_witness :
  Descriptor.constructor Sample.cap Sample.pkh_K1 = Ok Sample.pkh_descriptor
  /\ Descriptor.x_expandedExpression (Descriptor.expand Sample.pkh_descriptor)
     = Some "pkh(@0)"
  /\ Descriptor.isSegwit Sample.pkh_descriptor = Some false.
Proof.
  assert (H : Descriptor.constructor Sample.cap Sample.pkh_K1
              = Ok Sample.pkh_descriptor) by (vm_compute; reflexivity).
  split; [exact H|].
  destruct (key_only_descriptor Sample.cap Sample.pkh_K1 ("pkh(" ++ Sample.K1 ++ ")")
              Sample.pkh_descriptor "pkh(" ")" false "pkh(@0)")
    as (k & parsed & _ & _ & _ & Hx & Hs & _);
    [vm_compute; reflexivity | vm_compute; reflexivity | exact H |].
  split; [now rewrite Hx | exact Hs].
Defined.

(** X14 on the sample with a [pk(...)] pattern that takes anything:
    [pk(undefined)]. *)
Lemma key_only_throws_witness :
  Descriptor.constructor Sample.lax Sample.pk_undefined = Err KeyExpressionNotExtracted
  /\ Descriptor.group Sample.lax reKeyExp 0 "pk(undefined)" = None.
Proof.
  assert (H : Descriptor.constructor Sample.lax Sample.pk_undefined
              = Err KeyExpressionNotExtracted) by (vm_compute; reflexivity).
  split; [exact H|].
  destruct (key_only_throws Sample.lax Sample.pk_undefined "pk(undefined)"
              KeyExpressionNotExtracted "pk(" ")" false "pk(@0)")
    as [[H' _]|[_|(who & H')]];
    [vm_compute; reflexivity | vm_compute; reflexivity | exact H | | | ];
    try discriminate H'.
  vm_compute; reflexivity.
Defined.

(** X15 on the sample: an address of a p2wpkh output script. *)
Lemma addr_descriptor_witness :
  succeeded (Descriptor.constructor Sample.cap Sample.addr_wpkh) = true
  /\ forall e, Descriptor.constructor Sample.cap Sample.addr_wpkh = Err e ->
               e = InvalidAddress.
Proof.
  split; [vm_compute; reflexivity|].
  apply (addr_descriptor Sample.cap Sample.addr_wpkh
           "addr(0014c6047f9441ed7d6d3045406e95c07cd85c778e4b)");
    vm_compute; reflexivity.
Defined.

(** X16 on the sample: [wsh(and_v(v:pk(K1),older(144)))]. *)
Lemma miniscript_descriptor_witness :
  Descriptor.constructor Sample.cap Sample.wsh_older = Ok Sample.wsh_older_descriptor
  /\ Descriptor.isSegwit Sample.wsh_older_descriptor = Some true.
Proof.
  assert (H : Descriptor.constructor Sample.cap Sample.wsh_older
              = Ok Sample.wsh_older_descriptor) by (vm_compute; reflexivity).
  split; [exact H|].
  destruct (miniscript_descriptor Sample.cap Sample.wsh_older
              ("wsh(and_v(v:pk(" ++ Sample.K1 ++ "),older(144)))")
              Sample.wsh_older_descriptor reWshMiniscriptAnchored "wsh(" ")" true)
    as (ms & expanded & m & script & _ & _ & _ & _ & Hs & _);
    [vm_compute; reflexivity | vm_compute; reflexivity | exact H | exact Hs].
Defined.

(** X17 on the sample: the sequence 144 of
    [wsh(and_v(v:pk(K1),older(144)))]. *)
Lemma constructor_caches_first_satisfaction_witness :
  Descriptor.getSequence Sample.wsh_older_descriptor = Some 144%Z
  /\ exists first,
       Descriptor.getSequence Sample.wsh_older_descriptor = sat_nSequence first
       /\ Descriptor.getLockTime Sample.wsh_older_descriptor = sat_nLockTime first.
Proof.
  split; [vm_compute; reflexivity|].
  destruct (constructor_caches_first_satisfaction Sample.cap Sample.wsh_older
              Sample.wsh_older_descriptor
              ("and_v(v:pk(" ++ Sample.K1 ++ "),older(144))") true)
    as (signers & fakes & expanded & m & first & others & _ & _ & _ & _ & Hl & Hq);
    [vm_compute; reflexivity | vm_compute; reflexivity | vm_compute; reflexivity |].
  exists first. split; assumption.
Defined.

(** X19 on the sample: [pkh(K1)] has no miniscript. *)
Lemma getScriptSatisfaction_throws_witness :
  Descriptor.getScriptSatisfaction Sample.cap Sample.pkh_descriptor [Sample.signature1]
  = Err NoMiniscript.
Proof.
  apply (getScriptSatisfaction_throws Sample.cap Sample.pkh_K1 Sample.pkh_descriptor
           [Sample.signature1]); vm_compute; reflexivity.
Defined.

(** X21 on the sample: the input that spends output 1 by the descriptor of
    [wsh(and_v(v:pk(K1),older(144)))]. *)
Lemma updatePsbt_input_witness :
  exists psbt' input,
    Descriptor.updatePsbt Sample.cap Sample.wsh_older_descriptor "0200" 1
      Sample.empty_psbt = Ok (0%Z, psbt')
    /\ array_get (inputs psbt') 0 = Some input
    /\ nonWitnessUtxo input = Sample.bytes [2; 0]%N
    /\ in_witnessScript input
       = Descriptor.getWitnessScript Sample.wsh_older_descriptor.
Proof.
  set (psbt' := match Descriptor.updatePsbt Sample.cap Sample.wsh_older_descriptor
                        "0200" 1 Sample.empty_psbt with
                | Ok (_, psbt') => psbt'
                | Err _ => Sample.empty_psbt
                end).
  assert (H : Descriptor.updatePsbt Sample.cap Sample.wsh_older_descriptor "0200" 1
                Sample.empty_psbt = Ok (0%Z, psbt')) by (vm_compute; reflexivity).
  destruct (updatePsbt_input Sample.cap Sample.wsh_older_descriptor "0200" 1
              Sample.empty_psbt psbt'
              {| outs := [ {| out_script := Sample.bytes [81%N]; out_value := 50000 |};
                           {| out_script := Sample.bytes [82%N]; out_value := 70000 |} ];
                 getHash := Sample.sha256 (Sample.bytes [2; 0]%N);
                 toBuffer := Sample.bytes [2; 0]%N |}
              {| out_script := Sample.bytes [82%N]; out_value := 70000 |} 0%Z)
    as (input & Hin & _ & _ & Hn & _ & Hw & _);
    [vm_compute; reflexivity | vm_compute; reflexivity | exact H |].
  exists psbt', input. split; [exact H|]. repeat split; assumption.
Defined.

(** X22 on the sample: the script of [and_v(v:pk(K1),older(144))]. *)
Lemma miniscript2Script_assembles_witness :
  miniscript2Script Sample.cap ("and_v(v:pk(" ++ Sample.K1 ++ "),older(144))") true bitcoin
  = call (fromASM Sample.cap
            (Sample.K1 ++ " OP_CHECKSIGVERIFY 9000 OP_CHECKSEQUENCEVERIFY")).
Proof.
  apply (miniscript2Script_assembles Sample.cap
           ("and_v(v:pk(" ++ Sample.K1 ++ "),older(144))") true bitcoin
           "and_v(v:pk(@0),older(144))" [("@0", Sample.key Sample.key1)]
           Sample.older_asm).
  - vm_compute; reflexivity.
  - vm_compute; reflexivity.
  - repeat constructor; simpl; try tauto; try discriminate.
Defined.

(** X23 on the sample: the input added for output 1 awaits its
    signatures. *)
Lemma added_input_awaits_signatures_witness :
  exists psbt',
    Descriptor.updatePsbt Sample.cap Sample.wsh_older_descriptor "0200" 1
      Sample.empty_psbt = Ok (0%Z, psbt')
    /\ Descriptor.finalizePsbtInput Sample.cap Sample.wsh_older_descriptor 0 psbt'
       = Err NoSignatures.
Proof.
  set (psbt' := match Descriptor.updatePsbt Sample.cap Sample.wsh_older_descriptor
                        "0200" 1 Sample.empty_psbt with
                | Ok (_, psbt') => psbt'
                | Err _ => Sample.empty_psbt
                end).
  assert (H : Descriptor.updatePsbt Sample.cap Sample.wsh_older_descriptor "0200" 1
                Sample.empty_psbt = Ok (0%Z, psbt')) by (vm_compute; reflexivity).
  exists psbt'. split; [exact H|].
  exact (added_input_awaits_signatures Sample.cap Sample.wsh_older_descriptor
           Sample.wsh_older_descriptor "0200" 1 Sample.empty_psbt psbt' 0%Z H).
Defined.

(** X24 on the sample: for [and_v(v:pk(K1),sha256(H))] with a signature by
    [K1] and a preimage for [H], the satisfaction
    [<sha256_preimage(H)> <sig(@0)>] comes to the preimage followed by the
    signature. *)
Lemma satisfaction_token_by_token_witness :
  satisfyMiniscript Sample.cap Sample.and_sha256 true [Sample.signature1]
    [Sample.preimage_for_H] None bitcoin
  = (script <-
       call (fromASM Sample.cap
               (preimage Sample.preimage_for_H ++ " "
                ++ toHex (sig_signature Sample.signature1))) ;;
     Ok {| scriptSatisfaction := script; nLockTime := None; nSequence := None |}).
Proof.
  apply (satisfaction_token_by_token Sample.cap Sample.and_sha256 true
           [Sample.signature1] [Sample.preimage_for_H] bitcoin
           ("and_v(v:pk(@0),sha256(" ++ Sample.H ++ "))")
           [("@0", Sample.key Sample.key1)]
           (Sample.sat_of ("<sha256_preimage(" ++ Sample.H ++ ")> <sig(@0)>") None) []
           [Known ("sha256_preimage(" ++ Sample.H ++ ")"); Known "sig(@0)"]).
  - vm_compute; reflexivity.
  - vm_compute; reflexivity.
  - vm_compute; reflexivity.
  - repeat constructor; vm_compute; tauto.
  - repeat constructor; discriminate.
  - repeat constructor; try discriminate.
    exists "sha256", (Sample.H ++ ")"). repeat split;
      intros Hin; vm_compute in Hin;
      repeat (destruct Hin as [Hin|Hin]; [discriminate|]); exact Hin.
Defined.

(** X25 on the sample: of two signatures by [K1], followed by one by
    [K2], the second is held under [<sig(@0)>]. *)
Lemma knowns_hold_last_signature_witness :
  obj_get
    (expandedKnownsMap_of [("@0", Sample.key Sample.key1)]
       [ {| sig_pubkey := Sample.key1; sig_signature := Sample.bytes [48; 1]%N |};
         Sample.signature1; Sample.stray_signature ] [])
    "<sig(@0)>"
  = Some ("<" ++ toHex (sig_signature Sample.signature1) ++ ">").
Proof.
  apply (knowns_hold_last_signature [("@0", Sample.key Sample.key1)]
           [ {| sig_pubkey := Sample.key1; sig_signature := Sample.bytes [48; 1]%N |} ]
           [Sample.stray_signature] Sample.signature1 []
           [] [] "@0" (Sample.key Sample.key1)).
  - reflexivity.
  - reflexivity.
  - reflexivity.
  - constructor.
  - repeat constructor. vm_compute. discriminate.
Defined.

(** X26 on the sample: the preimage for [H] is held under
    [<sha256_preimage(H)>], whatever was given for [H] before it and for
    another digest after it. *)
Lemma knowns_hold_last_preimage_witness :
  obj_get
    (expandedKnownsMap_of [("@0", Sample.key Sample.key1)] [Sample.signature1]
       [ {| digest := digest Sample.preimage_for_H; preimage := "00" |};
         Sample.preimage_for_H; Sample.ill_formed_preimage ])
    ("<sha256_preimage(" ++ Sample.H ++ ")>")
  = Some ("<" ++ preimage Sample.preimage_for_H ++ ">").
Proof.
  apply (knowns_hold_last_preimage [("@0", Sample.key Sample.key1)]
           [Sample.signature1]
           [ {| digest := digest Sample.preimage_for_H; preimage := "00" |} ]
           [Sample.ill_formed_preimage] Sample.preimage_for_H).
  repeat constructor. vm_compute. discriminate.
Defined.
